(** * RFID antenna placement: the coverage evaluator and the PSO loop

    A shallow embedding of [optimize_antenna_placement.py].

    Modelling conventions.
    - NumPy integer arrays are lists of [Z]; a coordinate is a pair of [Z].
      Coordinates stay within a few cells of the 6x10 grid, so the 64-bit
      range of the array elements is never approached and integers are
      taken unbounded.
    - NumPy float arrays are lists of [R]: float arithmetic is idealised as
      real arithmetic.  The two infinities the script uses ([np.inf] on the
      diagonal of the distance matrix, [-np.inf] as the first incumbent)
      get a constructor of their own.
    - An exception (IndexError, ValueError, TypeError) is [None] in the
      option monad.
    - The random draws of the script are inputs of the model. *)

From Stdlib Require Import ZArith Reals Lra Lia.
From stdpp Require Import base option list gmap sorting.

Local Open Scope Z_scope.

(** * The program *)

(** ** NumPy-style arrays and Python loops *)

(** A grid coordinate [(row, column)]. *)
Abbreviation coord := (Z * Z)%type.

(** [a.shape] of a two-dimensional array. *)
Definition shape {A} (a : list (list A)) : Z * Z :=
  (Z.of_nat (length a), Z.of_nat (length (default [] (head a)))).

(** Index normalisation of NumPy: [-len <= i < 0] counts from the end,
    anything outside [-len <= i < len] is an IndexError. *)
Definition np_index (len : nat) (i : Z) : option nat :=
  if bool_decide (0 <= i < Z.of_nat len) then Some (Z.to_nat i)
  else if bool_decide (- Z.of_nat len <= i < 0) then Some (Z.to_nat (Z.of_nat len + i))
  else None.

(** [a[x, y]] *)
Definition np_get {A} (a : list (list A)) (x y : Z) : option A :=
  i ← np_index (length a) x;
  row ← a !! i;
  j ← np_index (length row) y;
  row !! j.

(** [a[x, y] = f(a[x, y])] *)
Definition np_alter {A} (f : A → A) (a : list (list A)) (x y : Z)
  : option (list (list A)) :=
  i ← np_index (length a) x;
  row ← a !! i;
  j ← np_index (length row) y;
  v ← row !! j;
  Some (<[i := <[j := f v]> row]> a).

(** [np.zeros(shape)], [np.zeros_like(a)] *)
Definition np_zeros {A} (zero : A) (sh : Z * Z) : list (list A) :=
  replicate (Z.to_nat sh.1) (replicate (Z.to_nat sh.2) zero).

(** Python's [range(lo, hi)]. *)
Definition py_range (lo hi : Z) : list Z := seqZ lo (hi - lo).

(** A [for] loop whose body may raise: the state is threaded from left to
    right and the first exception ends the loop. *)
Fixpoint for_loop {A S} (l : list A) (body : A → S → option S) (s : S)
  : option S :=
  match l with
  | [] => Some s
  | a :: l' => s' ← body a s; for_loop l' body s'
  end.

(** [np.argwhere(test(a))]: the indices of the cells that pass the test,
    row by row. *)
Definition np_argwhere (test : Z → bool) (a : list (list Z)) : list coord :=
  mjoin (imap (λ r row,
    omap (λ '(c, v), if test v then Some (Z.of_nat r, Z.of_nat c) else None)
         (imap pair row)) a).

(** [np.sum] of a float vector and of a float matrix. *)
Definition np_sum (v : list R) : R := foldr Rplus 0%R v.
Definition np_sum2 (a : list (list R)) : R := np_sum (np_sum <$> a).

(** [np.mean]. *)
Definition np_mean (v : list R) : R := (np_sum v / INR (length v))%R.

(** [a[mask]]: the entries of [a] where the boolean mask holds, row by row. *)
Definition np_select {A} (a : list (list A)) (mask : list (list bool)) : list A :=
  mjoin (zip_with (λ row mrow,
    omap (λ '(v, b), if b : bool then Some v else None) (zip row mrow)) a mask).

(** [np.max] of a vector; a ValueError on the empty vector. *)
Definition np_max (v : list R) : option R :=
  match v with
  | [] => None
  | x :: v' => Some (foldl Rmax x v')
  end.

(** [np.argmax]: the first index that holds the maximum. *)
Fixpoint argmax_from (best_i : nat) (best : R) (i : nat) (v : list R) : nat :=
  match v with
  | [] => best_i
  | x :: v' =>
      if Rlt_dec best x then argmax_from i x (S i) v'
      else argmax_from best_i best (S i) v'
  end.

Definition np_argmax (v : list R) : option nat :=
  match v with
  | [] => None
  | x :: v' => Some (argmax_from 0 x 1 v')
  end.

(** [np.round]: to the nearest integer, a tie to the even one. *)
Definition np_round (x : R) : Z :=
  let f := Int_part x in
  let d := (x - IZR f)%R in
  if Rlt_dec d (1 / 2) then f
  else if Rlt_dec (1 / 2) d then f + 1
  else if Z.even f then f else f + 1.

(** ** The warehouse (lines 7-25) *)

Definition warehouse_map : list (list Z) :=
  [ [1; 1; 1; 1; 1; 1; 1; 1; 1; 1];
    [1; 0; 0; 0; 1; 0; 0; 0; 0; 1];
    [1; 0; 1; 0; 1; 0; 1; 1; 0; 1];
    [1; 0; 0; 0; 0; 0; 0; 0; 0; 1];
    [1; 0; 0; 0; 1; 0; 0; 0; 0; 1];
    [1; 1; 1; 1; 1; 1; 1; 1; 1; 1] ].

Definition map_size : Z * Z := shape warehouse_map.

Definition valid_positions : list coord :=
  np_argwhere (λ v, bool_decide (v = 0)) warehouse_map.

Definition valid_set : gset coord := list_to_set valid_positions.

(** ** Critical zones (lines 53-59) *)

(** The body of the two loops.  The script reads the four neighbours
    inside a short-circuit condition; the loops visit interior cells only,
    where the four reads are in range, so they are read first here.  The
    float array [critical_zones] holds 0.0 or 1.0 and is modelled with
    integer entries. *)
Definition critical_cell (x y : Z) (cz : list (list Z))
  : option (list (list Z)) :=
  c ← np_get warehouse_map x y;
  if bool_decide (c = 0) then
    up ← np_get warehouse_map (x - 1) y;
    down ← np_get warehouse_map (x + 1) y;
    left ← np_get warehouse_map x (y - 1);
    right ← np_get warehouse_map x (y + 1);
    if bool_decide (up = 1) && bool_decide (down = 1)
       && bool_decide (left = 0) && bool_decide (right = 0)
       || bool_decide (left = 1) && bool_decide (right = 1)
          && bool_decide (up = 0) && bool_decide (down = 0)
    then np_alter (λ _, 1) cz x y
    else Some cz
  else Some cz.

Definition critical_zones : option (list (list Z)) :=
  for_loop (py_range 1 (map_size.1 - 1)) (λ x,
    for_loop (py_range 1 (map_size.2 - 1)) (λ y, critical_cell x y))
    (np_zeros 0 (shape warehouse_map)).

(** ** The coverage evaluator [compute_coverage] (lines 35-92) *)

Definition signalrange : R := (46 / 100)%R.

(** The two reflection targets of lines 74-77: a target that is in bounds
    and a wall receives half of the decay. *)
Definition reflect (x y nx ny : Z) (decay : R) (coverage_map : list (list R))
  : option (list (list R)) :=
  for_loop [(nx, 2 * ny - y); (2 * nx - x, ny)] (λ '(rx, ry) cm,
    if bool_decide (0 <= rx < map_size.1) && bool_decide (0 <= ry < map_size.2)
    then
      c ← np_get warehouse_map rx ry;
      if bool_decide (c = 1)
      then np_alter (λ v, (v + decay / 2)%R) cm rx ry
      else Some cm
    else Some cm) coverage_map.

(** The body of the loops over [i] and [j] (lines 65-81). *)
Definition propagate (critical_zones : list (list Z)) (critical_zone_weight : R)
    (x y i j : Z) (coverage_map : list (list R)) : option (list (list R)) :=
  let nx := x + i in
  let ny := y + j in
  if bool_decide (0 <= nx < map_size.1) && bool_decide (0 <= ny < map_size.2)
  then
    c ← np_get warehouse_map nx ny;
    if bool_decide (c = 0) then
      let distance := sqrt (IZR (i ^ 2 + j ^ 2)) in
      if Rlt_dec distance 8 then
        let decay := exp (- distance / signalrange) in
        cm1 ← np_alter (λ v, (v + decay)%R) coverage_map nx ny;
        c' ← np_get warehouse_map nx ny;
        cm2 ← (if bool_decide (c' = 0) then reflect x y nx ny decay cm1
               else Some cm1);
        z ← np_get critical_zones nx ny;
        if bool_decide (z ≠ 0)
        then np_alter (λ v, (v + critical_zone_weight)%R) cm2 nx ny
        else Some cm2
      else Some coverage_map
    else Some coverage_map
  else Some coverage_map.

(** Lines 50-81: the coverage map of a placement. *)
Definition coverage_map (antennas : list coord) (critical_zone_weight : R)
  : option (list (list R)) :=
  cz ← critical_zones;
  for_loop antennas (λ '(x, y),
    for_loop (py_range (-4) 5) (λ i,
      for_loop (py_range (-4) 5) (λ j,
        propagate cz critical_zone_weight x y i j)))
    (np_zeros 0%R map_size).

(** [warehouse_map == 0] *)
Definition valid_mask : list (list bool) :=
  (λ row : list Z, (λ v : Z, bool_decide (v = 0)) <$> row) <$> warehouse_map.

(** Lines 84-85. *)
Definition coverage_score (coverage_map : list (list R)) : R :=
  np_mean (np_select coverage_map valid_mask).

(** An entry of the distance matrix: a real distance, or [np.inf]. *)
Inductive dist : Type :=
  | Dist (d : R)
  | DistInf.

Definition euclidean (a b : coord) : R :=
  sqrt ((IZR a.1 - IZR b.1) ^ 2 + (IZR a.2 - IZR b.2) ^ 2).

(** [scipy.spatial.distance.cdist] with the Euclidean metric. *)
Definition cdist (XA XB : list coord) : list (list dist) :=
  (λ a : coord, (λ b : coord, Dist (euclidean a b)) <$> XB) <$> XA.

(** [np.fill_diagonal(a, v)] *)
Definition fill_diagonal (a : list (list dist)) (v : dist) : list (list dist) :=
  imap (λ i row, <[i := v]> row) a.

(** [np.exp(-d / 3)] on an entry; [exp(-inf)] is [0]. *)
Definition exp_neg_div3 (d : dist) : R :=
  match d with
  | Dist r => exp (- r / 3)
  | DistInf => 0%R
  end.

(** Lines 88-90. *)
Definition repulsion_score (antennas : list coord) : R :=
  let distances := fill_diagonal (cdist antennas antennas) DistInf in
  np_sum2 ((λ row : list dist, exp_neg_div3 <$> row) <$> distances).

Definition compute_coverage (antennas : list coord)
    (repulsion_weight critical_zone_weight : R) : option R :=
  cm ← coverage_map antennas critical_zone_weight;
  Some (coverage_score cm - repulsion_weight * repulsion_score antennas)%R.

(** The default weights of [compute_coverage]. *)
Definition default_repulsion_weight : R := (7 / 10)%R.
Definition default_critical_zone_weight : R := (18 / 10)%R.

(** ** The map of [plot_coverage_heatmap] (lines 102-122) *)

Definition heatmap_reflect (warehouse_map : list (list Z)) (x y nx ny : Z)
    (signal_strength : R) (coverage_map : list (list R))
  : option (list (list R)) :=
  let map_size := shape warehouse_map in
  for_loop [(nx, 2 * ny - y); (2 * nx - x, ny)] (λ '(rx, ry) cm,
    if bool_decide (0 <= rx < map_size.1) && bool_decide (0 <= ry < map_size.2)
    then
      c ← np_get warehouse_map rx ry;
      if bool_decide (c = 1)
      then np_alter (λ v, (v + signal_strength / 2)%R) cm rx ry
      else Some cm
    else Some cm) coverage_map.

Definition heatmap_propagate (warehouse_map : list (list Z)) (x y i j : Z)
    (coverage_map : list (list R)) : option (list (list R)) :=
  let map_size := shape warehouse_map in
  let nx := x + i in
  let ny := y + j in
  if bool_decide (0 <= nx < map_size.1) && bool_decide (0 <= ny < map_size.2)
  then
    c ← np_get warehouse_map nx ny;
    if bool_decide (c = 0) then
      let signal_strength := exp (- sqrt (IZR (i ^ 2 + j ^ 2)) / 2) in
      cm1 ← np_alter (λ v, (v + signal_strength)%R) coverage_map nx ny;
      c' ← np_get warehouse_map nx ny;
      if bool_decide (c' = 0)
      then heatmap_reflect warehouse_map x y nx ny signal_strength cm1
      else Some cm1
    else Some coverage_map
  else Some coverage_map.

Definition plot_coverage_heatmap (warehouse_map : list (list Z))
    (antennas : list coord) : option (list (list R)) :=
  for_loop antennas (λ '(x, y),
    for_loop (py_range (-4) 5) (λ i,
      for_loop (py_range (-4) 5) (λ j,
        heatmap_propagate warehouse_map x y i j)))
    (np_zeros 0%R (shape warehouse_map)).

(** ** The swarm optimizer (lines 16-33 and 167-192) *)

Definition num_ants : nat := 7.
Definition num_particles : nat := 80.
Definition num_iters : nat := 100.

Definition w : R := (5 / 10)%R.
Definition c1 : R := (15 / 10)%R.
Definition c2 : R := (15 / 10)%R.

(** [best_fitness]: [-np.inf] before the first update, a fitness after it. *)
Inductive incumbent : Type :=
  | NegInf
  | Fitness (f : R).

(** [f > best_fitness] *)
Definition exceeds (f : R) (best : incumbent) : bool :=
  match best with
  | NegInf => true
  | Fitness g => if Rlt_dec g f then true else false
  end.

Record swarm : Type := {
  particles : list (list coord);
  velocity : list (list (R * R));
  global_best : option (list coord);
  best_fitness : incumbent;
  fitness_history : list incumbent
}.

(** Line 28: [valid_positions[choice]], for the index array that
    [np.random.choice] drew. *)
Definition init_particles (choice : list (list nat)) : option (list (list coord)) :=
  mapM (mapM (λ k, valid_positions !! k)) choice.

(** Lines 28-29 and 167-169. *)
Definition init_swarm (choice : list (list nat)) : option swarm :=
  ps ← init_particles choice;
  Some {| particles := ps;
          velocity := (λ row : list coord, (λ _ : coord, (0, 0)%R) <$> row) <$> ps;
          global_best := None;
          best_fitness := NegInf;
          fitness_history := [] |}.

(** Line 183 on one component of one emitter of one particle. *)
Definition velocity_component (r1 r2 v : R) (p g : Z) : R :=
  (w * v + c1 * r1 * IZR (p - g) + c2 * r2 * IZR (p - g))%R.

(** Line 183: [global_best] is broadcast over the particles. *)
Definition update_velocity (r1 r2 : R) (velocity : list (list (R * R)))
    (particles : list (list coord)) (global_best : list coord)
  : list (list (R * R)) :=
  zip_with (λ vrow prow,
    zip_with (λ '(vx, vy) '((px, py), (gx, gy)),
      (velocity_component r1 r2 vx px gx, velocity_component r1 r2 vy py gy))
      vrow (zip prow global_best)) velocity particles.

(** Line 184: [np.round(particles + velocity).astype(int)]. *)
Definition round_positions (particles : list (list coord))
    (velocity : list (list (R * R))) : list (list coord) :=
  zip_with (λ prow vrow,
    zip_with (λ '(px, py) '(vx, vy),
      (np_round (IZR px + vx), np_round (IZR py + vy))) prow vrow)
    particles velocity.

(** Lines 189-190. *)
Definition repair_cell (particles : list (list coord)) (i j : Z)
    (new_particles : list (list coord)) : option (list (list coord)) :=
  c ← np_get new_particles i j;
  if bool_decide (c ∉ valid_set) then
    p ← np_get particles i j;
    np_alter (λ _, p) new_particles i j
  else Some new_particles.

(** Lines 187-190. *)
Definition repair (num_particles num_ants : nat)
    (particles new_particles : list (list coord)) : option (list (list coord)) :=
  for_loop (py_range 0 (Z.of_nat num_particles)) (λ i,
    for_loop (py_range 0 (Z.of_nat num_ants)) (λ j,
      repair_cell particles i j)) new_particles.

(** Lines 175-177. *)
Definition update_best (fitness : list R) (s : swarm)
  : option (incumbent * option (list coord)) :=
  m ← np_max fitness;
  if exceeds m (best_fitness s) then
    k ← np_argmax fitness;
    p ← particles s !! k;
    Some (Fitness m, Some p)
  else Some (best_fitness s, global_best s).

(** One pass of the main loop (lines 172-192) with the draws [r1], [r2]. *)
Definition pso_step (num_particles num_ants : nat) (r1 r2 : R) (s : swarm)
  : option swarm :=
  fitness ← mapM (λ p, compute_coverage p default_repulsion_weight
                         default_critical_zone_weight) (particles s);
  '(best, gbest) ← update_best fitness s;
  let history := fitness_history s ++ [best] in
  g ← gbest;
  let velocity' := update_velocity r1 r2 (velocity s) (particles s) g in
  let new_particles := round_positions (particles s) velocity' in
  repaired ← repair num_particles num_ants (particles s) new_particles;
  Some {| particles := repaired;
          velocity := velocity';
          global_best := Some g;
          best_fitness := best;
          fitness_history := history |}.

(** Lines 171-192: [num_iters] passes; [rand t] is the pair of draws of
    pass [t]. *)
Definition pso_loop (num_particles num_ants num_iters : nat)
    (rand : nat → R * R) (s : swarm) : option swarm :=
  for_loop (seq 0 num_iters) (λ t s,
    pso_step num_particles num_ants (rand t).1 (rand t).2 s) s.

Definition optimize (num_particles num_ants num_iters : nat)
    (choice : list (list nat)) (rand : nat → R * R) : option swarm :=
  s ← init_swarm choice;
  pso_loop num_particles num_ants num_iters rand s.

(** The script: 80 particles of 7 antennas, 100 passes. *)
Definition script (choice : list (list nat)) (rand : nat → R * R)
  : option swarm :=
  optimize num_particles num_ants num_iters choice rand.

(** ** The map of [plot_coverage_overlap] (lines 143-153) *)

(** The body of the loops over [i] and [j] (lines 150-153). *)
Definition overlap_count (warehouse_map : list (list Z)) (x y i j : Z)
    (overlap_map : list (list Z)) : option (list (list Z)) :=
  let map_size := shape warehouse_map in
  let nx := x + i in
  let ny := y + j in
  if bool_decide (0 <= nx < map_size.1) && bool_decide (0 <= ny < map_size.2)
  then
    c ← np_get warehouse_map nx ny;
    if bool_decide (c = 0)
    then np_alter (λ v, v + 1) overlap_map nx ny
    else Some overlap_map
  else Some overlap_map.

Definition plot_coverage_overlap (warehouse_map : list (list Z))
    (antennas : list coord) : option (list (list Z)) :=
  for_loop antennas (λ '(x, y),
    for_loop (py_range (-4) 5) (λ i,
      for_loop (py_range (-4) 5) (λ j,
        overlap_count warehouse_map x y i j)))
    (np_zeros 0 (shape warehouse_map)).

(** ** The end of the script (lines 194-205) *)

(** What the three plots are drawn from: the heatmap and the overlap map of
    the Global Best, and the fitness history.  With no Global Best the loop
    over the antennas of the first plot raises. *)
Definition report (s : swarm)
  : option (list (list R) * list (list Z) * list incumbent) :=
  g ← global_best s;
  hm ← plot_coverage_heatmap warehouse_map g;
  om ← plot_coverage_overlap warehouse_map g;
  Some (hm, om, fitness_history s).

(** Lines 16-205 for a swarm of [num_particles] particles of [num_ants]
    antennas and [num_iters] passes. *)
Definition optimize_and_report (num_particles num_ants num_iters : nat)
    (choice : list (list nat)) (rand : nat → R * R)
  : option (list (list R) * list (list Z) * list incumbent) :=
  s ← optimize num_particles num_ants num_iters choice rand;
  report s.

(** * Notions of the specification and of the proofs *)

(** A rectangular array of [h] rows and [w] columns. *)
Definition has_shape {A} (h w : nat) (a : list (list A)) : Prop :=
  length a = h ∧ Forall (λ row, length row = w) a.

Definition all_cells {A} (P : A → Prop) (a : list (list A)) : Prop :=
  Forall (Forall P) a.

(** The eight cells the derivation marks on the reference grid. *)
Definition critical_cells : list coord :=
  [(1,2); (1,6); (1,7); (2,1); (2,3); (2,5); (2,8); (3,4)].

Definition critical_zones_ref : list (list Z) :=
  [ [0; 0; 0; 0; 0; 0; 0; 0; 0; 0];
    [0; 0; 1; 0; 0; 0; 1; 1; 0; 0];
    [0; 1; 0; 1; 0; 1; 0; 0; 1; 0];
    [0; 0; 0; 0; 1; 0; 0; 0; 0; 0];
    [0; 0; 0; 0; 0; 0; 0; 0; 0; 0];
    [0; 0; 0; 0; 0; 0; 0; 0; 0; 0] ].

(** The coverage map after a step relates to the map before it: same shape,
    the property [P] of the cells kept. *)
Definition map_inv (P : R → Prop) (cm : list (list R)) : Prop :=
  has_shape 6 10 cm ∧ all_cells P cm.

(** [cm'] has the cells of [cm] on every FREE cell of the grid. *)
Definition same_on_free (cm cm' : list (list R)) : Prop :=
  ∀ x y, 0 <= x < 6 → 0 <= y < 10 →
    np_get warehouse_map x y = Some 0 → np_get cm' x y = np_get cm x y.

(** The value of a cell, [0] outside the array. *)
Definition cell (a : list (list R)) (c : coord) : R :=
  default 0%R (np_get a c.1 c.2).

(** [propagate] with lines 72-77 left out. *)
Definition propagate_direct (critical_zones : list (list Z))
    (critical_zone_weight : R) (x y i j : Z) (coverage_map : list (list R))
  : option (list (list R)) :=
  let nx := x + i in
  let ny := y + j in
  if bool_decide (0 <= nx < map_size.1) && bool_decide (0 <= ny < map_size.2)
  then
    c ← np_get warehouse_map nx ny;
    if bool_decide (c = 0) then
      let distance := sqrt (IZR (i ^ 2 + j ^ 2)) in
      if Rlt_dec distance 8 then
        let decay := exp (- distance / signalrange) in
        cm1 ← np_alter (λ v, (v + decay)%R) coverage_map nx ny;
        z ← np_get critical_zones nx ny;
        if bool_decide (z ≠ 0)
        then np_alter (λ v, (v + critical_zone_weight)%R) cm1 nx ny
        else Some cm1
      else Some coverage_map
    else Some coverage_map
  else Some coverage_map.

Definition coverage_map_direct (antennas : list coord)
    (critical_zone_weight : R) : option (list (list R)) :=
  cz ← critical_zones;
  for_loop antennas (λ '(x, y),
    for_loop (py_range (-4) 5) (λ i,
      for_loop (py_range (-4) 5) (λ j,
        propagate_direct cz critical_zone_weight x y i j)))
    (np_zeros 0%R map_size).

(** The map with reflections and the map without them, side by side. *)
Definition free_related (cm cmd : list (list R)) : Prop :=
  has_shape 6 10 cm ∧ has_shape 6 10 cmd ∧ same_on_free cm cmd.

(** The term of the ordered pair of indices [(i, j)] in the repulsion
    score: nothing for [i = j], [exp(-distance / 3)] otherwise. *)
Definition pair_term (i j : nat) (a b : coord) : R :=
  if decide (i = j) then 0%R else exp (- euclidean a b / 3).

(** The repulsion score in the words of the specification: the sum over
    all ordered pairs of distinct indices of [exp(-distance / 3)]. *)
Definition ordered_pairs_sum (antennas : list coord) : R :=
  np_sum (imap (λ i a,
    np_sum (imap (λ j b, pair_term i j a b) antennas)) antennas).

(** What the repair leaves in a cell: the rounded candidate when it is a
    FREE cell, the coordinate before the update otherwise. *)
Definition repaired_cell (particles new_particles : list (list coord))
    (i j : Z) : option coord :=
  c ← np_get new_particles i j;
  if bool_decide (c ∈ valid_set) then Some c else np_get particles i j.

(** The state of the repair loop: the rows of [rows] and, in row [i], the
    columns of [cols] are repaired, the other cells hold the candidates. *)
Definition repair_progress (N K : nat) (old new : list (list coord))
    (rows : list Z) (i : Z) (cols : list Z) (np : list (list coord)) : Prop :=
  has_shape N K np ∧
  ∀ x y, 0 <= x < Z.of_nat N → 0 <= y < Z.of_nat K →
    np_get np x y =
      if bool_decide (x ∈ rows ∨ x = i ∧ y ∈ cols)
      then repaired_cell old new x y else np_get new x y.

(** The order of the incumbents: [-np.inf] is below every fitness. *)
Definition inc_le (a b : incumbent) : Prop :=
  match a, b with
  | NegInf, _ => True
  | Fitness _, NegInf => False
  | Fitness x, Fitness y => (x <= y)%R
  end.

Definition swarm_inv (N K t : nat) (s : swarm) : Prop :=
  has_shape N K (particles s) ∧ has_shape N K (velocity s) ∧
  all_cells (λ c, c ∈ valid_set) (particles s) ∧
  (global_best s = None → best_fitness s = NegInf) ∧
  (∀ g, global_best s = Some g → length g = K) ∧
  length (fitness_history s) = t ∧
  StronglySorted inc_le (fitness_history s) ∧
  Forall (λ f, inc_le f (best_fitness s)) (fitness_history s).

(** What one pass does to the state. *)
Definition step_facts (N K : nat) (r1 r2 : R) (s s' : swarm) : Prop :=
  ∃ fitness m g,
    mapM (λ p, compute_coverage p default_repulsion_weight
                 default_critical_zone_weight) (particles s) = Some fitness
    ∧ np_max fitness = Some m
    ∧ best_fitness s' =
        (if exceeds m (best_fitness s) then Fitness m else best_fitness s)
    ∧ fitness_history s' = fitness_history s ++ [best_fitness s']
    ∧ global_best s' = Some g
    ∧ velocity s' = update_velocity r1 r2 (velocity s) (particles s) g
    ∧ ∀ x y, 0 <= x < Z.of_nat N → 0 <= y < Z.of_nat K →
        np_get (particles s') x y =
          repaired_cell (particles s)
            (round_positions (particles s) (velocity s')) x y.

(** [propagate] with the test [distance < 8] taken: inside the 9x9 window
    the distance is at most [sqrt 32]. *)
Definition propagate_window (critical_zones : list (list Z))
    (critical_zone_weight : R) (x y i j : Z) (coverage_map : list (list R))
  : option (list (list R)) :=
  let nx := x + i in
  let ny := y + j in
  if bool_decide (0 <= nx < map_size.1) && bool_decide (0 <= ny < map_size.2)
  then
    c ← np_get warehouse_map nx ny;
    if bool_decide (c = 0) then
      let distance := sqrt (IZR (i ^ 2 + j ^ 2)) in
      let decay := exp (- distance / signalrange) in
      cm1 ← np_alter (λ v, (v + decay)%R) coverage_map nx ny;
      c' ← np_get warehouse_map nx ny;
      cm2 ← (if bool_decide (c' = 0) then reflect x y nx ny decay cm1
             else Some cm1);
      z ← np_get critical_zones nx ny;
      if bool_decide (z ≠ 0)
      then np_alter (λ v, (v + critical_zone_weight)%R) cm2 nx ny
      else Some cm2
    else Some coverage_map
  else Some coverage_map.

Definition coverage_map_window (antennas : list coord)
    (critical_zone_weight : R) : option (list (list R)) :=
  for_loop antennas (λ '(x, y),
    for_loop (py_range (-4) 5) (λ i,
      for_loop (py_range (-4) 5) (λ j,
        propagate_window critical_zones_ref critical_zone_weight x y i j)))
    (np_zeros 0%R map_size).

(** The update rule in the words of the specification: both terms pull
    toward the Global Best, [global_best - position]. *)
Definition spec_velocity_component (r1 r2 v : R) (p g : Z) : R :=
  (w * v + c1 * r1 * IZR (g - p) + c2 * r2 * IZR (g - p))%R.

Ltac eval_map :=
  cbv -[Rplus Rmult Rdiv Rminus Ropp Rinv exp sqrt IZR Rlt_dec signalrange].

(** The cell [c] is in the 9x9 window of the emitter [e]. *)
Definition reaches (e c : coord) : bool :=
  bool_decide (-4 <= c.1 - e.1 < 5) && bool_decide (-4 <= c.2 - e.2 < 5).

(** The in-bounds cells of a grid that hold 0. *)
Definition free_cell (grid : list (list Z)) (c : coord) : Prop :=
  0 <= c.1 < (shape grid).1 ∧ 0 <= c.2 < (shape grid).2
  ∧ np_get grid c.1 c.2 = Some 0.

(** The cells of an array of [h] rows and [w] columns. *)
Definition on_grid (h w : nat) (c : coord) : Prop :=
  0 <= c.1 < Z.of_nat h ∧ 0 <= c.2 < Z.of_nat w.

(** The entry of an integer array, [0] outside the array. *)
Definition count_at (a : list (list Z)) (c : coord) : Z :=
  default 0 (np_get a c.1 c.2).

(** The sum of [g] over a list, for an addition [add] with unit [zero]. *)
Definition total {A V} (add : V → V → V) (zero : V) (g : A → V) (l : list A)
  : V :=
  foldr (λ a acc, add (g a) acc) zero l.

(** What one emitter [e] adds to the FREE cell [c] of the evaluator's map:
    the decay of the distance and, on a critical cell, the bonus. *)
Definition emitter_gain (critical_zone_weight : R) (c e : coord) : R :=
  if reaches e c
  then (exp (- euclidean c e / signalrange)
        + (if bool_decide (c ∈ critical_cells) then critical_zone_weight
           else 0))%R
  else 0%R.

(** What one emitter [e] adds to the FREE cell [c] of the heatmap. *)
Definition heatmap_gain (c e : coord) : R :=
  if reaches e c then exp (- euclidean c e / 2) else 0%R.

(** A bound of [emitter_gain] without the exponential: the decay is 1 on
    the cell of the emitter and is replaced by [q] on the other cells of
    its window. *)
Definition gain_bound (q critical_zone_weight : R) (c e : coord) : R :=
  if reaches e c
  then ((if bool_decide (c = e) then 1 else q)
        + (if bool_decide (c ∈ critical_cells) then critical_zone_weight
           else 0))%R
  else 0%R.

(** The first index of [v] that holds [m], an upper bound of [v]. *)
Definition first_max (v : list R) (k : nat) (m : R) : Prop :=
  v !! k = Some m
  ∧ (∀ j y, v !! j = Some y → (y <= m)%R)
  ∧ (∀ j y, (j < k)%nat → v !! j = Some y → (y < m)%R).

(** The incumbent is the fitness of the Global Best, a placement of [K]
    FREE cells. *)
Definition best_inv (K : nat) (s : swarm) : Prop :=
  ∃ g f, global_best s = Some g ∧ best_fitness s = Fitness f
    ∧ compute_coverage g default_repulsion_weight
        default_critical_zone_weight = Some f
    ∧ length g = K ∧ Forall (λ c, c ∈ valid_set) g.

(** The fitness that the main loop computes for a particle (line 172). *)
Definition fitness_of (p : list coord) : option R :=
  compute_coverage p default_repulsion_weight default_critical_zone_weight.

(** An entry of the history that is a fitness, not [-np.inf]. *)
Definition finite_entry (h : incumbent) : Prop := ∃ f, h = Fitness f.

(** The state after [t] passes from the initial swarm [s0]: once a pass
    has run, the incumbent is the fitness of the Global Best, it is the
    last entry of the history, no entry is [-np.inf], and no particle of
    the initial swarm is fitter than the incumbent. *)
Definition run_inv (N K : nat) (s0 : swarm) (t : nat) (s : swarm) : Prop :=
  swarm_inv N K t s
  ∧ (t = 0%nat → s = s0)
  ∧ ((0 < t)%nat →
       best_inv K s
       ∧ last (fitness_history s) = Some (best_fitness s)
       ∧ Forall finite_entry (fitness_history s)
       ∧ ∀ p f, p ∈ particles s0 → fitness_of p = Some f →
           inc_le (Fitness f) (best_fitness s)).

(** * Lemmas and theorems *)

Lemma critical_zones_eq : critical_zones = Some critical_zones_ref.
Proof. vm_compute. reflexivity. Qed.

(** ** Arrays and loops *)

Lemma np_index_inrange len i :
  0 <= i < Z.of_nat len → np_index len i = Some (Z.to_nat i).
Proof. intros Hi. unfold np_index. by rewrite bool_decide_eq_true_2. Qed.

Lemma has_shape_lookup {A} h w (a : list (list A)) x y :
  has_shape h w a → 0 <= x < Z.of_nat h → 0 <= y < Z.of_nat w →
  ∃ row v, a !! Z.to_nat x = Some row ∧ length row = w
           ∧ row !! Z.to_nat y = Some v.
Proof.
  intros [Hlen Hrows] Hx Hy.
  destruct (lookup_lt_is_Some_2 a (Z.to_nat x)) as [row Hrow]; [lia|].
  assert (length row = w) as Hw.
  { by apply (Forall_lookup_1 _ _ _ _ Hrows Hrow). }
  destruct (lookup_lt_is_Some_2 row (Z.to_nat y)) as [v Hv]; [lia|].
  by exists row, v.
Qed.

Lemma np_get_inrange {A} h w (a : list (list A)) x y :
  has_shape h w a → 0 <= x < Z.of_nat h → 0 <= y < Z.of_nat w →
  ∃ v, np_get a x y = Some v.
Proof.
  intros Ha Hx Hy.
  destruct (has_shape_lookup h w a x y Ha Hx Hy) as (row & v & Hrow & Hw & Hv).
  exists v. unfold np_get.
  rewrite np_index_inrange by (destruct Ha; lia). simpl. rewrite Hrow. simpl.
  rewrite np_index_inrange by lia. done.
Qed.

Lemma np_get_all_cells {A} (P : A → Prop) (a : list (list A)) x y v :
  all_cells P a → np_get a x y = Some v → P v.
Proof.
  intros Ha. unfold np_get. intros Hget.
  destruct (np_index (length a) x) as [i|]; [simpl in Hget|done].
  destruct (a !! i) as [row|] eqn:Hrow; [simpl in Hget|done].
  destruct (np_index (length row) y) as [j|]; [simpl in Hget|done].
  eapply Forall_lookup_1; [|exact Hget].
  eapply Forall_lookup_1; [exact Ha|exact Hrow].
Qed.

(** An in-range update succeeds, keeps the shape, keeps a property of the
    cells that [f] keeps, and changes the one cell only. *)
Lemma np_alter_inrange {A} (P : A → Prop) (f : A → A) h w
    (a : list (list A)) x y :
  has_shape h w a → all_cells P a → (∀ v, P v → P (f v)) →
  0 <= x < Z.of_nat h → 0 <= y < Z.of_nat w →
  ∃ a', np_alter f a x y = Some a' ∧ has_shape h w a' ∧ all_cells P a'
        ∧ ∀ x' y', 0 <= x' < Z.of_nat h → 0 <= y' < Z.of_nat w →
            np_get a' x' y' =
              if bool_decide (x' = x ∧ y' = y) then f <$> np_get a x y
              else np_get a x' y'.
Proof.
  intros Ha HP Hf Hx Hy.
  destruct (has_shape_lookup h w a x y Ha Hx Hy) as (row & v & Hrow & Hw & Hv).
  destruct Ha as [Hlen Hrows].
  exists (<[Z.to_nat x := <[Z.to_nat y := f v]> row]> a).
  split; [|split; [|split]].
  - unfold np_alter. rewrite np_index_inrange by lia. simpl. rewrite Hrow. simpl.
    rewrite np_index_inrange by lia. simpl. by rewrite Hv.
  - split; [by rewrite length_insert|].
    apply Forall_insert; [done|]. by rewrite length_insert.
  - apply Forall_insert; [done|].
    apply Forall_insert; [by apply (Forall_lookup_1 _ _ _ _ HP Hrow)|].
    apply Hf. eapply Forall_lookup_1; [|exact Hv].
    by apply (Forall_lookup_1 _ _ _ _ HP Hrow).
  - intros x' y' Hx' Hy'. unfold np_get.
    rewrite length_insert.
    rewrite !np_index_inrange by lia. simpl.
    destruct (decide (x' = x)) as [->|Hne].
    + rewrite list_lookup_insert_eq by lia. rewrite Hrow. simpl.
      rewrite length_insert. rewrite !np_index_inrange by lia. simpl.
      destruct (decide (y' = y)) as [->|Hney].
      * rewrite bool_decide_eq_true_2 by done.
        rewrite list_lookup_insert_eq by lia. by rewrite Hv.
      * rewrite bool_decide_eq_false_2 by (intros [_ ?]; done).
        rewrite list_lookup_insert_ne by lia. done.
    + rewrite bool_decide_eq_false_2 by (intros [? _]; done).
      rewrite list_lookup_insert_ne by lia. done.
Qed.

Lemma has_shape_zeros {A} (z : A) (h w : nat) :
  has_shape h w (np_zeros z (Z.of_nat h, Z.of_nat w)).
Proof.
  unfold np_zeros, has_shape. simpl. rewrite !Nat2Z.id. split.
  - apply length_replicate.
  - apply Forall_replicate, length_replicate.
Qed.

Lemma all_cells_zeros {A} (P : A → Prop) (z : A) sh :
  P z → all_cells P (np_zeros z sh).
Proof. intros Hz. by apply Forall_replicate, Forall_replicate. Qed.

(** The loop rule: an invariant that every body keeps, without raising,
    holds after the loop, which does not raise. *)
Lemma for_loop_invariant {A S} (I : S → Prop) (l : list A)
    (body : A → S → option S) (s : S) :
  I s →
  (∀ a s, a ∈ l → I s → ∃ s', body a s = Some s' ∧ I s') →
  ∃ s', for_loop l body s = Some s' ∧ I s'.
Proof.
  revert s. induction l as [|a l IH]; intros s Hs Hbody; simpl.
  - by exists s.
  - destruct (Hbody a s) as (s1 & -> & Hs1); [by left|done|]. simpl.
    apply IH; [done|]. intros b t Hb. apply Hbody. by right.
Qed.

(** Two loops over the same list run in lockstep. *)
Lemma for_loop_lockstep {A S T} (Rel : S → T → Prop) (l : list A)
    (body1 : A → S → option S) (body2 : A → T → option T) s t :
  Rel s t →
  (∀ a s t, a ∈ l → Rel s t →
     ∃ s' t', body1 a s = Some s' ∧ body2 a t = Some t' ∧ Rel s' t') →
  ∃ s' t', for_loop l body1 s = Some s' ∧ for_loop l body2 t = Some t'
           ∧ Rel s' t'.
Proof.
  revert s t. induction l as [|a l IH]; intros s t Hst Hbody; simpl.
  - by exists s, t.
  - destruct (Hbody a s t) as (s1 & t1 & -> & -> & H1); [by left|done|]. simpl.
    apply IH; [done|]. intros b s2 t2 Hb. apply Hbody. by right.
Qed.

Lemma elem_of_py_range lo hi i : i ∈ py_range lo hi ↔ lo <= i < hi.
Proof. unfold py_range. rewrite elem_of_seqZ. lia. Qed.

(** ** The evaluator never raises *)

Lemma map_size_eq : map_size = (6, 10).
Proof. reflexivity. Qed.

Lemma shape_warehouse_map : has_shape 6 10 warehouse_map.
Proof. split; [reflexivity|]. repeat constructor. Qed.

Lemma shape_critical_zones_ref : has_shape 6 10 critical_zones_ref.
Proof. split; [reflexivity|]. repeat constructor. Qed.

Lemma same_on_free_refl cm : same_on_free cm cm.
Proof. by intros x y _ _ _. Qed.

Lemma same_on_free_trans cm1 cm2 cm3 :
  same_on_free cm1 cm2 → same_on_free cm2 cm3 → same_on_free cm1 cm3.
Proof. intros H12 H23 x y Hx Hy Hfree. rewrite H23, H12; done. Qed.

Section evaluator_steps.
Variable P : R → Prop.
Variable critical_zone_weight : R.
Hypothesis P_gain : ∀ v d, P v → (0 < d)%R → P (v + d)%R.
Hypothesis P_bonus : ∀ v, P v → P (v + critical_zone_weight)%R.

Lemma reflect_target_inv rx ry decay cm :
  (0 < decay)%R → map_inv P cm →
  ∃ cm',
    (if bool_decide (0 <= rx < map_size.1) && bool_decide (0 <= ry < map_size.2)
     then
       c ← np_get warehouse_map rx ry;
       if bool_decide (c = 1)
       then np_alter (λ v, (v + decay / 2)%R) cm rx ry
       else Some cm
     else Some cm) = Some cm'
    ∧ map_inv P cm' ∧ same_on_free cm cm'.
Proof.
  intros Hd [Hsh HP]. rewrite map_size_eq. cbn [fst snd].
  destruct (bool_decide (0 <= rx < 6) && bool_decide (0 <= ry < 10)) eqn:Hb;
    [|exists cm; by auto using same_on_free_refl].
  apply andb_true_iff in Hb as [Hx%bool_decide_eq_true Hy%bool_decide_eq_true].
  destruct (np_get_inrange 6 10 warehouse_map rx ry) as [c Hc];
    [apply shape_warehouse_map|lia|lia|].
  rewrite Hc. simpl. case_bool_decide as Hwall;
    [|exists cm; by auto using same_on_free_refl].
  destruct (np_alter_inrange P (λ v, (v + decay / 2)%R) 6 10 cm rx ry)
    as (cm' & Hcm' & Hsh' & HP' & Hget); [done|done| |lia|lia|].
  { intros v Hv. apply P_gain; [done|lra]. }
  exists cm'. split; [done|]. split; [done|].
  intros x' y' Hx' Hy' Hfree. rewrite Hget by lia.
  rewrite bool_decide_eq_false_2; [done|].
  intros [-> ->]. rewrite Hc in Hfree. simplify_eq.
Qed.

Lemma reflect_inv x y nx ny decay cm :
  (0 < decay)%R → map_inv P cm →
  ∃ cm', reflect x y nx ny decay cm = Some cm'
         ∧ map_inv P cm' ∧ same_on_free cm cm'.
Proof.
  intros Hd Hcm. unfold reflect. cbn [for_loop].
  destruct (reflect_target_inv nx (2 * ny - y) decay cm Hd Hcm)
    as (cm1 & -> & Hcm1 & Hfree1). cbn [mbind option_bind].
  destruct (reflect_target_inv (2 * nx - x) ny decay cm1 Hd Hcm1)
    as (cm2 & -> & Hcm2 & Hfree2). cbn [mbind option_bind].
  exists cm2. eauto using same_on_free_trans.
Qed.

Lemma propagate_inv cz x y i j cm :
  has_shape 6 10 cz → map_inv P cm →
  ∃ cm', propagate cz critical_zone_weight x y i j cm = Some cm'
         ∧ map_inv P cm'.
Proof.
  intros Hcz Hcm. unfold propagate. rewrite map_size_eq. cbn [fst snd].
  destruct (bool_decide (0 <= x + i < 6) && bool_decide (0 <= y + j < 10))
    eqn:Hb; [|by exists cm].
  apply andb_true_iff in Hb as [Hx%bool_decide_eq_true Hy%bool_decide_eq_true].
  destruct (np_get_inrange 6 10 warehouse_map (x + i) (y + j)) as [c Hc];
    [apply shape_warehouse_map|lia|lia|].
  rewrite Hc. cbn [mbind option_bind].
  case_bool_decide as Hfree; [|by exists cm].
  destruct (Rlt_dec _ _) as [_|_]; [|by exists cm].
  set (decay := exp _).
  assert (0 < decay)%R as Hd by apply exp_pos.
  destruct Hcm as [Hsh HP].
  destruct (np_alter_inrange P (λ v, (v + decay)%R) 6 10 cm (x + i) (y + j))
    as (cm1 & -> & Hsh1 & HP1 & _); [done|done| |lia|lia|].
  { intros v Hv. by apply P_gain. }
  cbn [mbind option_bind].
  destruct (reflect_inv x y (x + i) (y + j) decay cm1 Hd (conj Hsh1 HP1))
    as (cm2 & -> & [Hsh2 HP2] & _). cbn [mbind option_bind].
  destruct (np_get_inrange 6 10 cz (x + i) (y + j)) as [z ->]; [done|lia|lia|].
  cbn [mbind option_bind].
  case_bool_decide; [|by exists cm2].
  destruct (np_alter_inrange P (λ v, (v + critical_zone_weight)%R) 6 10 cm2
              (x + i) (y + j))
    as (cm3 & -> & Hsh3 & HP3 & _); [done|done|done|lia|lia|].
  by exists cm3.
Qed.

Lemma coverage_map_inv antennas :
  P 0%R →
  ∃ cm, coverage_map antennas critical_zone_weight = Some cm ∧ map_inv P cm.
Proof.
  intros P0. unfold coverage_map. rewrite critical_zones_eq.
  cbn [mbind option_bind].
  apply for_loop_invariant.
  { split; [apply (has_shape_zeros 0%R 6 10)|by apply all_cells_zeros]. }
  intros [x y] cm _ Hcm.
  apply for_loop_invariant; [done|]. intros i cm1 _ Hcm1.
  apply for_loop_invariant; [done|]. intros j cm2 _ Hcm2.
  apply propagate_inv; [apply shape_critical_zones_ref|done].
Qed.
End evaluator_steps.

(** ** The score reads the FREE cells only *)

(** On a 6x10 array the boolean mask selects the cells of
    [valid_positions], in their order. *)
Lemma np_select_valid_mask (a : list (list R)) :
  has_shape 6 10 a → np_select a valid_mask = cell a <$> valid_positions.
Proof.
  intros [Hlen Hrows].
  do 6 (destruct a as [|? a]; [discriminate Hlen|]).
  destruct a; [clear Hlen|discriminate Hlen].
  repeat match goal with
         | H : Forall _ (_ :: _) |- _ =>
             apply Forall_cons_1 in H; destruct H as [? H]
         | H : Forall _ [] |- _ => clear H
         end.
  repeat match goal with
         | H : length ?l = 10%nat |- _ =>
             do 10 (destruct l as [|? l]; [discriminate H|]);
             destruct l; [clear H|discriminate H]
         end.
  reflexivity.
Qed.

Lemma np_sum_nonneg (v : list R) : Forall (λ r, 0 <= r)%R v → (0 <= np_sum v)%R.
Proof.
  induction 1 as [|r v Hr _ IH]; unfold np_sum in *; simpl; [lra|].
  lra.
Qed.

Lemma np_mean_nonneg (v : list R) : Forall (λ r, 0 <= r)%R v → (0 <= np_mean v)%R.
Proof.
  intros Hv. unfold np_mean, Rdiv.
  apply Rmult_le_pos; [by apply np_sum_nonneg|].
  destruct v as [|r v]; [simpl; rewrite Rinv_0; lra|].
  left. apply Rinv_0_lt_compat, lt_0_INR. simpl. lia.
Qed.

Lemma cell_all_cells (P : R → Prop) (a : list (list R)) (c : coord) :
  P 0%R → all_cells P a → P (cell a c).
Proof.
  intros P0 Ha. unfold cell.
  destruct (np_get a c.1 c.2) as [v|] eqn:Hget; [|done].
  simpl. by eapply np_get_all_cells.
Qed.

(** The cells of [valid_positions] are the FREE cells of the grid. *)
Lemma valid_positions_free (c : coord) :
  c ∈ valid_positions ↔
  0 <= c.1 < 6 ∧ 0 <= c.2 < 10 ∧ np_get warehouse_map c.1 c.2 = Some 0.
Proof.
  split.
  - revert c. apply Forall_forall.
    apply (bool_decide_unpack _). by vm_compute.
  - destruct c as [x y]. simpl. intros (Hx & Hy & Hfree).
    assert (Forall (λ x, Forall (λ y,
              np_get warehouse_map x y = Some 0 → (x, y) ∈ valid_positions)
              (seqZ 0 10)) (seqZ 0 6)) as Hall.
    { apply (bool_decide_unpack _). by vm_compute. }
    rewrite Forall_forall in Hall.
    specialize (Hall x). rewrite Forall_forall in Hall.
    apply Hall; [apply elem_of_seqZ; lia|apply elem_of_seqZ; lia|done].
Qed.

Lemma valid_set_free (c : coord) :
  c ∈ valid_set ↔
  0 <= c.1 < 6 ∧ 0 <= c.2 < 10 ∧ np_get warehouse_map c.1 c.2 = Some 0.
Proof. unfold valid_set. rewrite elem_of_list_to_set. apply valid_positions_free. Qed.

(** ** Reflections leave the score unchanged *)

Lemma all_cells_True {A} (a : list (list A)) : all_cells (λ _, True) a.
Proof. apply Forall_forall. intros row _. by apply Forall_forall. Qed.

Lemma np_alter_free_related (f : R → R) cm cmd x y :
  free_related cm cmd → 0 <= x < 6 → 0 <= y < 10 →
  np_get warehouse_map x y = Some 0 →
  ∃ cm' cmd', np_alter f cm x y = Some cm' ∧ np_alter f cmd x y = Some cmd'
              ∧ free_related cm' cmd'.
Proof.
  intros (Hsh & Hshd & Hsame) Hx Hy Hfree.
  destruct (np_alter_inrange (λ _, True) f 6 10 cm x y)
    as (cm' & Hcm' & Hsh' & _ & Hget); [done|apply all_cells_True|done|lia|lia|].
  destruct (np_alter_inrange (λ _, True) f 6 10 cmd x y)
    as (cmd' & Hcmd' & Hshd' & _ & Hgetd); [done|apply all_cells_True|done|lia|lia|].
  exists cm', cmd'. do 2 (split; [done|]). do 2 (split; [done|]).
  intros x' y' Hx' Hy' Hfree'.
  rewrite Hget, Hgetd by lia.
  case_bool_decide; [by rewrite Hsame|by apply Hsame].
Qed.

Lemma propagate_free_related cz czw x y i j cm cmd :
  has_shape 6 10 cz → free_related cm cmd →
  ∃ cm' cmd', propagate cz czw x y i j cm = Some cm'
              ∧ propagate_direct cz czw x y i j cmd = Some cmd'
              ∧ free_related cm' cmd'.
Proof.
  intros Hcz Hrel. unfold propagate, propagate_direct.
  rewrite map_size_eq. cbn [fst snd].
  destruct (bool_decide (0 <= x + i < 6) && bool_decide (0 <= y + j < 10))
    eqn:Hb; [|by exists cm, cmd].
  apply andb_true_iff in Hb as [Hx%bool_decide_eq_true Hy%bool_decide_eq_true].
  destruct (np_get_inrange 6 10 warehouse_map (x + i) (y + j)) as [c Hc];
    [apply shape_warehouse_map|lia|lia|].
  rewrite Hc. cbn [mbind option_bind].
  case_bool_decide as Hfree; [subst c|by exists cm, cmd].
  destruct (Rlt_dec _ _) as [_|_]; [|by exists cm, cmd].
  set (decay := exp _).
  assert (0 < decay)%R as Hd by apply exp_pos.
  destruct (np_alter_free_related (λ v, (v + decay)%R) cm cmd (x + i) (y + j))
    as (cm1 & cmd1 & -> & -> & Hsh1 & Hshd1 & Hsame1); [done|lia|lia|done|].
  cbn [mbind option_bind].
  destruct (reflect_inv (λ _, True) (λ _ _ _ _, I) x y (x + i) (y + j) decay cm1)
    as (cm2 & -> & [Hsh2 _] & Hsame2); [done|split; [done|apply all_cells_True]|].
  cbn [mbind option_bind].
  destruct (np_get_inrange 6 10 cz (x + i) (y + j)) as [z ->]; [done|lia|lia|].
  cbn [mbind option_bind].
  assert (free_related cm2 cmd1) as Hrel2.
  { do 2 (split; [done|]). intros x' y' Hx' Hy' Hfree'.
    rewrite Hsame1, Hsame2; done. }
  case_bool_decide; [|by exists cm2, cmd1].
  by apply np_alter_free_related.
Qed.

Lemma coverage_map_free_related antennas czw :
  ∃ cm cmd, coverage_map antennas czw = Some cm
            ∧ coverage_map_direct antennas czw = Some cmd
            ∧ free_related cm cmd.
Proof.
  unfold coverage_map, coverage_map_direct. rewrite critical_zones_eq.
  cbn [mbind option_bind].
  apply for_loop_lockstep.
  { do 2 (split; [apply (has_shape_zeros 0%R 6 10)|]). apply same_on_free_refl. }
  intros [x y] cm cmd _ Hrel.
  apply for_loop_lockstep; [done|]. intros i cm1 cmd1 _ Hrel1.
  apply for_loop_lockstep; [done|]. intros j cm2 cmd2 _ Hrel2.
  apply propagate_free_related; [apply shape_critical_zones_ref|done].
Qed.

Lemma coverage_score_free_related cm cmd :
  free_related cm cmd → coverage_score cmd = coverage_score cm.
Proof.
  intros (Hsh & Hshd & Hsame). unfold coverage_score.
  rewrite !np_select_valid_mask by done. f_equal.
  apply list_fmap_ext. intros k c Hc.
  apply list_elem_of_lookup_2, valid_positions_free in Hc as (Hx & Hy & Hfree).
  unfold cell. by rewrite Hsame.
Qed.

(** ** Repulsion *)

Lemma euclidean_sym (a b : coord) : euclidean a b = euclidean b a.
Proof. unfold euclidean. f_equal. ring. Qed.

Lemma euclidean_self (a : coord) : euclidean a a = 0%R.
Proof.
  unfold euclidean.
  replace ((IZR a.1 - IZR a.1) ^ 2 + (IZR a.2 - IZR a.2) ^ 2)%R with 0%R by ring.
  apply sqrt_0.
Qed.

Lemma repulsion_row (antennas : list coord) (i : nat) (a : coord) :
  exp_neg_div3 <$> <[i := DistInf]> ((λ b : coord, Dist (euclidean a b)) <$> antennas)
  = imap (λ j b, pair_term i j a b) antennas.
Proof.
  apply list_eq. intros j.
  rewrite list_lookup_fmap, list_lookup_insert, list_lookup_imap.
  rewrite length_fmap, list_lookup_fmap. unfold pair_term.
  destruct (antennas !! j) as [b|] eqn:Hb; simpl.
  - apply lookup_lt_Some in Hb.
    destruct (decide (i = j)) as [->|Hne].
    + rewrite decide_True by done. done.
    + rewrite decide_False by (intros [? _]; done). done.
  - apply lookup_ge_None in Hb.
    rewrite decide_False by (intros [-> ?]; lia). done.
Qed.

Lemma repulsion_score_ordered_pairs (antennas : list coord) :
  repulsion_score antennas = ordered_pairs_sum antennas.
Proof.
  unfold repulsion_score, ordered_pairs_sum, np_sum2, fill_diagonal, cdist.
  f_equal. rewrite !fmap_imap, imap_fmap.
  apply imap_ext. intros i a _. simpl. f_equal. apply repulsion_row.
Qed.

Lemma np_sum_imap_le {A} (h h' : nat → A → R) (l l' : list A) :
  length l' = length l →
  (∀ i a a', l !! i = Some a → l' !! i = Some a' → (h' i a' <= h i a)%R) →
  (np_sum (imap h' l') <= np_sum (imap h l))%R.
Proof.
  revert h h' l'. induction l as [|a l IH]; intros h h' [|a' l'] Hlen Hle;
    try discriminate Hlen; [unfold np_sum; simpl; lra|].
  rewrite !imap_cons. unfold np_sum in *. simpl.
  apply Rplus_le_compat.
  - by apply (Hle 0%nat).
  - apply IH; [simpl in Hlen; lia|]. intros i b b' Hb Hb'. by apply (Hle (S i)).
Qed.

Lemma exp_neg_div3_lt (d d' : R) : (d < d')%R → (exp (- d' / 3) < exp (- d / 3))%R.
Proof. intros Hd. apply exp_increasing. lra. Qed.

(** ** The repair loop *)

(** The loop rule with the list of the elements already visited. *)
Lemma for_loop_prefix_invariant {A S} (I : list A → S → Prop) (l : list A)
    (body : A → S → option S) (s : S) :
  I [] s →
  (∀ pre a suf s, l = pre ++ a :: suf → I pre s →
     ∃ s', body a s = Some s' ∧ I (pre ++ [a]) s') →
  ∃ s', for_loop l body s = Some s' ∧ I l s'.
Proof.
  intros Hs Hbody.
  enough (∀ pre suf s, l = pre ++ suf → I pre s →
            ∃ s', for_loop suf body s = Some s' ∧ I l s') as Hgen.
  { by apply (Hgen [] l s). }
  intros pre suf. revert pre. induction suf as [|a suf IH]; intros pre t Hl Ht.
  - exists t. rewrite app_nil_r in Hl. by subst.
  - simpl. destruct (Hbody pre a suf t Hl Ht) as (t' & -> & Ht'). simpl.
    apply (IH (pre ++ [a])); [by rewrite <- app_assoc|done].
Qed.

Lemma NoDup_py_range lo hi : NoDup (py_range lo hi).
Proof. apply NoDup_seqZ. Qed.

Lemma not_elem_of_prefix {A} (l pre suf : list A) (a : A) :
  NoDup l → l = pre ++ a :: suf → a ∉ pre.
Proof.
  intros Hnd ->. apply NoDup_app in Hnd as (_ & Hdisj & _).
  intros Ha. apply (Hdisj a Ha). by left.
Qed.

Lemma if_bool_decide_ext {A} (P Q : Prop) `{Decision P, Decision Q} (a b : A) :
  (P ↔ Q) →
  (if bool_decide P then a else b) = (if bool_decide Q then a else b).
Proof. intros HPQ. by rewrite (bool_decide_ext P Q HPQ). Qed.

Section repair_loop.
Variables N K : nat.
Variables old new : list (list coord).
Hypothesis shape_old : has_shape N K old.
Hypothesis shape_new : has_shape N K new.

Lemma repair_cell_progress rows i cols j np :
  0 <= i < Z.of_nat N → 0 <= j < Z.of_nat K → i ∉ rows → j ∉ cols →
  repair_progress N K old new rows i cols np →
  ∃ np', repair_cell old i j np = Some np'
         ∧ repair_progress N K old new rows i (cols ++ [j]) np'.
Proof.
  intros Hi Hj Hrow Hcol [Hsh Hcells]. unfold repair_cell.
  assert (np_get np i j = np_get new i j) as Hij.
  { rewrite Hcells by done. rewrite bool_decide_eq_false_2; [done|].
    intros [?|[_ ?]]; done. }
  destruct (np_get_inrange N K new i j) as [c Hc]; [done..|].
  rewrite Hij, Hc. cbn [mbind option_bind].
  assert (repaired_cell old new i j =
            if bool_decide (c ∈ valid_set) then Some c else np_get old i j)
    as Hrep.
  { unfold repaired_cell. by rewrite Hc. }
  destruct (decide (c ∈ valid_set)) as [Hvalid|Hvalid].
  2: { rewrite bool_decide_eq_true_2 by done.
    rewrite bool_decide_eq_false_2 in Hrep by done.
    destruct (np_get_inrange N K old i j) as [p Hp]; [done..|].
    rewrite Hp in Hrep |- *. cbn [mbind option_bind].
    destruct (np_alter_inrange (λ _, True) (λ _, p) N K np i j)
      as (np' & -> & Hsh' & _ & Hget);
      [done|apply all_cells_True|done|done|done|].
    exists np'. split; [done|]. split; [done|].
    intros x y Hx Hy. rewrite Hget by done.
    case_bool_decide as Hxy.
    + destruct Hxy as [-> ->]. rewrite Hij, Hc. simpl.
      rewrite bool_decide_eq_true_2; [by rewrite Hrep|].
      right. split; [done|]. apply elem_of_app. right. by apply list_elem_of_singleton.
    + rewrite Hcells by done. apply if_bool_decide_ext.
      rewrite elem_of_app, list_elem_of_singleton. clear -Hxy. tauto. }
  - rewrite bool_decide_eq_false_2 by (intros Hn; by apply Hn).
    rewrite bool_decide_eq_true_2 in Hrep by done.
    exists np. split; [done|]. split; [done|].
    intros x y Hx Hy. rewrite Hcells by done.
    destruct (decide (x = i ∧ y = j)) as [[-> ->]|Hne].
    + rewrite bool_decide_eq_false_2 by (intros [?|[_ ?]]; done).
      rewrite bool_decide_eq_true_2.
      * by rewrite Hrep.
      * right. split; [done|]. apply elem_of_app. right.
        by apply list_elem_of_singleton.
    + apply if_bool_decide_ext.
      rewrite elem_of_app, list_elem_of_singleton. clear -Hne. tauto.
Qed.

Lemma repair_row_progress rows i np :
  0 <= i < Z.of_nat N → i ∉ rows →
  repair_progress N K old new rows i [] np →
  ∃ np', for_loop (py_range 0 (Z.of_nat K)) (λ j, repair_cell old i j) np
           = Some np'
         ∧ repair_progress N K old new (rows ++ [i]) i [] np'.
Proof.
  intros Hi Hrow Hnp.
  destruct (for_loop_prefix_invariant (repair_progress N K old new rows i)
              (py_range 0 (Z.of_nat K)) (λ j, repair_cell old i j) np)
    as (np' & Hloop & Hsh' & Hcells'); [done| |].
  { intros pre j suf t Hl Ht. apply repair_cell_progress; try done.
    - assert (j ∈ py_range 0 (Z.of_nat K)) as Hj.
      { rewrite Hl. apply elem_of_app. right. by left. }
      apply elem_of_py_range in Hj. lia.
    - by eapply not_elem_of_prefix; [apply NoDup_py_range|]. }
  exists np'. split; [done|]. split; [done|].
  intros x y Hx Hy. rewrite Hcells' by done. apply if_bool_decide_ext.
  rewrite elem_of_app, list_elem_of_singleton, elem_of_py_range.
  split; [intros [?|[Hxi _]]; by auto|].
  intros [[?|Hxi]|[_ Hnil]]; [by auto|right; split; [done|lia]|].
  by apply elem_of_nil in Hnil.
Qed.

(** The repair does not raise and leaves [repaired_cell] in every cell. *)
Lemma repair_spec :
  ∃ np, repair N K old new = Some np ∧ has_shape N K np ∧
    ∀ x y, 0 <= x < Z.of_nat N → 0 <= y < Z.of_nat K →
      np_get np x y = repaired_cell old new x y.
Proof.
  unfold repair.
  destruct (for_loop_prefix_invariant (λ rows, repair_progress N K old new rows (-1) [])
              (py_range 0 (Z.of_nat N))
              (λ i, for_loop (py_range 0 (Z.of_nat K))
                      (λ j, repair_cell old i j)) new)
    as (np & Hloop & Hsh & Hcells).
  - split; [done|]. intros x y Hx Hy.
    rewrite bool_decide_eq_false_2; [done|].
    intros [Hnil|[-> _]]; [by apply elem_of_nil in Hnil|lia].
  - intros pre i suf t Hl [Hsht Ht].
    assert (0 <= i < Z.of_nat N) as Hi.
    { assert (i ∈ py_range 0 (Z.of_nat N)) as Hin.
      { rewrite Hl. apply elem_of_app. right. by left. }
      apply elem_of_py_range in Hin. lia. }
    assert (i ∉ pre) as Hpre
      by (by eapply not_elem_of_prefix; [apply NoDup_py_range|]).
    destruct (repair_row_progress pre i t Hi Hpre) as (t' & Ht' & Hsh' & Hc').
    { split; [done|]. intros x y Hx Hy. rewrite Ht by done.
      apply if_bool_decide_ext. split.
      - intros [?|[-> _]]; [by left|lia].
      - intros [?|[_ Hnil]]; [by left|by apply elem_of_nil in Hnil]. }
    exists t'. split; [done|]. split; [done|].
    intros x y Hx Hy. rewrite Hc' by done. apply if_bool_decide_ext. split.
    + intros [?|[_ Hnil]]; [by left|by apply elem_of_nil in Hnil].
    + intros [?|[-> _]]; [by left|lia].
  - exists np. split; [done|]. split; [done|].
    intros x y Hx Hy. rewrite Hcells by done.
    rewrite bool_decide_eq_true_2; [done|].
    left. apply elem_of_py_range. lia.
Qed.
End repair_loop.

(** ** The invariant of the main loop *)

Lemma inc_le_refl a : inc_le a a.
Proof. destruct a; simpl; [done|lra]. Qed.

Lemma inc_le_trans a b c : inc_le a b → inc_le b c → inc_le a c.
Proof. destruct a, b, c; simpl; try done. lra. Qed.

Lemma exceeds_inc_le m best : exceeds m best = true → inc_le best (Fitness m).
Proof.
  destruct best as [|g]; simpl; [done|].
  destruct (Rlt_dec g m); [lra|done].
Qed.

Lemma argmax_from_lt v : ∀ bi b i,
  (bi < i)%nat → (argmax_from bi b i v < i + length v)%nat.
Proof.
  induction v as [|x v IH]; intros bi b i Hbi; simpl; [lia|].
  destruct (Rlt_dec b x).
  - specialize (IH i x (S i)). lia.
  - specialize (IH bi b (S i)). lia.
Qed.

Lemma np_argmax_lt v k : np_argmax v = Some k → (k < length v)%nat.
Proof.
  destruct v as [|x v]; [done|]. simpl. intros [= <-].
  pose proof (argmax_from_lt v 0 x 1). lia.
Qed.

Lemma mapM_total {A B} (f : A → option B) (P : B → Prop) (l : list A) :
  Forall (λ x, ∃ y, f x = Some y ∧ P y) l →
  ∃ k, mapM f l = Some k ∧ length k = length l ∧ Forall P k.
Proof.
  induction 1 as [|x l (y & Hy & HPy) _ (k & Hk & Hlen & HPk)].
  - by exists [].
  - exists (y :: k). simpl. rewrite Hy. simpl. rewrite Hk. simpl.
    split; [done|]. split; [by rewrite Hlen|by constructor].
Qed.

Lemma has_shape_zip_with {A B C} (f : list A → list B → list C) h w a b :
  has_shape h w a → has_shape h w b →
  (∀ ra rb, length ra = w → length rb = w → length (f ra rb) = w) →
  has_shape h w (zip_with f a b).
Proof.
  intros [Ha Hra] [Hb Hrb] Hf. split.
  - rewrite length_zip_with. lia.
  - apply Forall_forall. intros row Hrow.
    apply elem_of_zip_with in Hrow as (ra & rb & -> & Hina & Hinb).
    rewrite Forall_forall in Hra. rewrite Forall_forall in Hrb. auto.
Qed.

Lemma np_get_lookup {A} (a : list (list A)) i j row c :
  a !! i = Some row → row !! j = Some c →
  np_get a (Z.of_nat i) (Z.of_nat j) = Some c.
Proof.
  intros Hrow Hc. unfold np_get.
  rewrite np_index_inrange by (apply lookup_lt_Some in Hrow; lia).
  simpl. rewrite Nat2Z.id, Hrow. simpl.
  rewrite np_index_inrange by (apply lookup_lt_Some in Hc; lia).
  simpl. by rewrite Nat2Z.id.
Qed.

Lemma all_cells_np_get {A} (P : A → Prop) h w (a : list (list A)) :
  has_shape h w a →
  (∀ x y c, 0 <= x < Z.of_nat h → 0 <= y < Z.of_nat w →
     np_get a x y = Some c → P c) →
  all_cells P a.
Proof.
  intros [Hlen Hrows] Hget.
  apply Forall_lookup. intros i row Hrow.
  apply Forall_lookup. intros j c Hc.
  apply (Hget (Z.of_nat i) (Z.of_nat j)).
  - apply lookup_lt_Some in Hrow. lia.
  - apply lookup_lt_Some in Hc.
    rewrite Forall_lookup in Hrows. specialize (Hrows i row Hrow). lia.
  - by eapply np_get_lookup.
Qed.

Lemma repaired_cell_valid old new x y c :
  all_cells (λ c, c ∈ valid_set) old →
  repaired_cell old new x y = Some c → c ∈ valid_set.
Proof.
  intros Hold. unfold repaired_cell.
  destruct (np_get new x y) as [n|]; [simpl|done].
  case_bool_decide as Hn; [by intros [= <-]|].
  intros Hget. by apply (np_get_all_cells _ _ _ _ _ Hold Hget).
Qed.

Lemma compute_coverage_total antennas rw czw :
  ∃ f, compute_coverage antennas rw czw = Some f.
Proof.
  unfold compute_coverage.
  destruct (coverage_map_inv (λ _, True) czw (λ _ _ _ _, I) (λ _ _, I) antennas I)
    as (cm & -> & _).
  by eexists.
Qed.

Lemma update_velocity_shape N K r1 r2 vel ps g :
  has_shape N K vel → has_shape N K ps → length g = K →
  has_shape N K (update_velocity r1 r2 vel ps g).
Proof.
  intros Hvel Hps Hg. apply has_shape_zip_with; [done..|].
  intros vrow prow Hv Hp. rewrite length_zip_with, length_zip.
  lia.
Qed.

Lemma round_positions_shape N K ps vel :
  has_shape N K ps → has_shape N K vel →
  has_shape N K (round_positions ps vel).
Proof.
  intros Hps Hvel. apply has_shape_zip_with; [done..|].
  intros prow vrow Hp Hv. rewrite length_zip_with. lia.
Qed.

Lemma update_best_spec N K t fitness s :
  swarm_inv N K t s → (1 <= N)%nat → length fitness = N →
  ∃ m g, np_max fitness = Some m
    ∧ update_best fitness s =
        Some (if exceeds m (best_fitness s) then Fitness m else best_fitness s,
              Some g)
    ∧ length g = K.
Proof.
  intros (Hps & _ & _ & Hnone & Hsome & _) HN Hlen. unfold update_best.
  destruct fitness as [|f0 fitness]; [simpl in Hlen; lia|].
  exists (foldl Rmax f0 fitness). cbn [np_max mbind option_bind].
  destruct (exceeds _ _) eqn:Hex.
  - destruct (np_argmax (f0 :: fitness)) as [k|] eqn:Hk; [|done].
    apply np_argmax_lt in Hk. cbn [mbind option_bind].
    destruct (lookup_lt_is_Some_2 (particles s) k) as [p Hp].
    { destruct Hps as [-> _]. lia. }
    exists p. rewrite Hp. split; [done|]. split; [done|].
    destruct Hps as [_ Hrows]. by apply (Forall_lookup_1 _ _ _ _ Hrows Hp).
  - destruct (global_best s) as [g|] eqn:Hg.
    + exists g. split; [done|]. split; [done|]. by apply Hsome.
    + rewrite Hnone in Hex by done. done.
Qed.

Lemma pso_step_spec N K t r1 r2 s :
  (1 <= N)%nat → swarm_inv N K t s →
  ∃ s', pso_step N K r1 r2 s = Some s' ∧ swarm_inv N K (S t) s'
        ∧ step_facts N K r1 r2 s s'.
Proof.
  intros HN Hinv. unfold pso_step.
  destruct (mapM_total
              (λ p, compute_coverage p default_repulsion_weight
                      default_critical_zone_weight) (λ _, True) (particles s))
    as (fitness & Hfit & Hlen & _).
  { apply Forall_forall. intros p _.
    destruct (compute_coverage_total p default_repulsion_weight
                default_critical_zone_weight) as [f Hf]. by exists f. }
  rewrite Hfit. cbn [mbind option_bind].
  destruct (update_best_spec N K t fitness s Hinv HN) as (m & g & Hm & Hbest & Hg).
  { rewrite Hlen. by destruct Hinv as ([-> _] & _). }
  rewrite Hbest. cbn [mbind option_bind].
  destruct Hinv as (Hps & Hvel & Hvalid & Hnone & Hsome & Ht & Hsorted & Hbound).
  set (best := if exceeds m (best_fitness s) then Fitness m else best_fitness s).
  assert (inc_le (best_fitness s) best) as Hle.
  { unfold best. destruct (exceeds m (best_fitness s)) eqn:Hex;
      [by apply exceeds_inc_le|apply inc_le_refl]. }
  set (vel := update_velocity r1 r2 (velocity s) (particles s) g).
  assert (has_shape N K vel) as Hvel' by by apply update_velocity_shape.
  assert (has_shape N K (round_positions (particles s) vel)) as Hnew
    by by apply round_positions_shape.
  destruct (repair_spec N K (particles s) (round_positions (particles s) vel)
              Hps Hnew) as (rep & -> & Hrep & Hcells).
  cbn [mbind option_bind]. eexists. split; [done|]. split.
  - unfold swarm_inv. cbn.
    split; [done|]. split; [done|]. split.
    { apply (all_cells_np_get _ N K); [done|]. intros x y c Hx Hy Hc.
      rewrite Hcells in Hc by done. by eapply repaired_cell_valid. }
    split; [done|]. split; [by intros ? [= <-]|].
    split; [rewrite length_app; simpl; lia|]. split.
    + apply StronglySorted_app_2; [|done|repeat constructor].
      intros a b Ha Hb. apply list_elem_of_singleton in Hb as ->.
      rewrite Forall_forall in Hbound. eapply inc_le_trans; [by apply Hbound|done].
    + apply Forall_app. split; [|repeat constructor; apply inc_le_refl].
      eapply Forall_impl; [exact Hbound|]. intros a Ha.
      eapply inc_le_trans; [exact Ha|exact Hle].
  - exists fitness, m, g. cbn. done.
Qed.

Lemma pso_loop_spec N K T rand s :
  (1 <= N)%nat → swarm_inv N K 0 s →
  ∃ s', pso_loop N K T rand s = Some s' ∧ swarm_inv N K T s'.
Proof.
  intros HN Hinv. unfold pso_loop.
  destruct (for_loop_prefix_invariant (λ pre s, swarm_inv N K (length pre) s)
              (seq 0 T)
              (λ t s, pso_step N K (rand t).1 (rand t).2 s) s)
    as (s' & Hloop & Hinv'); [done| |].
  - intros pre t suf u _ Hu.
    destruct (pso_step_spec N K (length pre) (rand t).1 (rand t).2 u HN Hu)
      as (u' & Hu' & Hinvu' & _).
    exists u'. split; [done|]. rewrite length_app. simpl.
    by rewrite Nat.add_1_r.
  - exists s'. split; [done|]. by rewrite length_seq in Hinv'.
Qed.

Lemma init_swarm_spec N K choice :
  has_shape N K choice →
  all_cells (λ k, k < length valid_positions)%nat choice →
  ∃ s, init_swarm choice = Some s ∧ swarm_inv N K 0 s
       ∧ global_best s = None ∧ best_fitness s = NegInf
       ∧ fitness_history s = [].
Proof.
  intros [Hlen Hrows] Hidx. unfold init_swarm, init_particles.
  destruct (mapM_total (mapM (λ k, valid_positions !! k))
              (λ row, length row = K ∧ Forall (λ c, c ∈ valid_set) row) choice)
    as (ps & -> & Hps & Hall).
  { apply Forall_forall. intros row Hrow.
    destruct (mapM_total (λ k, valid_positions !! k) (λ c, c ∈ valid_set) row)
      as (cs & Hcs & Hlencs & Hvalid).
    - unfold all_cells in Hidx.
      rewrite Forall_forall in Hidx. specialize (Hidx row Hrow).
      eapply Forall_impl; [exact Hidx|]. intros k Hk.
      destruct (lookup_lt_is_Some_2 valid_positions k Hk) as [c Hc].
      exists c. split; [done|]. unfold valid_set.
      apply elem_of_list_to_set. by eapply list_elem_of_lookup_2.
    - exists cs. split; [done|]. split; [|done].
      rewrite Forall_forall in Hrows. rewrite Hlencs. by apply Hrows. }
  cbn [mbind option_bind]. eexists. split; [done|].
  split; [|done].
  unfold swarm_inv. cbn.
  assert (has_shape N K ps) as Hshape.
  { split; [lia|]. eapply Forall_impl; [exact Hall|]. by intros row [? _]. }
  split; [done|]. split.
  { destruct Hshape as [Hl Hr]. split; [by rewrite length_fmap|].
    apply Forall_fmap. eapply Forall_impl; [exact Hr|].
    intros row Hrow. simpl. by rewrite length_fmap. }
  split. { eapply Forall_impl; [exact Hall|]. by intros row [_ ?]. }
  split; [done|]. split; [done|]. split; [done|].
  split; constructor.
Qed.

Lemma optimize_spec N K T choice rand :
  (1 <= N)%nat → has_shape N K choice →
  all_cells (λ k, k < length valid_positions)%nat choice →
  ∃ s, optimize N K T choice rand = Some s ∧ swarm_inv N K T s.
Proof.
  intros HN Hshape Hidx. unfold optimize.
  destruct (init_swarm_spec N K choice Hshape Hidx) as (s0 & -> & Hinv0 & _).
  cbn [mbind option_bind]. by apply pso_loop_spec.
Qed.

(** ** The maps of a concrete placement *)

Lemma for_loop_ext {A S} (l : list A) (body1 body2 : A → S → option S) s :
  (∀ a s, a ∈ l → body1 a s = body2 a s) →
  for_loop l body1 s = for_loop l body2 s.
Proof.
  revert s. induction l as [|a l IH]; intros s Hext; simpl; [done|].
  rewrite Hext by by left. destruct (body2 a s) as [s'|]; simpl; [|done].
  apply IH. intros b t Hb. apply Hext. by right.
Qed.

Lemma window_distance (i j : Z) :
  -4 <= i < 5 → -4 <= j < 5 → (sqrt (IZR (i ^ 2 + j ^ 2)) < 8)%R.
Proof.
  intros Hi Hj.
  replace 8%R with (sqrt (IZR 64)).
  - apply sqrt_lt_1_alt. split; [apply IZR_le; nia|apply IZR_lt; nia].
  - replace (IZR 64) with (8 * 8)%R by lra. apply sqrt_square. lra.
Qed.

Lemma propagate_window_eq cz czw x y i j cm :
  -4 <= i < 5 → -4 <= j < 5 →
  propagate cz czw x y i j cm = propagate_window cz czw x y i j cm.
Proof.
  intros Hi Hj. unfold propagate, propagate_window. cbv zeta.
  destruct (Rlt_dec _ _) as [_|Hge]; [done|].
  destruct Hge. by apply window_distance.
Qed.

Lemma coverage_map_window_eq antennas czw :
  coverage_map antennas czw = coverage_map_window antennas czw.
Proof.
  unfold coverage_map, coverage_map_window. rewrite critical_zones_eq.
  cbn [mbind option_bind].
  apply for_loop_ext. intros [x y] cm _.
  apply for_loop_ext. intros i cm1 Hi%elem_of_py_range.
  apply for_loop_ext. intros j cm2 Hj%elem_of_py_range.
  by apply propagate_window_eq.
Qed.

(** ** The velocity update *)

(** What a pass that does not raise has done. *)
Lemma pso_step_history N K r1 r2 s s' :
  pso_step N K r1 r2 s = Some s' →
  ∃ fitness m g,
    mapM (λ p, compute_coverage p default_repulsion_weight
                 default_critical_zone_weight) (particles s) = Some fitness
    ∧ np_max fitness = Some m
    ∧ best_fitness s' =
        (if exceeds m (best_fitness s) then Fitness m else best_fitness s)
    ∧ fitness_history s' = fitness_history s ++ [best_fitness s']
    ∧ global_best s' = Some g
    ∧ velocity s' = update_velocity r1 r2 (velocity s) (particles s) g.
Proof.
  unfold pso_step. intros Hstep.
  destruct (mapM _ (particles s)) as [fitness|]; [|done].
  cbn [mbind option_bind] in Hstep. exists fitness.
  unfold update_best in Hstep.
  destruct (np_max fitness) as [m|]; [|done].
  cbn [mbind option_bind] in Hstep. exists m.
  destruct (exceeds m (best_fitness s)).
  - destruct (np_argmax fitness) as [k|]; [|done].
    cbn [mbind option_bind] in Hstep.
    destruct (particles s !! k) as [p|]; [|done].
    cbn [mbind option_bind] in Hstep.
    destruct (repair _ _ _ _); [|done]. exists p. by injection Hstep as <-.
  - cbn [mbind option_bind] in Hstep.
    destruct (global_best s) as [g|]; [|done].
    cbn [mbind option_bind] in Hstep.
    destruct (repair _ _ _ _); [|done]. exists g. by injection Hstep as <-.
Qed.

Lemma velocity_component_opposite r1 r2 v p g :
  (velocity_component r1 r2 v p g - w * v
   = - (spec_velocity_component r1 r2 v p g - w * v))%R.
Proof.
  unfold velocity_component, spec_velocity_component.
  rewrite !minus_IZR. ring.
Qed.

(** C1. The velocity update of line 183 subtracts the Global Best from the
    position, so both terms push the particle away from the Global Best:
    for a particle at rest at (1,1), the Global Best at (3,3) and the draws
    r1 = r2 = 1/2 the new velocity is (-3,-3), where the rule of the
    specification gives (3,3).  Every pass applies this update, with the
    Global Best of that pass, and for every input the pull of the code is
    the opposite of the pull of the specification. *)
Theorem velocity_update_points_away_from_global_best :
  update_velocity (1 / 2) (1 / 2) [[(0, 0)%R]] [[(1, 1)]] [(3, 3)]
    = [[(-3, -3)%R]]
  ∧ spec_velocity_component (1 / 2) (1 / 2) 0 1 3 = 3%R
  ∧ velocity_component (1 / 2) (1 / 2) 0 1 3 = (-3)%R
  ∧ (∀ r1 r2 v p g,
       (velocity_component r1 r2 v p g - w * v
        = - (spec_velocity_component r1 r2 v p g - w * v))%R)
  ∧ (∀ N K r1 r2 s s', pso_step N K r1 r2 s = Some s' →
       ∃ g, global_best s' = Some g
            ∧ velocity s'
              = update_velocity r1 r2 (velocity s) (particles s) g).
Proof.
  assert (velocity_component (1 / 2) (1 / 2) 0 1 3 = (-3)%R) as Hcode.
  { unfold velocity_component, w, c1, c2.
    change (1 - 3) with (-2). lra. }
  split; [|split; [|split; [done|split]]].
  - cbn [update_velocity zip_with zip]. by rewrite Hcode.
  - unfold spec_velocity_component, w, c1, c2.
    change (3 - 1) with 2. lra.
  - apply velocity_component_opposite.
  - intros N K r1 r2 s s' Hstep.
    destruct (pso_step_history N K r1 r2 s s' Hstep)
      as (fitness & m & g & _ & _ & _ & _ & Hg & Hvel).
    by exists g.
Qed.

(** ** The map of the heatmap and the map of the evaluator *)

(** C2. On the placement [(1,1)] the map of [plot_coverage_heatmap] and the
    map of the evaluator differ: at the FREE cell (1,3), at distance 2, the
    heatmap holds exp(-2/2) and the evaluator exp(-2/0.46); at the critical
    cell (1,2) the evaluator adds the critical-zone bonus and the heatmap
    does not. *)
Theorem heatmap_differs_from_evaluator_map :
  ∃ hm cm,
    plot_coverage_heatmap warehouse_map [(1, 1)] = Some hm
    ∧ coverage_map [(1, 1)] default_critical_zone_weight = Some cm
    ∧ cell hm (1, 3) = exp (- sqrt 4 / 2)
    ∧ cell cm (1, 3) = exp (- sqrt 4 / signalrange)
    ∧ cell hm (1, 3) ≠ cell cm (1, 3)
    ∧ cell hm (1, 2) = exp (- sqrt 1 / 2)
    ∧ cell cm (1, 2)
      = (exp (- sqrt 1 / signalrange) + default_critical_zone_weight)%R.
Proof.
  eexists. eexists.
  split; [eval_map; reflexivity|].
  split; [rewrite coverage_map_window_eq; eval_map; reflexivity|].
  assert (0 < sqrt 4)%R as Hpos by (apply sqrt_lt_R0; lra).
  split; [unfold cell; eval_map; lra|].
  split; [unfold cell; eval_map; lra|].
  split.
  - unfold cell. eval_map. intros Heq.
    assert (- sqrt 4 / 2 = - sqrt 4 / signalrange)%R as Hexp.
    { apply exp_inv. lra. }
    unfold signalrange in Hexp. lra.
  - split; unfold cell; eval_map; lra.
Qed.

(** ** Input validation *)

(** C3, as stated, fails: a placement on the wall cell (0,0), and one
    outside the grid, is not rejected; the evaluator returns a fitness. *)
Lemma evaluator_accepts_invalid_placement :
  ((0, 0) ∉ valid_set)
  ∧ ¬ (0 <= -3 < map_size.1 ∧ 0 <= 12 < map_size.2)
  ∧ compute_coverage [(0, 0)] default_repulsion_weight
      default_critical_zone_weight ≠ None
  ∧ compute_coverage [(-3, 12)] default_repulsion_weight
      default_critical_zone_weight ≠ None.
Proof.
  split; [by vm_compute|]. split; [rewrite map_size_eq; simpl; lia|].
  split.
  - destruct (compute_coverage_total [(0, 0)] default_repulsion_weight
                default_critical_zone_weight) as [f ->]. done.
  - destruct (compute_coverage_total [(-3, 12)] default_repulsion_weight
                default_critical_zone_weight) as [f ->]. done.
Qed.

(** C3, amended, for an invalid placement and for K, N or T equal to zero.
    The evaluator returns a fitness for every placement, whatever its
    coordinates.  With no iteration the optimizer ends without raising and
    leaves the initial swarm, with no Global Best and an empty history; the
    script then raises at the first plot.  With no emitter the optimizer
    runs all its passes.  With no particle the empty swarm is built and
    the first pass raises, when the maximum of the empty fitness vector is
    taken. *)
Theorem no_input_validation :
  (∀ antennas rw czw, ∃ f, compute_coverage antennas rw czw = Some f)
  ∧ (∀ N K choice rand, has_shape N K choice →
       all_cells (λ k, k < length valid_positions)%nat choice →
       ∃ s, optimize N K 0 choice rand = Some s
         ∧ has_shape N K (particles s)
         ∧ global_best s = None ∧ best_fitness s = NegInf
         ∧ fitness_history s = [] ∧ report s = None)
  ∧ (∀ N T choice rand, (1 <= N)%nat → has_shape N 0 choice →
       ∃ s, optimize N 0 T choice rand = Some s
         ∧ has_shape N 0 (particles s))
  ∧ (∀ K T rand,
       init_swarm [] = Some {| particles := []; velocity := [];
                               global_best := None; best_fitness := NegInf;
                               fitness_history := [] |}
       ∧ (∀ s, update_best [] s = None)
       ∧ optimize 0 K (S T) [] rand = None).
Proof.
  split; [apply compute_coverage_total|]. split; [|split].
  - intros N K choice rand Hshape Hidx.
    destruct (init_swarm_spec N K choice Hshape Hidx)
      as (s & Hs & (Hps & _) & Hg & Hb & Hh).
    exists s. unfold optimize, pso_loop. rewrite Hs.
    split; [done|]. do 4 (split; [done|]).
    unfold report. by rewrite Hg.
  - intros N T choice rand HN Hshape.
    destruct (optimize_spec N 0 T choice rand HN Hshape) as (s & Hs & Hps & _).
    + destruct Hshape as [_ Hrows].
      eapply Forall_impl; [exact Hrows|].
      intros row Hrow. apply nil_length_inv in Hrow as ->. constructor.
    + by exists s.
  - intros K T rand. done.
Qed.

(** ** The fitness *)

(** C6. The fitness is the coverage score minus [repulsion_weight] times
    the repulsion score; the repulsion score is the sum over the ordered
    pairs of distinct indices of exp(-distance/3); for two emitters on the
    same cell it is 2 and the penalty is [repulsion_weight * 2]. *)
Theorem fitness_is_coverage_minus_repulsion antennas rw czw :
  (∃ cm, coverage_map antennas czw = Some cm
     ∧ compute_coverage antennas rw czw
       = Some (coverage_score cm - rw * repulsion_score antennas)%R)
  ∧ repulsion_score antennas = ordered_pairs_sum antennas
  ∧ ∀ c, repulsion_score [c; c] = 2%R
         ∧ ∃ cm, coverage_map [c; c] czw = Some cm
             ∧ compute_coverage [c; c] rw czw
               = Some (coverage_score cm - rw * 2)%R.
Proof.
  assert (∀ c, repulsion_score [c; c] = 2%R) as Htwo.
  { intros c. rewrite repulsion_score_ordered_pairs.
    unfold ordered_pairs_sum, np_sum, pair_term. simpl.
    rewrite euclidean_self.
    replace (- 0 / 3)%R with 0%R by lra. rewrite exp_0. lra. }
  assert (∀ p, ∃ cm, coverage_map p czw = Some cm
            ∧ compute_coverage p rw czw
              = Some (coverage_score cm - rw * repulsion_score p)%R) as Hfit.
  { intros p.
    destruct (coverage_map_inv (λ _, True) czw (λ _ _ _ _, I) (λ _ _, I) p I)
      as (cm & Hcm & _).
    exists cm. split; [done|]. unfold compute_coverage. by rewrite Hcm. }
  split; [apply Hfit|]. split; [apply repulsion_score_ordered_pairs|].
  intros c. split; [apply Htwo|].
  destruct (Hfit [c; c]) as (cm & Hcm & Hval).
  exists cm. split; [done|]. by rewrite Hval, Htwo.
Qed.

(** C7. The coverage score is the mean of the coverage map over the FREE
    cells, the cells of [valid_positions]; the deposits of the reflections
    go to wall cells, as at (5,2) for the placement [(1,1)], and leave the
    score, hence the fitness, as it is without them. *)
Theorem coverage_score_reads_free_cells_only antennas rw czw :
  (∃ cm cmd,
     coverage_map antennas czw = Some cm
     ∧ coverage_map_direct antennas czw = Some cmd
     ∧ coverage_score cm
       = (np_sum (cell cm <$> valid_positions)
          / INR (length valid_positions))%R
     ∧ coverage_score cm = coverage_score cmd
     ∧ compute_coverage antennas rw czw
       = Some (coverage_score cmd - rw * repulsion_score antennas)%R)
  ∧ (∀ c, c ∈ valid_positions ↔
          0 <= c.1 < 6 ∧ 0 <= c.2 < 10
          ∧ np_get warehouse_map c.1 c.2 = Some 0)
  ∧ (∃ cm, coverage_map [(1, 1)] czw = Some cm
       ∧ np_get warehouse_map 5 2 = Some 1
       ∧ cell cm (5, 2) = (exp (- sqrt 5 / signalrange) / 2)%R).
Proof.
  split; [|split; [apply valid_positions_free|]].
  - destruct (coverage_map_free_related antennas czw)
      as (cm & cmd & Hcm & Hcmd & Hrel).
    exists cm, cmd. split; [done|]. split; [done|].
    pose proof (coverage_score_free_related cm cmd Hrel) as Hscore.
    split; [|split; [done|]].
    + unfold coverage_score, np_mean.
      rewrite np_select_valid_mask by apply Hrel. by rewrite length_fmap.
    + unfold compute_coverage. rewrite Hcm. simpl. by rewrite Hscore.
  - eexists. split; [rewrite coverage_map_window_eq; eval_map; reflexivity|].
    split; [reflexivity|]. unfold cell. eval_map. lra.
Qed.

(** C8. With a non-negative critical-zone weight the coverage score of
    every placement is non-negative: every cell of the map is, and the
    FREE set over which the mean is taken is not empty. *)
Theorem coverage_score_nonneg antennas czw :
  (0 <= czw)%R →
  ∃ cm, coverage_map antennas czw = Some cm
        ∧ all_cells (λ v, 0 <= v)%R cm
        ∧ valid_positions ≠ []
        ∧ (0 <= coverage_score cm)%R.
Proof.
  intros Hczw.
  destruct (coverage_map_inv (λ v, 0 <= v)%R czw) with (antennas := antennas)
    as (cm & Hcm & Hsh & Hpos).
  { intros v d Hv Hd. lra. }
  { intros v Hv. lra. }
  { lra. }
  exists cm. split; [done|]. split; [done|]. split; [done|].
  unfold coverage_score. rewrite np_select_valid_mask by done.
  apply np_mean_nonneg, Forall_fmap, Forall_forall. intros c _. simpl.
  apply (cell_all_cells (λ v, 0 <= v)%R); [lra|done].
Qed.

Lemma coverage_score_nonneg_witness :
  ∃ cm, coverage_map [(1, 1)] default_critical_zone_weight = Some cm
        ∧ all_cells (λ v, 0 <= v)%R cm
        ∧ valid_positions ≠ []
        ∧ (0 <= coverage_score cm)%R.
Proof.
  apply (coverage_score_nonneg [(1, 1)] default_critical_zone_weight).
  unfold default_critical_zone_weight. lra.
Defined.

Lemma np_sum_imap_gap {A} (h h' : nat → A → R) (l l' : list A) (δ : R) :
  length l' = length l →
  (∀ i a a', l !! i = Some a → l' !! i = Some a' → (h' i a' <= h i a)%R) →
  (∃ i a a', l !! i = Some a ∧ l' !! i = Some a' ∧ (h' i a' + δ <= h i a)%R) →
  (np_sum (imap h' l') + δ <= np_sum (imap h l))%R.
Proof.
  revert h h' l'. induction l as [|a l IH]; intros h h' [|a' l'] Hlen Hle Hgap;
    try discriminate Hlen.
  { destruct Hgap as (i & b & b' & Hb & _). by destruct i. }
  rewrite !imap_cons.
  destruct Hgap as ([|i] & b & b' & Hb & Hb' & Hgap); simpl in Hb, Hb'.
  - simplify_eq.
    assert (np_sum (imap (h' ∘ S) l') <= np_sum (imap (h ∘ S) l))%R as Hrest.
    { apply np_sum_imap_le; [simpl in Hlen; lia|].
      intros i c c' Hc Hc'. by apply (Hle (S i)). }
    unfold np_sum in *. simpl. lra.
  - assert (np_sum (imap (h' ∘ S) l') + δ <= np_sum (imap (h ∘ S) l))%R as Hrest.
    { apply IH; [simpl in Hlen; lia| |by exists i, b, b'].
      intros j c c' Hc Hc'. by apply (Hle (S j)). }
    assert (h' 0%nat a' <= h 0%nat a)%R as Hhead by by apply (Hle 0%nat).
    unfold np_sum in *. simpl. lra.
Qed.

Lemma euclidean_sqr (a b : coord) :
  (euclidean a b * euclidean a b
   = IZR ((a.1 - b.1) * (a.1 - b.1) + (a.2 - b.2) * (a.2 - b.2)))%R.
Proof.
  unfold euclidean. rewrite sqrt_sqrt.
  - rewrite plus_IZR, !mult_IZR, !minus_IZR. ring.
  - apply Rplus_le_le_0_compat; apply pow2_ge_0.
Qed.

Lemma exp_4_le : (exp 4 <= 81)%R.
Proof.
  replace 4%R with (1 + 1 + 1 + 1)%R by lra. rewrite !exp_plus.
  pose proof exp_le_3 as H3. pose proof (exp_pos 1) as H0.
  assert (exp 1 * exp 1 <= 9)%R by nra.
  assert (0 < exp 1 * exp 1)%R by nra.
  assert (exp 1 * exp 1 * exp 1 <= 27)%R by nra.
  assert (0 < exp 1 * exp 1 * exp 1)%R by nra.
  nra.
Qed.

(** On the grid two squared distances differ by at least 1 and a distance
    is at most the square root of 106: a term of the repulsion score that
    shrinks, shrinks by at least 1/5103. *)
Lemma grid_distance_gap (c c' b : coord) :
  on_grid 6 10 c' → on_grid 6 10 b →
  (euclidean c b < euclidean c' b)%R →
  (exp (- euclidean c' b / 3) + 1 / 5103 <= exp (- euclidean c b / 3))%R.
Proof.
  intros [Hc1 Hc2] [Hb1 Hb2] Hlt.
  assert (0 <= euclidean c b)%R as Hd by apply sqrt_pos.
  assert (0 <= euclidean c' b)%R as Hd' by apply sqrt_pos.
  pose proof (euclidean_sqr c b) as Hsq.
  pose proof (euclidean_sqr c' b) as Hsq'.
  set (d := euclidean c b) in *. set (d' := euclidean c' b) in *.
  set (n := (c.1 - b.1) * (c.1 - b.1) + (c.2 - b.2) * (c.2 - b.2)) in *.
  set (n' := (c'.1 - b.1) * (c'.1 - b.1) + (c'.2 - b.2) * (c'.2 - b.2)) in *.
  assert (n' <= 106) as Hn' by (unfold n'; simpl in *; nia).
  assert (n + 1 <= n') as Hn.
  { assert (n < n'); [|lia]. apply lt_IZR. rewrite <- Hsq, <- Hsq'. nra. }
  apply IZR_le in Hn', Hn. rewrite plus_IZR in Hn.
  assert (d' <= 21 / 2)%R as Hmax by nra.
  assert (1 / 21 <= d' - d)%R as Hgap by nra.
  replace (- d / 3)%R with (- d' / 3 + (d' - d) / 3)%R by lra.
  rewrite exp_plus.
  assert (1 + (d' - d) / 3 < exp ((d' - d) / 3))%R as Hexp
    by (apply exp_ineq1; lra).
  assert (1 / 81 <= exp (- d' / 3))%R as Hlow.
  { assert (1 <= exp (- d' / 3) * exp 4)%R as Hone.
    { rewrite <- exp_plus, <- exp_0.
      destruct (Req_dec (- d' / 3 + 4) 0) as [->|Hne]; [lra|].
      left. apply exp_increasing. lra. }
    pose proof exp_4_le. pose proof (exp_pos (- d' / 3)). nra. }
  pose proof (exp_pos (- d' / 3)). nra.
Qed.

(** C9. For emitters on the grid, moving one emitter strictly farther from
    every other emitter, of which there is at least one, strictly decreases
    the repulsion score, by at least 1/5103. *)
Theorem repulsion_strictly_decreases (antennas : list coord) (k : nat)
    (c c' : coord) :
  Forall (on_grid 6 10) antennas → on_grid 6 10 c' →
  antennas !! k = Some c →
  (∃ j b, j ≠ k ∧ antennas !! j = Some b) →
  (∀ j b, j ≠ k → antennas !! j = Some b →
     (euclidean c b < euclidean c' b)%R) →
  (repulsion_score (<[k := c']> antennas) < repulsion_score antennas)%R
  ∧ (repulsion_score (<[k := c']> antennas) + 1 / 5103
     <= repulsion_score antennas)%R.
Proof.
  intros Hgrid Hc' Hk (j0 & b0 & Hj0 & Hb0) Hfar.
  enough (repulsion_score (<[k := c']> antennas) + 1 / 5103
          <= repulsion_score antennas)%R by (split; lra).
  rewrite !repulsion_score_ordered_pairs. unfold ordered_pairs_sum.
  assert (k < length antennas)%nat as Hklen by by eapply lookup_lt_Some.
  (* the emitter at an index, before and after the move *)
  assert (∀ i a a', antennas !! i = Some a →
            <[k := c']> antennas !! i = Some a' →
            (i = k ∧ a = c ∧ a' = c') ∨ (i ≠ k ∧ a' = a)) as Hcases.
  { intros i a a' Ha Ha'. destruct (decide (i = k)) as [->|Hne].
    - rewrite list_lookup_insert_eq in Ha' by done. left. by simplify_eq.
    - rewrite list_lookup_insert_ne in Ha' by done. right. by simplify_eq. }
  (* a term never grows, and it shrinks when exactly one index is [k] *)
  assert (∀ i j a a' b b',
            antennas !! i = Some a → <[k := c']> antennas !! i = Some a' →
            antennas !! j = Some b → <[k := c']> antennas !! j = Some b' →
            (pair_term i j a' b' <= pair_term i j a b)%R
            ∧ (i = k → j ≠ k →
               (pair_term i j a' b' + 1 / 5103 <= pair_term i j a b)%R))
    as Hterm.
  { intros i j a a' b b' Ha Ha' Hb Hb'. unfold pair_term.
    destruct (decide (i = j)) as [->|Hij]; [split; [lra|done]|].
    destruct (Hcases i a a' Ha Ha') as [(-> & -> & ->)|[Hik ->]];
      destruct (Hcases j b b' Hb Hb') as [(-> & -> & ->)|[Hjk ->]].
    - done.
    - assert (euclidean c b < euclidean c' b)%R as Hlt by by eapply Hfar.
      pose proof (grid_distance_gap c c' b Hc'
                    (Forall_lookup_1 _ _ _ _ Hgrid Hb) Hlt).
      split; [lra|done].
    - assert (euclidean c a < euclidean c' a)%R as Hlt by by eapply Hfar.
      rewrite (euclidean_sym a c), (euclidean_sym a c').
      apply exp_neg_div3_lt in Hlt. split; [lra|done].
    - split; [lra|done]. }
  apply np_sum_imap_gap.
  - apply length_insert.
  - intros i a a' Ha Ha'. apply np_sum_imap_le; [apply length_insert|].
    intros j b b' Hb Hb'. by apply Hterm.
  - exists k, c, c'. split; [done|].
    split; [by apply list_lookup_insert_eq|].
    apply np_sum_imap_gap; [apply length_insert| |].
    + intros j b b' Hb Hb'. apply Hterm; try done.
      by apply list_lookup_insert_eq.
    + exists j0, b0, b0. split; [done|].
      split; [by rewrite list_lookup_insert_ne|].
      apply (Hterm k j0 c c' b0 b0); try done.
      * by apply list_lookup_insert_eq.
      * by rewrite list_lookup_insert_ne.
Qed.

Lemma repulsion_strictly_decreases_witness :
  Rlt (repulsion_score (<[0%nat := (3, 1)]> [(1, 1); (1, 2)]))
      (repulsion_score [(1, 1); (1, 2)])
  ∧ Rle (repulsion_score (<[0%nat := (3, 1)]> [(1, 1); (1, 2)]) + 1 / 5103)
        (repulsion_score [(1, 1); (1, 2)]).
Proof.
  apply (repulsion_strictly_decreases [(1, 1); (1, 2)] 0 (1, 1) (3, 1)).
  - repeat constructor; simpl; lia.
  - split; simpl; lia.
  - reflexivity.
  - exists 1%nat, (1, 2). split; [lia|reflexivity].
  - intros [|[|j]] b Hj Hb; [done| |done].
    injection Hb as <-. unfold euclidean. simpl.
    apply sqrt_lt_1_alt. lra.
Defined.

(** C10. On the reference grid the critical-zone derivation marks the
    eight cells (1,2), (1,6), (1,7), (2,1), (2,3), (2,5), (2,8), (3,4) and
    no other; each is a FREE cell and none lies on the border. *)
Theorem critical_zones_of_reference_grid :
  ∃ cz, critical_zones = Some cz
    ∧ shape cz = (6, 10)
    ∧ np_argwhere (λ v, bool_decide (v ≠ 0)) cz = critical_cells
    ∧ Forall (λ c, c ∈ valid_set) critical_cells
    ∧ Forall (λ c, 0 < c.1 < map_size.1 - 1 ∧ 0 < c.2 < map_size.2 - 1)
        critical_cells.
Proof.
  exists critical_zones_ref. split; [apply critical_zones_eq|].
  split; [reflexivity|]. split; [reflexivity|].
  split; apply (bool_decide_unpack _); by vm_compute.
Qed.

(** ** The optimizer *)

(** What a pass that does not raise has done: it has a Global Best, has
    updated the velocity with it, and has committed what the repair makes
    of the rounded candidates. *)
Lemma pso_step_commits N K r1 r2 s s' :
  pso_step N K r1 r2 s = Some s' →
  ∃ g, global_best s' = Some g
    ∧ velocity s' = update_velocity r1 r2 (velocity s) (particles s) g
    ∧ repair N K (particles s) (round_positions (particles s) (velocity s'))
      = Some (particles s').
Proof.
  unfold pso_step. intros Hstep.
  destruct (mapM _ (particles s)) as [fitness|]; [|done].
  cbn [mbind option_bind] in Hstep.
  destruct (update_best fitness s) as [[best [g|]]|]; [|done..].
  cbn [mbind option_bind] in Hstep.
  destruct (repair N K (particles s) _) as [rep|] eqn:Hrep; [|done].
  injection Hstep as <-. exists g.
  cbn [particles velocity global_best]. by rewrite Hrep.
Qed.

(** C4. The swarm is drawn from [valid_positions], so the initial swarm
    satisfies the invariant of the loop, of which a part is that every
    emitter coordinate of every particle is a member of [valid_set].  A
    pass from a state that satisfies the invariant does not raise, commits
    what the repair makes of the rounded candidates, and ends in a state
    that satisfies the invariant; the repair leaves in each cell the
    rounded candidate when it is a FREE cell and the coordinate before the
    update otherwise.  So after the T passes, whatever T is, every emitter
    coordinate of every particle is a member of [valid_set]. *)
Theorem repair_keeps_particles_valid N K T choice rand :
  (1 <= N)%nat → has_shape N K choice →
  all_cells (λ k, k < length valid_positions)%nat choice →
  (∃ s, optimize N K T choice rand = Some s
     ∧ has_shape N K (particles s)
     ∧ all_cells (λ c, c ∈ valid_set) (particles s))
  ∧ (∃ s0, init_swarm choice = Some s0 ∧ swarm_inv N K 0 s0)
  ∧ (∀ t r1 r2 s, swarm_inv N K t s →
       ∃ s' g, pso_step N K r1 r2 s = Some s'
         ∧ swarm_inv N K (S t) s'
         ∧ global_best s' = Some g
         ∧ velocity s' = update_velocity r1 r2 (velocity s) (particles s) g
         ∧ repair N K (particles s)
             (round_positions (particles s) (velocity s'))
           = Some (particles s'))
  ∧ (∀ t s, swarm_inv N K t s →
       has_shape N K (particles s)
       ∧ all_cells (λ c, c ∈ valid_set) (particles s))
  ∧ (∀ old new, has_shape N K old → has_shape N K new →
       ∃ np, repair N K old new = Some np ∧ has_shape N K np
         ∧ ∀ x y, 0 <= x < Z.of_nat N → 0 <= y < Z.of_nat K →
             np_get np x y = repaired_cell old new x y)
  ∧ (∀ c, c ∈ valid_set ↔
          0 <= c.1 < 6 ∧ 0 <= c.2 < 10
          ∧ np_get warehouse_map c.1 c.2 = Some 0).
Proof.
  intros HN Hshape Hidx. split; [|split; [|split; [|split; [|split]]]].
  - destruct (optimize_spec N K T choice rand HN Hshape Hidx)
      as (s & Hs & Hps & _ & Hvalid & _).
    by exists s.
  - destruct (init_swarm_spec N K choice Hshape Hidx) as (s0 & Hs0 & Hinv & _).
    by exists s0.
  - intros t r1 r2 s Hinv.
    destruct (pso_step_spec N K t r1 r2 s HN Hinv) as (s' & Hstep & Hinv' & _).
    destruct (pso_step_commits N K r1 r2 s s' Hstep) as (g & Hg & Hvel & Hrep).
    by exists s', g.
  - intros t s (Hps & _ & Hvalid & _). done.
  - intros old new Hold Hnew. by apply repair_spec.
  - apply valid_set_free.
Qed.

(** C5. After its T passes the optimizer holds a fitness history of
    exactly T entries, non-decreasing; a pass appends the incumbent, which
    it has replaced by the maximum of the fitness vector exactly when that
    maximum strictly exceeds it. *)
Theorem fitness_history_nondecreasing N K T choice rand :
  (1 <= N)%nat → has_shape N K choice →
  all_cells (λ k, k < length valid_positions)%nat choice →
  (∃ s, optimize N K T choice rand = Some s
     ∧ length (fitness_history s) = T
     ∧ StronglySorted inc_le (fitness_history s))
  ∧ (∀ r1 r2 s s', pso_step N K r1 r2 s = Some s' →
       ∃ fitness m,
         mapM (λ p, compute_coverage p default_repulsion_weight
                      default_critical_zone_weight) (particles s)
           = Some fitness
         ∧ np_max fitness = Some m
         ∧ best_fitness s' =
             (if exceeds m (best_fitness s) then Fitness m
              else best_fitness s)
         ∧ fitness_history s' = fitness_history s ++ [best_fitness s'])
  ∧ (∀ m g, exceeds m (Fitness g) = true ↔ (g < m)%R)
  ∧ (∀ m, exceeds m NegInf = true).
Proof.
  intros HN Hshape Hidx. split; [|split; [|split]].
  - destruct (optimize_spec N K T choice rand HN Hshape Hidx)
      as (s & Hs & _ & _ & _ & _ & _ & Hlen & Hsorted & _).
    by exists s.
  - intros r1 r2 s s' Hstep.
    destruct (pso_step_history N K r1 r2 s s' Hstep)
      as (fitness & m & g & Hfit & Hmax & Hbest & Hhist & _).
    by exists fitness, m.
  - intros m g. simpl. by destruct (Rlt_dec g m).
  - done.
Qed.

Lemma fitness_history_nondecreasing_witness :
  (∃ s, script (replicate 80 (replicate 7 0%nat)) (λ _, (1 / 2, 1 / 4)%R)
          = Some s
     ∧ length (fitness_history s) = 100%nat
     ∧ StronglySorted inc_le (fitness_history s))
  ∧ (∀ r1 r2 s s', pso_step 80 7 r1 r2 s = Some s' →
       ∃ fitness m,
         mapM (λ p, compute_coverage p default_repulsion_weight
                      default_critical_zone_weight) (particles s)
           = Some fitness
         ∧ np_max fitness = Some m
         ∧ best_fitness s' =
             (if exceeds m (best_fitness s) then Fitness m
              else best_fitness s)
         ∧ fitness_history s' = fitness_history s ++ [best_fitness s'])
  ∧ (∀ m g, exceeds m (Fitness g) = true ↔ (g < m)%R)
  ∧ (∀ m, exceeds m NegInf = true).
Proof.
  apply (fitness_history_nondecreasing 80 7 100
           (replicate 80 (replicate 7 0%nat)) (λ _, (1 / 2, 1 / 4)%R)).
  - lia.
  - split; [reflexivity|]. apply Forall_replicate. reflexivity.
  - apply Forall_replicate, Forall_replicate. vm_compute. lia.
Defined.

(** * Further properties of the code *)

(** ** Sums over loops *)

Section accumulate.
Context {V : Type}.
Variables (add : V → V → V) (zero : V).
Hypothesis add_assoc : ∀ a b c, add (add a b) c = add a (add b c).
Hypothesis add_zero_r : ∀ a, add a zero = a.
Hypothesis add_zero_l : ∀ a, add zero a = a.

(** A loop whose bodies each add [g a c] to the value at every cell [c] of
    interest adds the sum of the [g a c] to it. *)
Lemma for_loop_accumulate {A S C} (I : S → Prop) (Q : C → Prop)
    (val : S → C → V) (g : A → C → V) (l : list A)
    (body : A → S → option S) (s : S) :
  I s →
  (∀ a s, a ∈ l → I s →
     ∃ s', body a s = Some s' ∧ I s'
           ∧ ∀ c, Q c → val s' c = add (val s c) (g a c)) →
  ∃ s', for_loop l body s = Some s' ∧ I s'
        ∧ ∀ c, Q c → val s' c = add (val s c) (total add zero (λ a, g a c) l).
Proof.
  revert s. induction l as [|a l IH]; intros s Hs Hbody; simpl.
  - exists s. split; [done|]. split; [done|]. intros c _. by rewrite add_zero_r.
  - destruct (Hbody a s) as (s1 & -> & Hs1 & Hval1); [by left|done|]. simpl.
    destruct (IH s1 Hs1) as (s2 & Hloop & Hs2 & Hval2).
    { intros b t Hb. apply Hbody. by right. }
    exists s2. split; [done|]. split; [done|].
    intros c Hc. by rewrite Hval2, Hval1, add_assoc.
Qed.

Lemma total_ext {A} (g1 g2 : A → V) (l : list A) :
  (∀ a, a ∈ l → g1 a = g2 a) → total add zero g1 l = total add zero g2 l.
Proof.
  induction l as [|a l IH]; intros Hext; simpl; [done|].
  rewrite Hext by by left. f_equal. apply IH. intros b Hb. apply Hext. by right.
Qed.

Lemma total_zero {A} (l : list A) : total add zero (λ _, zero) l = zero.
Proof. induction l as [|a l IH]; simpl; [done|]. by rewrite IH, add_zero_l. Qed.

Lemma total_app {A} (g : A → V) (l1 l2 : list A) :
  total add zero g (l1 ++ l2)
  = add (total add zero g l1) (total add zero g l2).
Proof.
  induction l1 as [|a l1 IH]; simpl; [by rewrite add_zero_l|].
  by rewrite IH, add_assoc.
Qed.

(** Over a list without duplicates a sum of terms that vanish off [k]
    is the term of [k], or nothing. *)
Lemma total_single (f : Z → V) (k : Z) (l : list Z) :
  NoDup l →
  total add zero (λ a, if bool_decide (a = k) then f a else zero) l
  = if bool_decide (k ∈ l) then f k else zero.
Proof.
  induction 1 as [|a l Ha Hnd IH].
  - rewrite bool_decide_eq_false_2; [done|]. apply not_elem_of_nil.
  - change (total add zero ?g (a :: l)) with (add (g a) (total add zero g l)).
    rewrite IH. destruct (decide (a = k)) as [->|Hne].
    + rewrite bool_decide_eq_true_2 by done.
      rewrite (bool_decide_eq_false_2 (k ∈ l)) by done.
      rewrite (bool_decide_eq_true_2 (k ∈ k :: l)) by by left.
      apply add_zero_r.
    + rewrite bool_decide_eq_false_2 by done. rewrite add_zero_l.
      apply if_bool_decide_ext. rewrite elem_of_cons.
      split; [by right|]. by intros [?|?].
Qed.

(** The two loops over the 9x9 window of the emitter [(x, y)]: of the 81
    offsets only the one that lands on the cell [(cx, cy)] counts. *)
Lemma total_window (x y cx cy : Z) (gain : Z → Z → V) :
  total add zero (λ i,
    total add zero (λ j,
      if bool_decide (x + i = cx ∧ y + j = cy) then gain i j else zero)
      (py_range (-4) 5)) (py_range (-4) 5)
  = if reaches (x, y) (cx, cy) then gain (cx - x) (cy - y) else zero.
Proof.
  rewrite (total_ext _ (λ i, if bool_decide (i = cx - x)
             then (λ i, if bool_decide (cy - y ∈ py_range (-4) 5)
                        then gain i (cy - y) else zero) i
             else zero)).
  - rewrite total_single by apply NoDup_py_range.
    unfold reaches. cbn [fst snd].
    rewrite (bool_decide_ext (cx - x ∈ py_range (-4) 5) (-4 <= cx - x < 5))
      by apply elem_of_py_range.
    rewrite (bool_decide_ext (cy - y ∈ py_range (-4) 5) (-4 <= cy - y < 5))
      by apply elem_of_py_range.
    by destruct (bool_decide (-4 <= cx - x < 5)).
  - intros i _. destruct (decide (i = cx - x)) as [->|Hne].
    + rewrite bool_decide_eq_true_2 by done.
      rewrite <- (total_single (λ j, gain (cx - x) j)) by apply NoDup_py_range.
      apply total_ext. intros j _. apply if_bool_decide_ext. lia.
    + rewrite bool_decide_eq_false_2 by done.
      trans (total add zero (λ _ : Z, zero) (py_range (-4) 5));
        [|apply total_zero].
      apply total_ext. intros j _.
      rewrite bool_decide_eq_false_2; [done|lia].
Qed.
End accumulate.

(** ** The overlap map and the heatmap on any grid *)

Lemma has_shape_shape {A} (h w : nat) (a : list (list A)) :
  has_shape h w a → (0 < h)%nat → shape a = (Z.of_nat h, Z.of_nat w).
Proof.
  intros [Hlen Hrows] Hh. unfold shape.
  destruct a as [|row a]; [simpl in Hlen; lia|].
  apply Forall_cons_1 in Hrows as [Hrow _]. by rewrite <- Hlen, <- Hrow.
Qed.

(** The bounds test of the loops, [0 <= x < shape[0] and 0 <= y < shape[1]],
    holds exactly on the cells of the array. *)
Lemma shape_bounds {A} (h w : nat) (a : list (list A)) (x y : Z) :
  has_shape h w a →
  (0 <= x < (shape a).1 ∧ 0 <= y < (shape a).2)
  ↔ (0 <= x < Z.of_nat h ∧ 0 <= y < Z.of_nat w).
Proof.
  intros Ha. destruct (decide (0 < h)%nat) as [Hh|Hh].
  - by rewrite (has_shape_shape h w a Ha Hh).
  - assert (shape a = (0, 0)) as ->.
    { destruct Ha as [Hlen _]. destruct a; [done|simpl in Hlen; lia]. }
    simpl. lia.
Qed.

Lemma has_shape_zeros_like {A B} (z : B) (h w : nat) (a : list (list A)) :
  has_shape h w a → has_shape h w (np_zeros z (shape a)).
Proof.
  intros Ha. destruct (decide (0 < h)%nat) as [Hh|Hh].
  - rewrite (has_shape_shape h w a Ha Hh). apply has_shape_zeros.
  - assert (h = 0%nat) as -> by lia.
    destruct Ha as [Hlen _]. destruct a; [|done]. by split.
Qed.

Lemma np_get_zeros {A} (z : A) sh x y v :
  np_get (np_zeros z sh) x y = Some v → v = z.
Proof.
  apply (np_get_all_cells (λ v, v = z)). by apply all_cells_zeros.
Qed.

Lemma count_at_zeros sh c : count_at (np_zeros 0 sh) c = 0.
Proof.
  unfold count_at.
  destruct (np_get (np_zeros 0 sh) c.1 c.2) as [v|] eqn:Hv; [|done].
  simpl. by apply np_get_zeros in Hv.
Qed.

Lemma cell_zeros sh c : cell (np_zeros 0%R sh) c = 0%R.
Proof.
  unfold cell.
  destruct (np_get (np_zeros 0%R sh) c.1 c.2) as [v|] eqn:Hv; [|done].
  simpl. by apply np_get_zeros in Hv.
Qed.

(** The number of the terms that count, as the length of a filtered list. *)
Lemma total_count {A} (f : A → bool) (l : list A) :
  total Z.add 0 (λ a, if f a then 1 else 0) l
  = Z.of_nat (length (filter (λ a, f a) l)).
Proof.
  induction l as [|a l IH]; [done|].
  change (total Z.add 0 ?g (a :: l)) with (g a + total Z.add 0 g l).
  rewrite IH, filter_cons. destruct (f a); simpl; lia.
Qed.

Lemma total_np_sum {A} (g : A → R) (l : list A) :
  total Rplus 0%R g l = np_sum (g <$> l).
Proof. induction l as [|a l IH]; [done|]. unfold np_sum. simpl. by f_equal. Qed.

Lemma Z_add_assoc_r (a b c : Z) : a + b + c = a + (b + c).
Proof. lia. Qed.

Section overlap_on_grid.
Variables (grid : list (list Z)) (H W : nat).
Hypothesis shape_grid : has_shape H W grid.

Lemma overlap_count_spec x y i j om :
  has_shape H W om →
  ∃ om', overlap_count grid x y i j om = Some om' ∧ has_shape H W om'
    ∧ ∀ c, on_grid H W c →
        count_at om' c
        = count_at om c
          + (if bool_decide (x + i = c.1 ∧ y + j = c.2)
             then (if bool_decide (np_get grid c.1 c.2 = Some 0) then 1 else 0)
             else 0).
Proof.
  intros Hom. unfold overlap_count. cbv zeta.
  destruct (bool_decide (0 <= x + i < (shape grid).1)
            && bool_decide (0 <= y + j < (shape grid).2)) eqn:Hb.
  - apply andb_true_iff in Hb as [Hx%bool_decide_eq_true Hy%bool_decide_eq_true].
    destruct (proj1 (shape_bounds H W grid _ _ shape_grid) (conj Hx Hy))
      as [Hx' Hy'].
    destruct (np_get_inrange H W grid (x + i) (y + j)) as [v Hv]; [done..|].
    rewrite Hv. cbn [mbind option_bind].
    case_bool_decide as Hfree.
    + subst v.
      destruct (np_alter_inrange (λ _, True) (λ v, v + 1) H W om (x + i) (y + j))
        as (om' & -> & Hsh' & _ & Hget);
        [done|apply all_cells_True|done|done|done|].
      exists om'. split; [done|]. split; [done|].
      intros [cx cy] [Hcx Hcy]. unfold count_at. cbn [fst snd] in *.
      rewrite Hget by done.
      destruct (np_get_inrange H W om (x + i) (y + j)) as [u Hu]; [done..|].
      destruct (decide (x + i = cx ∧ y + j = cy)) as [[<- <-]|Hne].
      * rewrite !bool_decide_eq_true_2 by done. by rewrite Hu.
      * rewrite (bool_decide_eq_false_2 (cx = x + i ∧ cy = y + j))
          by (intros [-> ->]; by apply Hne).
        rewrite (bool_decide_eq_false_2 (x + i = cx ∧ y + j = cy)) by done.
        lia.
    + exists om. split; [done|]. split; [done|].
      intros [cx cy] _. cbn [fst snd].
      destruct (decide (x + i = cx ∧ y + j = cy)) as [[<- <-]|Hne].
      * rewrite bool_decide_eq_true_2 by done.
        rewrite bool_decide_eq_false_2; [lia|]. rewrite Hv. by intros [= ->].
      * rewrite bool_decide_eq_false_2 by done. lia.
  - exists om. split; [done|]. split; [done|].
    intros [cx cy] [Hcx Hcy]. cbn [fst snd] in *.
    rewrite bool_decide_eq_false_2; [lia|]. intros [<- <-].
    apply andb_false_iff in Hb as [Hb%bool_decide_eq_false|Hb%bool_decide_eq_false];
      apply Hb; by apply (shape_bounds H W grid (x + i) (y + j) shape_grid).
Qed.

End overlap_on_grid.

Lemma plot_coverage_overlap_spec (grid : list (list Z))
    (H W : nat) (antennas : list coord) :
  has_shape H W grid →
  ∃ om, plot_coverage_overlap grid antennas = Some om ∧ has_shape H W om
    ∧ ∀ c, on_grid H W c →
        count_at om c
        = total Z.add 0
            (λ e, if reaches e c
                  then (if bool_decide (np_get grid c.1 c.2 = Some 0)
                        then 1 else 0)
                  else 0) antennas.
Proof.
  intros shape_grid. unfold plot_coverage_overlap.
  destruct (for_loop_accumulate Z.add 0 Z_add_assoc_r Z.add_0_r
              (has_shape H W) (on_grid H W) count_at
              (λ e c, if reaches e c
                      then (if bool_decide (np_get grid c.1 c.2 = Some 0)
                            then 1 else 0)
                      else 0)
              antennas
              (λ '(x, y),
                 for_loop (py_range (-4) 5) (λ i,
                   for_loop (py_range (-4) 5) (λ j,
                     overlap_count grid x y i j)))
              (np_zeros 0 (shape grid)))
    as (om & Hom & Hsh & Hval).
  { by apply has_shape_zeros_like. }
  { intros [x y] om0 _ Hom0.
    destruct (for_loop_accumulate Z.add 0 Z_add_assoc_r Z.add_0_r
                (has_shape H W) (on_grid H W) count_at
                (λ i c, total Z.add 0 (λ j,
                   if bool_decide (x + i = c.1 ∧ y + j = c.2)
                   then (if bool_decide (np_get grid c.1 c.2 = Some 0)
                         then 1 else 0)
                   else 0) (py_range (-4) 5))
                (py_range (-4) 5)
                (λ i, for_loop (py_range (-4) 5) (λ j,
                        overlap_count grid x y i j)) om0 Hom0)
      as (om1 & Hom1 & Hsh1 & Hval1).
    - intros i om2 _ Hom2.
      apply (for_loop_accumulate Z.add 0 Z_add_assoc_r Z.add_0_r
               (has_shape H W) (on_grid H W) count_at
               (λ j c, if bool_decide (x + i = c.1 ∧ y + j = c.2)
                       then (if bool_decide (np_get grid c.1 c.2 = Some 0)
                             then 1 else 0)
                       else 0)); [done|].
      intros j om3 _ Hom3. by apply overlap_count_spec.
    - exists om1. split; [done|]. split; [done|].
      intros [cx cy] Hc. rewrite Hval1 by done. f_equal.
      apply (total_window Z.add 0 Z.add_0_r Z.add_0_l x y cx cy
               (λ _ _, if bool_decide (np_get grid cx cy = Some 0)
                       then 1 else 0)). }
  exists om. split; [done|]. split; [done|].
  intros c Hc. by rewrite Hval, count_at_zeros.
Qed.

(** X1. [plot_coverage_overlap] never indexes outside its arrays, on any
    grid and for any placement, and the map it builds holds, in every FREE
    cell, the number of the antennas whose 9x9 window contains the cell, and
    0 in every other cell. *)
Theorem overlap_map_counts_reaching_antennas (grid : list (list Z))
    (H W : nat) (antennas : list coord) :
  has_shape H W grid →
  ∃ om, plot_coverage_overlap grid antennas = Some om ∧ has_shape H W om
    ∧ ∀ x y, 0 <= x < Z.of_nat H → 0 <= y < Z.of_nat W →
        np_get om x y =
          Some (if bool_decide (np_get grid x y = Some 0)
                then Z.of_nat (length (filter (λ e, reaches e (x, y)) antennas))
                else 0).
Proof.
  intros shape_grid.
  destruct (plot_coverage_overlap_spec grid H W antennas shape_grid)
    as (om & Hom & Hsh & Hval).
  exists om. split; [done|]. split; [done|].
  intros x y Hx Hy.
  destruct (np_get_inrange H W om x y) as [v Hv]; [done..|].
  specialize (Hval (x, y) (conj Hx Hy)).
  unfold count_at in Hval at 1. cbn [fst snd] in Hval.
  rewrite Hv in Hval. simpl in Hval. rewrite Hv, Hval.
  f_equal. case_bool_decide.
  - by rewrite <- total_count.
  - rewrite (total_ext _ _ _ (λ _, 0)); [by rewrite total_zero|].
    intros e _. by destruct (reaches e (x, y)).
Qed.

Lemma overlap_map_counts_reaching_antennas_witness :
  ∃ om, plot_coverage_overlap warehouse_map [(1, 1); (3, 5)] = Some om
    ∧ has_shape 6 10 om
    ∧ ∀ x y, 0 <= x < Z.of_nat 6 → 0 <= y < Z.of_nat 10 →
        np_get om x y =
          Some (if bool_decide (np_get warehouse_map x y = Some 0)
                then Z.of_nat (length (filter (λ e, reaches e (x, y))
                                         [(1, 1); (3, 5)]))
                else 0).
Proof.
  apply (overlap_map_counts_reaching_antennas warehouse_map 6 10
           [(1, 1); (3, 5)]).
  split; [reflexivity|]. repeat constructor.
Defined.

(** An in-range update of a float array, read through [cell]. *)
Lemma np_alter_cell (P : R → Prop) (f : R → R) h w (a : list (list R)) x y :
  has_shape h w a → all_cells P a → (∀ v, P v → P (f v)) →
  on_grid h w (x, y) →
  ∃ a', np_alter f a x y = Some a' ∧ has_shape h w a' ∧ all_cells P a'
    ∧ ∀ c, on_grid h w c →
        cell a' c = if bool_decide (c.1 = x ∧ c.2 = y) then f (cell a c)
                    else cell a c.
Proof.
  intros Ha HP Hf [Hx Hy]. cbn [fst snd] in Hx, Hy.
  destruct (np_alter_inrange P f h w a x y Ha HP Hf Hx Hy)
    as (a' & Ha' & Hsh' & HP' & Hget).
  exists a'. split; [done|]. split; [done|]. split; [done|].
  intros [cx cy] [Hcx Hcy]. unfold cell. cbn [fst snd] in *.
  rewrite Hget by done. case_bool_decide as Hc; [|done].
  destruct Hc as [-> ->].
  by destruct (np_get_inrange h w a x y Ha Hx Hy) as [v ->].
Qed.

Lemma window_euclidean (x y cx cy : Z) :
  sqrt (IZR ((cx - x) ^ 2 + (cy - y) ^ 2)) = euclidean (cx, cy) (x, y).
Proof.
  unfold euclidean. cbn [fst snd]. f_equal.
  rewrite plus_IZR. rewrite <- !minus_IZR.
  change 2 with (Z.of_nat 2). by rewrite <- !pow_IZR.
Qed.

Section heatmap_on_grid.
Variables (grid : list (list Z)) (H W : nat).
Hypothesis shape_grid : has_shape H W grid.

Lemma free_cell_on_grid c : free_cell grid c → on_grid H W c.
Proof.
  intros (Hx & Hy & _).
  by apply (shape_bounds H W grid c.1 c.2 shape_grid).
Qed.

Lemma heatmap_reflect_target_spec rx ry strength hm :
  (0 < strength)%R →
  has_shape H W hm ∧ all_cells (λ v, 0 <= v)%R hm →
  ∃ hm',
    (if bool_decide (0 <= rx < (shape grid).1)
        && bool_decide (0 <= ry < (shape grid).2)
     then
       c ← np_get grid rx ry;
       if bool_decide (c = 1)
       then np_alter (λ v, (v + strength / 2)%R) hm rx ry
       else Some hm
     else Some hm) = Some hm'
    ∧ (has_shape H W hm' ∧ all_cells (λ v, 0 <= v)%R hm')
    ∧ ∀ c, free_cell grid c → cell hm' c = cell hm c.
Proof.
  intros Hs [Hsh Hpos].
  destruct (bool_decide (0 <= rx < (shape grid).1)
            && bool_decide (0 <= ry < (shape grid).2)) eqn:Hb;
    [|by exists hm].
  apply andb_true_iff in Hb as [Hx%bool_decide_eq_true Hy%bool_decide_eq_true].
  assert (on_grid H W (rx, ry)) as Hon
    by by apply (shape_bounds H W grid rx ry shape_grid).
  destruct (np_get_inrange H W grid rx ry) as [v Hv]; [done|apply Hon..|].
  rewrite Hv. cbn [mbind option_bind].
  case_bool_decide as Hwall; [subst v|by exists hm].
  destruct (np_alter_cell (λ v, 0 <= v)%R (λ v, (v + strength / 2)%R)
              H W hm rx ry) as (hm' & -> & Hsh' & Hpos' & Hcell);
    [done|done|intros; lra|done|].
  exists hm'. split; [done|]. split; [done|].
  intros c Hc. rewrite Hcell by by apply free_cell_on_grid.
  rewrite bool_decide_eq_false_2; [done|].
  intros [Hc1 Hc2]. destruct Hc as (_ & _ & Hfree).
  rewrite Hc1, Hc2, Hv in Hfree. by injection Hfree.
Qed.

Lemma heatmap_propagate_spec x y i j hm :
  has_shape H W hm ∧ all_cells (λ v, 0 <= v)%R hm →
  ∃ hm', heatmap_propagate grid x y i j hm = Some hm'
    ∧ (has_shape H W hm' ∧ all_cells (λ v, 0 <= v)%R hm')
    ∧ ∀ c, free_cell grid c →
        cell hm' c
        = Rplus (cell hm c)
            (if bool_decide (x + i = c.1 ∧ y + j = c.2)
             then exp (- sqrt (IZR (i ^ 2 + j ^ 2)) / 2) else 0%R).
Proof.
  intros Hhm. unfold heatmap_propagate. cbv zeta.
  assert (∀ c, free_cell grid c → (x + i, y + j) ≠ c →
            Rplus (cell hm c)
              (if bool_decide (x + i = c.1 ∧ y + j = c.2)
               then exp (- sqrt (IZR (i ^ 2 + j ^ 2)) / 2) else 0%R)
            = cell hm c) as Hmiss.
  { intros [cx cy] _ Hne. cbn [fst snd].
    rewrite bool_decide_eq_false_2; [lra|]. intros [<- <-]. by apply Hne. }
  destruct (bool_decide (0 <= x + i < (shape grid).1)
            && bool_decide (0 <= y + j < (shape grid).2)) eqn:Hb.
  2: { exists hm. split; [done|]. split; [done|].
       intros c Hc. rewrite Hmiss; [done|done|]. intros <-.
       destruct Hc as (Hcx & Hcy & _). cbn [fst snd] in Hcx, Hcy.
       apply andb_false_iff in Hb
         as [Hb%bool_decide_eq_false|Hb%bool_decide_eq_false]; by apply Hb. }
  apply andb_true_iff in Hb as [Hx%bool_decide_eq_true Hy%bool_decide_eq_true].
  assert (on_grid H W (x + i, y + j)) as Hon
    by by apply (shape_bounds H W grid _ _ shape_grid).
  destruct (np_get_inrange H W grid (x + i) (y + j)) as [v Hv];
    [done|apply Hon..|].
  rewrite Hv. cbn [mbind option_bind].
  case_bool_decide as Hfree.
  2: { exists hm. split; [done|]. split; [done|].
       intros c Hc. rewrite Hmiss; [done|done|]. intros <-.
       destruct Hc as (_ & _ & Hc). cbn [fst snd] in Hc.
       rewrite Hv in Hc. by injection Hc. }
  subst v. set (strength := exp _).
  assert (0 < strength)%R as Hs by apply exp_pos.
  destruct Hhm as [Hsh Hpos].
  destruct (np_alter_cell (λ v, 0 <= v)%R (λ v, (v + strength)%R)
              H W hm (x + i) (y + j)) as (hm1 & -> & Hsh1 & Hpos1 & Hcell1);
    [done|done|intros; lra|done|].
  cbn [mbind option_bind].
  unfold heatmap_reflect. cbv zeta. cbn [for_loop].
  destruct (heatmap_reflect_target_spec (x + i) (2 * (y + j) - y) strength hm1
              Hs (conj Hsh1 Hpos1)) as (hm2 & -> & Hhm2 & Hcell2).
  cbn [mbind option_bind].
  destruct (heatmap_reflect_target_spec (2 * (x + i) - x) (y + j) strength hm2
              Hs Hhm2) as (hm3 & -> & Hhm3 & Hcell3).
  cbn [mbind option_bind].
  exists hm3. split; [done|]. split; [done|].
  intros c Hc. rewrite Hcell3, Hcell2 by done.
  rewrite Hcell1 by by apply free_cell_on_grid.
  destruct c as [cx cy]. cbn [fst snd].
  destruct (decide (x + i = cx ∧ y + j = cy)) as [[<- <-]|Hne].
  - by rewrite !bool_decide_eq_true_2.
  - rewrite (bool_decide_eq_false_2 (x + i = cx ∧ y + j = cy)) by done.
    rewrite bool_decide_eq_false_2; [lra|]. intros [-> ->]. by apply Hne.
Qed.
End heatmap_on_grid.

Lemma plot_coverage_heatmap_spec (grid : list (list Z))
    (H W : nat) (antennas : list coord) :
  has_shape H W grid →
  ∃ hm, plot_coverage_heatmap grid antennas = Some hm
    ∧ has_shape H W hm
    ∧ all_cells (λ v, 0 <= v)%R hm
    ∧ ∀ c, free_cell grid c →
        cell hm c = total Rplus 0%R (heatmap_gain c) antennas.
Proof.
  intros shape_grid. unfold plot_coverage_heatmap.
  set (I := λ hm : list (list R),
         has_shape H W hm ∧ all_cells (λ v, 0 <= v)%R hm).
  destruct (for_loop_accumulate Rplus 0%R Rplus_assoc Rplus_0_r
              I (free_cell grid) cell (λ e c, heatmap_gain c e)
              antennas
              (λ '(x, y),
                 for_loop (py_range (-4) 5) (λ i,
                   for_loop (py_range (-4) 5) (λ j,
                     heatmap_propagate grid x y i j)))
              (np_zeros 0%R (shape grid)))
    as (hm & Hhm & [Hsh Hpos] & Hval).
  { split; [by apply has_shape_zeros_like|]. apply all_cells_zeros. lra. }
  { intros [x y] hm0 _ Hhm0.
    destruct (for_loop_accumulate Rplus 0%R Rplus_assoc Rplus_0_r
                I (free_cell grid) cell
                (λ i c, total Rplus 0%R (λ j,
                   if bool_decide (x + i = c.1 ∧ y + j = c.2)
                   then exp (- sqrt (IZR (i ^ 2 + j ^ 2)) / 2) else 0%R)
                   (py_range (-4) 5))
                (py_range (-4) 5)
                (λ i, for_loop (py_range (-4) 5) (λ j,
                        heatmap_propagate grid x y i j)) hm0 Hhm0)
      as (hm1 & Hhm1 & HI1 & Hval1).
    - intros i hm2 _ Hhm2.
      apply (for_loop_accumulate Rplus 0%R Rplus_assoc Rplus_0_r
               I (free_cell grid) cell
               (λ j c, if bool_decide (x + i = c.1 ∧ y + j = c.2)
                       then exp (- sqrt (IZR (i ^ 2 + j ^ 2)) / 2)
                       else 0%R)); [done|].
      intros j hm3 _ Hhm3. by apply (heatmap_propagate_spec grid H W).
    - exists hm1. split; [done|]. split; [done|].
      intros [cx cy] Hc. rewrite Hval1 by done. f_equal. cbn [fst snd].
      rewrite (total_window Rplus 0%R Rplus_0_r Rplus_0_l x y cx cy
                 (λ i j, exp (- sqrt (IZR (i ^ 2 + j ^ 2)) / 2))).
      unfold heatmap_gain. by rewrite window_euclidean. }
  exists hm. split; [done|]. split; [done|]. split; [done|].
  intros c Hc. rewrite Hval by done.
  rewrite cell_zeros. apply Rplus_0_l.
Qed.

(** X2. [plot_coverage_heatmap] never indexes outside its arrays, on any
    grid and for any placement; no cell of its map is negative, and a FREE
    cell holds the sum, over the antennas whose 9x9 window contains it, of
    exp(-distance/2) for the Euclidean distance to the antenna: the
    reflections reach wall cells only, and walls between the antenna and
    the cell do not weaken the signal. *)
Theorem heatmap_sums_decay_of_reaching_antennas (grid : list (list Z))
    (H W : nat) (antennas : list coord) :
  has_shape H W grid →
  ∃ hm, plot_coverage_heatmap grid antennas = Some hm
    ∧ has_shape H W hm
    ∧ all_cells (λ v, 0 <= v)%R hm
    ∧ ∀ c, free_cell grid c →
        cell hm c = np_sum (heatmap_gain c <$> antennas).
Proof.
  intros shape_grid.
  destruct (plot_coverage_heatmap_spec grid H W antennas shape_grid)
    as (hm & Hhm & Hsh & Hpos & Hval).
  exists hm. split; [done|]. split; [done|]. split; [done|].
  intros c Hc. by rewrite Hval, total_np_sum.
Qed.

Lemma heatmap_sums_decay_of_reaching_antennas_witness :
  ∃ hm, plot_coverage_heatmap warehouse_map [(1, 1); (3, 5)] = Some hm
    ∧ has_shape 6 10 hm
    ∧ all_cells (λ v, 0 <= v)%R hm
    ∧ ∀ c, free_cell warehouse_map c →
        cell hm c = np_sum (heatmap_gain c <$> [(1, 1); (3, 5)]).
Proof.
  apply (heatmap_sums_decay_of_reaching_antennas warehouse_map 6 10
           [(1, 1); (3, 5)]).
  split; [reflexivity|]. repeat constructor.
Defined.

Lemma total_nonneg {A} (g : A → R) (l : list A) :
  (∀ e, 0 <= g e)%R → (0 <= total Rplus 0%R g l)%R.
Proof.
  intros Hg. induction l as [|a l IH]; [simpl; lra|].
  change (total Rplus 0%R g (a :: l)) with (g a + total Rplus 0%R g l)%R.
  specialize (Hg a). lra.
Qed.

Lemma total_pos_iff {A} (g : A → R) (l : list A) :
  (∀ e, 0 <= g e)%R →
  (0 < total Rplus 0%R g l)%R ↔ ∃ e, e ∈ l ∧ (0 < g e)%R.
Proof.
  intros Hg. induction l as [|a l IH].
  - simpl. split; [lra|]. intros (e & He & _). by apply elem_of_nil in He.
  - change (total Rplus 0%R g (a :: l)) with (g a + total Rplus 0%R g l)%R.
    pose proof (total_nonneg g l Hg) as Hrest. pose proof (Hg a) as Ha.
    split.
    + intros Hpos. destruct (Rlt_dec 0 (g a)) as [Hlt|Hge].
      * exists a. split; [by left|done].
      * destruct (proj1 IH) as (e & He & Hgt); [lra|].
        exists e. split; [by right|done].
    + intros (e & He & Hgt). apply elem_of_cons in He as [->|He]; [lra|].
      assert (0 < total Rplus 0%R g l)%R by (apply IH; by exists e). lra.
Qed.

Lemma total_count_pos {A} (f : A → bool) (l : list A) :
  0 < total Z.add 0 (λ a, if f a then 1 else 0) l ↔ ∃ e, e ∈ l ∧ f e = true.
Proof.
  induction l as [|a l IH].
  - simpl. split; [lia|]. intros (e & He & _). by apply elem_of_nil in He.
  - change (total Z.add 0 ?g (a :: l)) with (g a + total Z.add 0 g l).
    assert (0 <= total Z.add 0 (λ a, if f a then 1 else 0) l) as Hrest.
    { rewrite total_count. lia. }
    split.
    + intros Hpos. destruct (f a) eqn:Hfa.
      * exists a. split; [by left|done].
      * destruct (proj1 IH) as (e & He & Hfe); [lia|].
        exists e. split; [by right|done].
    + intros (e & He & Hfe). apply elem_of_cons in He as [->|He].
      * rewrite Hfe. lia.
      * assert (0 < total Z.add 0 (λ a, if f a then 1 else 0) l)
          by (apply IH; by exists e).
        destruct (f a); lia.
Qed.

(** X3. The two maps that the script plots for a placement agree on where
    the signal is: on any grid, a FREE cell of the heatmap is positive
    exactly when its overlap count is, which is exactly when the 9x9 window
    of some antenna contains the cell. *)
Theorem heatmap_positive_where_overlap_counts (grid : list (list Z))
    (H W : nat) (antennas : list coord) :
  has_shape H W grid →
  ∃ hm om,
    plot_coverage_heatmap grid antennas = Some hm
    ∧ plot_coverage_overlap grid antennas = Some om
    ∧ ∀ c, free_cell grid c →
        ((0 < cell hm c)%R ↔ 0 < count_at om c)
        ∧ (0 < count_at om c ↔ ∃ e, e ∈ antennas ∧ reaches e c = true).
Proof.
  intros shape_grid.
  destruct (plot_coverage_heatmap_spec grid H W antennas shape_grid)
    as (hm & Hhm & _ & _ & Hcell).
  destruct (plot_coverage_overlap_spec grid H W antennas shape_grid)
    as (om & Hom & _ & Hcount).
  exists hm, om. split; [done|]. split; [done|].
  intros c Hc.
  assert (0 < count_at om c ↔ ∃ e, e ∈ antennas ∧ reaches e c = true) as Hov.
  { rewrite Hcount by by apply (free_cell_on_grid grid H W).
    destruct Hc as (_ & _ & Hfree).
    rewrite (total_ext _ _ _ (λ e, if reaches e c then 1 else 0)).
    - apply total_count_pos.
    - intros e _. by rewrite (bool_decide_eq_true_2 _ Hfree). }
  split; [|done]. rewrite Hov, Hcell by done.
  rewrite total_pos_iff.
  - split; intros (e & He & Hgain); exists e; (split; [done|]);
      unfold heatmap_gain in *; destruct (reaches e c); try done; try lra.
    apply exp_pos.
  - intros e. unfold heatmap_gain. destruct (reaches e c); [|lra].
    left. apply exp_pos.
Qed.

Lemma heatmap_positive_where_overlap_counts_witness :
  ∃ hm om,
    plot_coverage_heatmap warehouse_map [(1, 1); (3, 5)] = Some hm
    ∧ plot_coverage_overlap warehouse_map [(1, 1); (3, 5)] = Some om
    ∧ ∀ c, free_cell warehouse_map c →
        ((0 < cell hm c)%R ↔ 0 < count_at om c)
        ∧ (0 < count_at om c
           ↔ ∃ e, e ∈ [(1, 1); (3, 5)] ∧ reaches e c = true).
Proof.
  apply (heatmap_positive_where_overlap_counts warehouse_map 6 10
           [(1, 1); (3, 5)]).
  split; [reflexivity|]. repeat constructor.
Defined.

(** ** The coverage map in closed form *)

Lemma critical_zones_ref_lookup (x y : Z) :
  0 <= x < 6 → 0 <= y < 10 →
  np_get critical_zones_ref x y
  = Some (if bool_decide ((x, y) ∈ critical_cells) then 1 else 0).
Proof.
  intros Hx Hy.
  assert (Forall (λ x, Forall (λ y,
            np_get critical_zones_ref x y
            = Some (if bool_decide ((x, y) ∈ critical_cells) then 1 else 0))
            (seqZ 0 10)) (seqZ 0 6)) as Hall.
  { apply (bool_decide_unpack _). by vm_compute. }
  rewrite Forall_forall in Hall.
  specialize (Hall x). rewrite Forall_forall in Hall.
  apply Hall; apply elem_of_seqZ; lia.
Qed.

Lemma same_on_free_cell cm cm' c :
  same_on_free cm cm' → c ∈ valid_set → cell cm' c = cell cm c.
Proof.
  intros Hsame (Hx & Hy & Hfree)%valid_set_free. unfold cell.
  by rewrite Hsame.
Qed.

(** One offset of the window of one emitter, seen from a FREE cell. *)
Lemma propagate_spec czw x y i j cm :
  -4 <= i < 5 → -4 <= j < 5 → has_shape 6 10 cm →
  ∃ cm', propagate critical_zones_ref czw x y i j cm = Some cm'
    ∧ has_shape 6 10 cm'
    ∧ ∀ c, c ∈ valid_set →
        cell cm' c
        = Rplus (cell cm c)
            (if bool_decide (x + i = c.1 ∧ y + j = c.2)
             then (exp (- sqrt (IZR (i ^ 2 + j ^ 2)) / signalrange)
                   + (if bool_decide (c ∈ critical_cells) then czw else 0))%R
             else 0%R).
Proof.
  intros Hi Hj Hcm. rewrite propagate_window_eq by done.
  unfold propagate_window. rewrite map_size_eq. cbn [fst snd]. cbv zeta.
  assert (∀ c : coord, c ∈ valid_set → (x + i, y + j) ≠ c →
            Rplus (cell cm c)
              (if bool_decide (x + i = c.1 ∧ y + j = c.2)
               then (exp (- sqrt (IZR (i ^ 2 + j ^ 2)) / signalrange)
                     + (if bool_decide (c ∈ critical_cells) then czw else 0))%R
               else 0%R)
            = cell cm c) as Hmiss.
  { intros [cx cy] _ Hne. cbn [fst snd].
    rewrite bool_decide_eq_false_2; [lra|]. intros [<- <-]. by apply Hne. }
  destruct (bool_decide (0 <= x + i < 6) && bool_decide (0 <= y + j < 10))
    eqn:Hb.
  2: { exists cm. split; [done|]. split; [done|].
       intros c Hc. rewrite Hmiss; [done|done|]. intros <-.
       apply valid_set_free in Hc as (Hcx & Hcy & _). cbn [fst snd] in Hcx, Hcy.
       apply andb_false_iff in Hb
         as [Hb%bool_decide_eq_false|Hb%bool_decide_eq_false]; by apply Hb. }
  apply andb_true_iff in Hb as [Hx%bool_decide_eq_true Hy%bool_decide_eq_true].
  destruct (np_get_inrange 6 10 warehouse_map (x + i) (y + j)) as [v Hv];
    [apply shape_warehouse_map|lia|lia|].
  rewrite Hv. cbn [mbind option_bind].
  destruct (decide (v = 0)) as [->|Hwall].
  2: { rewrite bool_decide_eq_false_2 by done.
       exists cm. split; [done|]. split; [done|].
       intros c Hc. rewrite Hmiss; [done|done|]. intros <-.
       apply valid_set_free in Hc as (_ & _ & Hc). cbn [fst snd] in Hc.
       rewrite Hv in Hc. by injection Hc. }
  rewrite !bool_decide_eq_true_2 by done.
  set (decay := exp _).
  assert (0 < decay)%R as Hd by apply exp_pos.
  destruct (np_alter_cell (λ _, True) (λ v, (v + decay)%R) 6 10 cm
              (x + i) (y + j))
    as (cm1 & -> & Hsh1 & _ & Hcell1);
    [done|apply all_cells_True|done|split; cbn; lia|].
  cbn [mbind option_bind].
  destruct (reflect_inv (λ _, True) (λ _ _ _ _, I) x y (x + i) (y + j) decay cm1)
    as (cm2 & -> & [Hsh2 _] & Hsame2); [done|split; [done|apply all_cells_True]|].
  cbn [mbind option_bind].
  rewrite critical_zones_ref_lookup by lia. cbn [mbind option_bind].
  assert (∀ c : coord, c ∈ valid_set →
            cell cm2 c
            = (if bool_decide (c.1 = x + i ∧ c.2 = y + j)
               then (cell cm c + decay)%R else cell cm c)) as Hcell2.
  { intros c Hc. rewrite (same_on_free_cell cm1 cm2 c Hsame2 Hc).
    apply Hcell1. apply valid_set_free in Hc as (? & ? & _). by split. }
  destruct (decide ((x + i, y + j) ∈ critical_cells)) as [Hcrit|Hcrit].
  - rewrite (bool_decide_eq_true_2 _ Hcrit).
    rewrite bool_decide_eq_true_2 by done.
    destruct (np_alter_cell (λ _, True) (λ v, (v + czw)%R) 6 10 cm2
                (x + i) (y + j))
      as (cm3 & -> & Hsh3 & _ & Hcell3);
      [done|apply all_cells_True|done|split; cbn; lia|].
    exists cm3. split; [done|]. split; [done|].
    intros [cx cy] Hc. rewrite Hcell3.
    2: { apply valid_set_free in Hc as (? & ? & _). by split. }
    rewrite Hcell2 by done. cbn [fst snd].
    destruct (decide (x + i = cx ∧ y + j = cy)) as [[<- <-]|Hne].
    + rewrite !bool_decide_eq_true_2 by done. lra.
    + rewrite (bool_decide_eq_false_2 (x + i = cx ∧ y + j = cy)) by done.
      rewrite bool_decide_eq_false_2; [lra|]. intros [-> ->]. by apply Hne.
  - rewrite (bool_decide_eq_false_2 _ Hcrit).
    rewrite bool_decide_eq_false_2 by (intros Hne; by apply Hne).
    exists cm2. split; [done|]. split; [done|].
    intros [cx cy] Hc. rewrite Hcell2 by done. cbn [fst snd].
    destruct (decide (x + i = cx ∧ y + j = cy)) as [[<- <-]|Hne].
    + rewrite !bool_decide_eq_true_2 by done.
      rewrite (bool_decide_eq_false_2 _ Hcrit). lra.
    + rewrite (bool_decide_eq_false_2 (x + i = cx ∧ y + j = cy)) by done.
      rewrite bool_decide_eq_false_2; [lra|]. intros [-> ->]. by apply Hne.
Qed.

Lemma coverage_map_spec (antennas : list coord) (czw : R) :
  ∃ cm, coverage_map antennas czw = Some cm ∧ has_shape 6 10 cm
    ∧ ∀ c, c ∈ valid_set →
        cell cm c = total Rplus 0%R (emitter_gain czw c) antennas.
Proof.
  unfold coverage_map. rewrite critical_zones_eq. cbn [mbind option_bind].
  destruct (for_loop_accumulate Rplus 0%R Rplus_assoc Rplus_0_r
              (has_shape 6 10) (λ c : coord, c ∈ valid_set) cell
              (λ e c, emitter_gain czw c e)
              antennas
              (λ '(x, y),
                 for_loop (py_range (-4) 5) (λ i,
                   for_loop (py_range (-4) 5) (λ j,
                     propagate critical_zones_ref czw x y i j)))
              (np_zeros 0%R map_size))
    as (cm & Hcm & Hsh & Hval).
  { apply (has_shape_zeros 0%R 6 10). }
  { intros [x y] cm0 _ Hcm0.
    destruct (for_loop_accumulate Rplus 0%R Rplus_assoc Rplus_0_r
                (has_shape 6 10) (λ c : coord, c ∈ valid_set) cell
                (λ i c, total Rplus 0%R (λ j,
                   if bool_decide (x + i = c.1 ∧ y + j = c.2)
                   then (exp (- sqrt (IZR (i ^ 2 + j ^ 2)) / signalrange)
                         + (if bool_decide (c ∈ critical_cells) then czw
                            else 0))%R
                   else 0%R) (py_range (-4) 5))
                (py_range (-4) 5)
                (λ i, for_loop (py_range (-4) 5) (λ j,
                        propagate critical_zones_ref czw x y i j)) cm0 Hcm0)
      as (cm1 & Hcm1 & Hsh1 & Hval1).
    - intros i cm2 Hi%elem_of_py_range Hcm2.
      apply (for_loop_accumulate Rplus 0%R Rplus_assoc Rplus_0_r
               (has_shape 6 10) (λ c : coord, c ∈ valid_set) cell
               (λ j c, if bool_decide (x + i = c.1 ∧ y + j = c.2)
                       then (exp (- sqrt (IZR (i ^ 2 + j ^ 2)) / signalrange)
                             + (if bool_decide (c ∈ critical_cells) then czw
                                else 0))%R
                       else 0%R)); [done|].
      intros j cm3 Hj%elem_of_py_range Hcm3. by apply propagate_spec.
    - exists cm1. split; [done|]. split; [done|].
      intros [cx cy] Hc. rewrite Hval1 by done. f_equal. cbn [fst snd].
      rewrite (total_window Rplus 0%R Rplus_0_r Rplus_0_l x y cx cy
                 (λ i j, (exp (- sqrt (IZR (i ^ 2 + j ^ 2)) / signalrange)
                          + (if bool_decide ((cx, cy) ∈ critical_cells)
                             then czw else 0))%R)).
      unfold emitter_gain. by rewrite window_euclidean. }
  exists cm. split; [done|]. split; [done|].
  intros c Hc. rewrite Hval by done. rewrite cell_zeros. apply Rplus_0_l.
Qed.

(** X4. In the map of the evaluator a FREE cell holds the sum, over the
    antennas whose 9x9 window contains it, of exp(-distance/0.46) for the
    Euclidean distance to the antenna, plus the critical-zone weight once
    for each such antenna when the cell is critical; the coverage score is
    the mean of these sums.  Walls between an antenna and a cell do not
    weaken the signal, and the reflections add nothing on a FREE cell. *)
Theorem coverage_map_sums_gain_of_reaching_antennas (antennas : list coord)
    (czw : R) :
  ∃ cm, coverage_map antennas czw = Some cm
    ∧ (∀ c, c ∈ valid_set →
         cell cm c = np_sum (emitter_gain czw c <$> antennas))
    ∧ coverage_score cm
      = (np_sum ((λ c, np_sum (emitter_gain czw c <$> antennas))
                   <$> valid_positions)
         / INR (length valid_positions))%R.
Proof.
  destruct (coverage_map_spec antennas czw) as (cm & Hcm & Hsh & Hval).
  exists cm. split; [done|].
  assert (∀ c, c ∈ valid_set →
            cell cm c = np_sum (emitter_gain czw c <$> antennas)) as Hcell.
  { intros c Hc. by rewrite Hval, total_np_sum. }
  split; [done|].
  unfold coverage_score, np_mean.
  rewrite np_select_valid_mask by done. rewrite length_fmap. do 2 f_equal.
  apply list_fmap_ext. intros k c Hc. apply Hcell.
  unfold valid_set. apply elem_of_list_to_set. by eapply list_elem_of_lookup_2.
Qed.

Lemma np_sum_fmap_plus {A} (f g : A → R) (l : list A) :
  np_sum ((λ a, f a + g a)%R <$> l) = (np_sum (f <$> l) + np_sum (g <$> l))%R.
Proof.
  unfold np_sum. induction l as [|a l IH]; [simpl; lra|].
  rewrite !fmap_cons. cbn [foldr]. rewrite IH. lra.
Qed.

Lemma np_sum_app (l1 l2 : list R) :
  np_sum (l1 ++ l2) = (np_sum l1 + np_sum l2)%R.
Proof.
  unfold np_sum. induction l1 as [|a l1 IH]; simpl; [lra|]. rewrite IH. lra.
Qed.

Lemma coverage_score_valid_positions cm :
  has_shape 6 10 cm →
  coverage_score cm
  = (np_sum (cell cm <$> valid_positions) / INR (length valid_positions))%R.
Proof.
  intros Hsh. unfold coverage_score, np_mean.
  rewrite np_select_valid_mask by done. by rewrite length_fmap.
Qed.

Lemma elem_of_valid_positions_set k c :
  valid_positions !! k = Some c → c ∈ valid_set.
Proof.
  intros Hc. unfold valid_set. apply elem_of_list_to_set.
  by eapply list_elem_of_lookup_2.
Qed.

(** X5. The coverage score has no saturation: the map of two placements
    put together is, on every FREE cell, the sum of their maps, and its
    coverage score is the sum of their coverage scores; only the repulsion
    term of the fitness sets antennas against each other. *)
Theorem coverage_score_adds_over_placements (p q : list coord) (czw : R) :
  ∃ cp cq cpq,
    coverage_map p czw = Some cp ∧ coverage_map q czw = Some cq
    ∧ coverage_map (p ++ q) czw = Some cpq
    ∧ (∀ c, c ∈ valid_set → cell cpq c = (cell cp c + cell cq c)%R)
    ∧ coverage_score cpq = (coverage_score cp + coverage_score cq)%R.
Proof.
  destruct (coverage_map_spec p czw) as (cp & Hcp & Hshp & Hvalp).
  destruct (coverage_map_spec q czw) as (cq & Hcq & Hshq & Hvalq).
  destruct (coverage_map_spec (p ++ q) czw) as (cpq & Hcpq & Hshpq & Hvalpq).
  exists cp, cq, cpq. do 3 (split; [done|]).
  assert (∀ c, c ∈ valid_set → cell cpq c = (cell cp c + cell cq c)%R) as Hadd.
  { intros c Hc. rewrite Hvalpq, Hvalp, Hvalq by done.
    apply (total_app Rplus 0%R Rplus_assoc Rplus_0_l). }
  split; [done|].
  rewrite !coverage_score_valid_positions by done.
  rewrite <- Rdiv_plus_distr, <- np_sum_fmap_plus. do 2 f_equal.
  apply list_fmap_ext. intros k c Hc.
  by apply Hadd, (elem_of_valid_positions_set k).
Qed.

(** ** Bounds of the fitness *)

Lemma euclidean_nonneg (a b : coord) : (0 <= euclidean a b)%R.
Proof. apply sqrt_pos. Qed.

Lemma exp_neg_le_1 (d s : R) : (0 <= d)%R → (0 < s)%R → (exp (- d / s) <= 1)%R.
Proof.
  intros Hd Hs. rewrite <- exp_0.
  destruct (Req_dec d 0) as [->|Hne].
  - right. f_equal. unfold Rdiv. ring.
  - left. apply exp_increasing.
    assert (0 < d / s)%R by (apply Rdiv_lt_0_compat; lra).
    unfold Rdiv in *. lra.
Qed.

Lemma emitter_gain_bounds (czw : R) (c e : coord) :
  (0 <= czw)%R → (0 <= emitter_gain czw c e <= 1 + czw)%R.
Proof.
  intros Hczw. unfold emitter_gain. destruct (reaches e c); [|lra].
  pose proof (exp_pos (- euclidean c e / signalrange)) as Hpos.
  pose proof (exp_neg_le_1 (euclidean c e) signalrange
                (euclidean_nonneg c e)) as Hle.
  assert (0 < signalrange)%R as Hs by (unfold signalrange; lra).
  specialize (Hle Hs). case_bool_decide; lra.
Qed.

Lemma np_sum_fmap_bounds {A} (g : A → R) (lo hi : R) (l : list A) :
  (∀ a, a ∈ l → lo <= g a <= hi)%R →
  (INR (length l) * lo <= np_sum (g <$> l) <= INR (length l) * hi)%R.
Proof.
  unfold np_sum. induction l as [|a l IH]; intros Hg.
  - simpl. lra.
  - rewrite fmap_cons, length_cons, S_INR. cbn [foldr].
    assert (lo <= g a <= hi)%R by (apply Hg; by left).
    assert (INR (length l) * lo <= foldr Rplus 0 (g <$> l)
            <= INR (length l) * hi)%R
      by (apply IH; intros b Hb; apply Hg; by right).
    lra.
Qed.

Lemma np_mean_fmap_bounds {A} (g : A → R) (lo hi : R) (l : list A) :
  l ≠ [] → (∀ a, a ∈ l → lo <= g a <= hi)%R →
  (lo <= np_sum (g <$> l) / INR (length l) <= hi)%R.
Proof.
  intros Hne Hg. pose proof (np_sum_fmap_bounds g lo hi l Hg) as Hsum.
  assert (0 < INR (length l))%R as Hpos.
  { apply lt_0_INR. destruct l; [done|simpl; lia]. }
  set (n := INR (length l)) in *. set (t := np_sum (g <$> l)) in *.
  assert (t = t / n * n)%R as Ht by (field; lra).
  split; apply (Rmult_le_reg_r n); lra.
Qed.

(** A row of the repulsion matrix: the term of the diagonal is 0 and every
    other term is at most 1. *)
Lemma repulsion_row_bounds (i : nat) (a : coord) (l : list coord) (n : nat) :
  (0 <= np_sum (imap (λ j b, pair_term i (n + j) a b) l)
   <= INR (length l)
      - (if bool_decide (n <= i < n + length l)%nat then 1 else 0))%R.
Proof.
  revert n. induction l as [|b l IH]; intros n.
  - unfold np_sum. simpl. rewrite bool_decide_eq_false_2 by lia. lra.
  - rewrite imap_cons, length_cons, S_INR.
    change (np_sum (?x :: ?r)) with (x + np_sum r)%R.
    rewrite (imap_ext _ (λ j b, pair_term i (S n + j) a b)).
    2: { intros j c _. simpl. f_equal. lia. }
    specialize (IH (S n)).
    assert (0 <= pair_term i (n + 0) a b <= 1)%R as Hhead.
    { unfold pair_term. destruct (decide (i = (n + 0)%nat)); [lra|].
      pose proof (exp_pos (- euclidean a b / 3)).
      assert (exp (- euclidean a b / 3) <= 1)%R
        by (apply exp_neg_le_1; [apply euclidean_nonneg|lra]).
      lra. }
    destruct (decide (i = n)) as [->|Hne].
    + assert (pair_term n (n + 0) a b = 0%R) as ->.
      { unfold pair_term. rewrite decide_True; [done|lia]. }
      rewrite bool_decide_eq_true_2 by (simpl; lia).
      rewrite bool_decide_eq_false_2 in IH by lia. lra.
    + rewrite (bool_decide_ext (n <= i < n + length (b :: l))%nat
                 (S n <= i < S n + length l)%nat) by (simpl; lia).
      lra.
Qed.

Lemma repulsion_score_bounds (antennas : list coord) :
  (0 <= repulsion_score antennas
   <= INR (length antennas) * (INR (length antennas) - 1))%R.
Proof.
  rewrite repulsion_score_ordered_pairs. unfold ordered_pairs_sum.
  assert (∀ i a, antennas !! i = Some a →
            (0 <= np_sum (imap (λ j b, pair_term i j a b) antennas)
             <= INR (length antennas) - 1)%R) as Hrow.
  { intros i a Ha. apply lookup_lt_Some in Ha.
    pose proof (repulsion_row_bounds i a antennas 0) as Hb.
    rewrite bool_decide_eq_true_2 in Hb by lia. done. }
  assert (∀ (B : R) (l : list coord),
            np_sum (imap (λ _ _, B) l) = (INR (length l) * B)%R) as Hconst.
  { intros B l.
    change (imap (λ _ _, B) l) with (imap (const (λ _ : coord, B)) l).
    rewrite imap_const. unfold np_sum.
    induction l as [|a l IH]; [simpl; lra|].
    rewrite fmap_cons, length_cons, S_INR. cbn [foldr]. rewrite IH. lra. }
  split.
  - replace 0%R with (INR (length antennas) * 0)%R by lra. rewrite <- (Hconst 0%R antennas).
    apply np_sum_imap_le; [done|]. intros i a a' Ha Ha'. by apply Hrow.
  - rewrite <- (Hconst (INR (length antennas) - 1)%R antennas).
    apply np_sum_imap_le; [done|]. intros i a a' Ha Ha'. by apply Hrow.
Qed.

(** X6. For non-negative weights the fitness of a placement of K antennas
    lies between -repulsion_weight * K * (K - 1) and
    K * (1 + critical_zone_weight): an antenna adds at most
    1 + critical_zone_weight to a FREE cell, and each of the K * (K - 1)
    ordered pairs of antennas costs at most repulsion_weight. *)
Theorem fitness_bounds (antennas : list coord) (rw czw : R) :
  (0 <= rw)%R → (0 <= czw)%R →
  ∃ f, compute_coverage antennas rw czw = Some f
    ∧ (- (rw * (INR (length antennas) * (INR (length antennas) - 1))) <= f
       <= INR (length antennas) * (1 + czw))%R.
Proof.
  intros Hrw Hczw.
  destruct (coverage_map_spec antennas czw) as (cm & Hcm & Hsh & Hval).
  unfold compute_coverage. rewrite Hcm. cbn [mbind option_bind].
  eexists. split; [done|].
  pose proof (repulsion_score_bounds antennas) as Hrep.
  assert (0 <= coverage_score cm <= INR (length antennas) * (1 + czw))%R
    as Hscore.
  { rewrite coverage_score_valid_positions by done.
    apply np_mean_fmap_bounds; [done|].
    intros c Hc. apply list_elem_of_lookup in Hc as [k Hk].
    rewrite Hval by by apply (elem_of_valid_positions_set k).
    rewrite total_np_sum.
    replace 0%R with (INR (length antennas) * 0)%R by lra.
    apply np_sum_fmap_bounds. intros e _. by apply emitter_gain_bounds. }
  set (K := INR (length antennas)) in *.
  assert (0 <= rw * repulsion_score antennas <= rw * (K * (K - 1)))%R.
  { split; [apply Rmult_le_pos; lra|apply Rmult_le_compat_l; lra]. }
  lra.
Qed.

Lemma fitness_bounds_witness :
  ∃ f, compute_coverage [(1, 1); (3, 5)] default_repulsion_weight
         default_critical_zone_weight = Some f
    ∧ (- (default_repulsion_weight
          * (INR (length [(1, 1); (3, 5)])
             * (INR (length [(1, 1); (3, 5)]) - 1))) <= f
       <= INR (length [(1, 1); (3, 5)])
          * (1 + default_critical_zone_weight))%R.
Proof.
  apply (fitness_bounds [(1, 1); (3, 5)] default_repulsion_weight
           default_critical_zone_weight).
  - unfold default_repulsion_weight. lra.
  - unfold default_critical_zone_weight. lra.
Defined.

Lemma total_ge_elem {A} (g : A → R) (l : list A) (e : A) :
  (∀ a, 0 <= g a)%R → e ∈ l → (g e <= total Rplus 0%R g l)%R.
Proof.
  intros Hg. induction l as [|a l IH]; intros He.
  - by apply elem_of_nil in He.
  - change (total Rplus 0%R g (a :: l)) with (g a + total Rplus 0%R g l)%R.
    pose proof (total_nonneg g l Hg). pose proof (Hg a).
    apply elem_of_cons in He as [->|He]; [lra|]. specialize (IH He). lra.
Qed.

Lemma emitter_gain_self (czw : R) (e : coord) :
  (0 <= czw)%R → (1 <= emitter_gain czw e e)%R.
Proof.
  intros Hczw. unfold emitter_gain, reaches.
  rewrite !Z.sub_diag. rewrite (bool_decide_eq_true_2 (-4 <= 0 < 5)) by lia.
  cbn [andb]. rewrite euclidean_self.
  replace (- 0 / signalrange)%R with 0%R by (unfold Rdiv; ring).
  rewrite exp_0. case_bool_decide; lra.
Qed.

Lemma repulsion_score_single (c : coord) : repulsion_score [c] = 0%R.
Proof.
  rewrite repulsion_score_ordered_pairs.
  unfold ordered_pairs_sum, np_sum, pair_term. simpl. lra.
Qed.

(** X7. An antenna on a FREE cell is never worthless: with a non-negative
    critical-zone weight, in any placement that contains it, its own cell
    holds at least 1 and the coverage score is at least 1 over the number
    of FREE cells; alone, it has no repulsion penalty and its fitness is at
    least that much, whatever the repulsion weight. *)
Theorem antenna_on_free_cell_scores (e : coord) (czw : R) :
  (0 <= czw)%R → e ∈ valid_set →
  (∀ antennas, e ∈ antennas →
     ∃ cm, coverage_map antennas czw = Some cm
       ∧ (1 <= cell cm e)%R
       ∧ (1 / INR (length valid_positions) <= coverage_score cm)%R)
  ∧ (∀ rw, ∃ f, compute_coverage [e] rw czw = Some f
       ∧ repulsion_score [e] = 0%R
       ∧ (0 < 1 / INR (length valid_positions) <= f)%R).
Proof.
  intros Hczw He.
  assert (0 < INR (length valid_positions))%R as Hlen.
  { apply lt_0_INR. vm_compute. lia. }
  assert (∀ antennas, e ∈ antennas →
     ∃ cm, coverage_map antennas czw = Some cm
       ∧ (1 <= cell cm e)%R
       ∧ (1 / INR (length valid_positions) <= coverage_score cm)%R) as Hgen.
  { intros antennas Hin.
    destruct (coverage_map_spec antennas czw) as (cm & Hcm & Hsh & Hval).
    exists cm. split; [done|].
    assert (∀ c, c ∈ valid_set → 0 <= cell cm c)%R as Hpos.
    { intros c Hc. rewrite Hval by done. apply total_nonneg.
      intros a. by apply emitter_gain_bounds. }
    assert (1 <= cell cm e)%R as Hself.
    { rewrite Hval by done.
      etrans; [by apply emitter_gain_self|].
      apply total_ge_elem; [|done]. intros a. by apply emitter_gain_bounds. }
    split; [done|].
    rewrite coverage_score_valid_positions by done.
    apply Rmult_le_compat_r; [left; by apply Rinv_0_lt_compat|].
    etrans; [exact Hself|]. rewrite <- total_np_sum.
    apply (total_ge_elem (cell cm)).
    - intros c. apply (cell_all_cells (λ v, 0 <= v)%R); [lra|].
      destruct (coverage_map_inv (λ v, 0 <= v)%R czw) with (antennas := antennas)
        as (cm' & Hcm' & _ & Hall); [intros; lra|intros; lra|lra|].
      rewrite Hcm in Hcm'. by injection Hcm' as <-.
    - unfold valid_set in He. by apply elem_of_list_to_set in He. }
  split; [done|]. intros rw.
  destruct (Hgen [e]) as (cm & Hcm & _ & Hscore); [by left|].
  unfold compute_coverage. rewrite Hcm. cbn [mbind option_bind].
  eexists. split; [done|]. split; [apply repulsion_score_single|].
  rewrite repulsion_score_single.
  assert (0 < 1 / INR (length valid_positions))%R
    by (apply Rdiv_lt_0_compat; lra).
  lra.
Qed.

Lemma antenna_on_free_cell_scores_witness :
  (∀ antennas, (1, 1) ∈ antennas →
     ∃ cm, coverage_map antennas default_critical_zone_weight = Some cm
       ∧ Rle 1 (cell cm (1, 1))
       ∧ (1 / INR (length valid_positions) <= coverage_score cm)%R)
  ∧ (∀ rw, ∃ f, compute_coverage [(1, 1)] rw default_critical_zone_weight
                = Some f
       ∧ repulsion_score [(1, 1)] = 0%R
       ∧ (0 < 1 / INR (length valid_positions) <= f)%R).
Proof.
  apply (antenna_on_free_cell_scores (1, 1) default_critical_zone_weight).
  - unfold default_critical_zone_weight. lra.
  - by vm_compute.
Defined.

(** X8. The test [distance < 8] of line 68 never rejects a cell: inside the
    9x9 window the distance is below 8 (it is at most the square root of
    32), so the evaluator computes the same map with the test left out. *)
Theorem distance_test_never_rejects :
  (∀ i j, i ∈ py_range (-4) 5 → j ∈ py_range (-4) 5 →
     (sqrt (IZR (i ^ 2 + j ^ 2)) <= sqrt 32 < 8)%R)
  ∧ (∀ cz czw x y i j cm, i ∈ py_range (-4) 5 → j ∈ py_range (-4) 5 →
       propagate cz czw x y i j cm = propagate_window cz czw x y i j cm)
  ∧ (∀ antennas czw,
       coverage_map antennas czw = coverage_map_window antennas czw).
Proof.
  split; [|split].
  - intros i j Hi%elem_of_py_range Hj%elem_of_py_range. split.
    + apply sqrt_le_1_alt. apply (IZR_le _ 32). nia.
    + replace 8%R with (sqrt 64).
      * apply sqrt_lt_1_alt. lra.
      * replace 64%R with (8 * 8)%R by lra. apply sqrt_square. lra.
  - intros cz czw x y i j cm Hi%elem_of_py_range Hj%elem_of_py_range.
    by apply propagate_window_eq.
  - apply coverage_map_window_eq.
Qed.

(** ** The choice of the Global Best *)

Lemma first_max_snoc_new (pre : list R) (bi : nat) (b x : R) :
  first_max pre bi b → (b < x)%R → first_max (pre ++ [x]) (length pre) x.
Proof.
  intros (Hbi & Hub & Hfirst) Hlt.
  assert (∀ j y, pre !! j = Some y → (y < x)%R) as Hpre.
  { intros j y Hy. specialize (Hub j y Hy). lra. }
  split; [|split].
  - rewrite lookup_app_r by done. by rewrite Nat.sub_diag.
  - intros j y Hy. apply lookup_app_Some in Hy as [Hy|[_ Hy]].
    + left. by eapply Hpre.
    + apply list_lookup_singleton_Some in Hy as [_ <-]. lra.
  - intros j y Hj Hy. rewrite lookup_app_l in Hy by done. by eapply Hpre.
Qed.

Lemma first_max_snoc_old (pre : list R) (bi : nat) (b x : R) :
  first_max pre bi b → ¬ (b < x)%R → first_max (pre ++ [x]) bi b.
Proof.
  intros (Hbi & Hub & Hfirst) Hge.
  pose proof (lookup_lt_Some _ _ _ Hbi) as Hlen.
  split; [|split].
  - by rewrite lookup_app_l.
  - intros j y Hy. apply lookup_app_Some in Hy as [Hy|[_ Hy]].
    + by eapply Hub.
    + apply list_lookup_singleton_Some in Hy as [_ <-]. lra.
  - intros j y Hj Hy. rewrite lookup_app_l in Hy by lia. by eapply Hfirst.
Qed.

Lemma argmax_from_first_max (v pre : list R) (bi : nat) (b : R) :
  first_max pre bi b →
  first_max (pre ++ v) (argmax_from bi b (length pre) v) (foldl Rmax b v).
Proof.
  revert pre bi b. induction v as [|x v IH]; intros pre bi b Hpre.
  - by rewrite app_nil_r.
  - cbn [argmax_from foldl].
    replace (pre ++ x :: v) with ((pre ++ [x]) ++ v) by by rewrite <- app_assoc.
    replace (S (length pre)) with (length (pre ++ [x]))
      by (rewrite length_app; simpl; lia).
    destruct (Rlt_dec b x) as [Hlt|Hge].
    + rewrite Rmax_right by lra.
      apply IH. by eapply first_max_snoc_new.
    + rewrite Rmax_left by lra. apply IH. by apply first_max_snoc_old.
Qed.

Lemma np_argmax_first_max (v : list R) :
  v ≠ [] →
  ∃ m k, np_max v = Some m ∧ np_argmax v = Some k ∧ first_max v k m.
Proof.
  destruct v as [|x v]; [done|]. intros _.
  exists (foldl Rmax x v), (argmax_from 0 x 1 v).
  split; [done|]. split; [done|].
  apply (argmax_from_first_max v [x] 0 x).
  split; [done|]. split.
  - intros [|j] y Hy; [|done]. injection Hy as <-. lra.
  - intros j y Hj. lia.
Qed.

Lemma update_best_spec_first_max (fitness : list R) (s : swarm) :
  fitness ≠ [] → length (particles s) = length fitness →
  ∃ m k p, np_max fitness = Some m ∧ first_max fitness k m
    ∧ particles s !! k = Some p
    ∧ update_best fitness s
      = Some (if exceeds m (best_fitness s) then (Fitness m, Some p)
              else (best_fitness s, global_best s)).
Proof.
  intros Hne Hlen.
  destruct (np_argmax_first_max fitness Hne) as (m & k & Hm & Hk & Hfirst).
  destruct (lookup_lt_is_Some_2 (particles s) k) as [p Hp].
  { rewrite Hlen. destruct Hfirst as [Hfk _]. by eapply lookup_lt_Some. }
  exists m, k, p. do 3 (split; [done|]).
  unfold update_best. rewrite Hm. cbn [mbind option_bind].
  destruct (exceeds m (best_fitness s)); [|done].
  rewrite Hk. cbn [mbind option_bind]. by rewrite Hp.
Qed.

(** X9. Lines 175-177 on a non-empty fitness vector never raise.  The
    incumbent changes only when the maximum of the vector is strictly
    above it (a tie keeps the old Global Best), and then the new Global
    Best is the first particle, in population order, whose fitness is the
    maximum. *)
Theorem update_best_takes_first_maximum (fitness : list R) (s : swarm) :
  fitness ≠ [] → length (particles s) = length fitness →
  ∃ m k p,
    fitness !! k = Some m
    ∧ (∀ j y, fitness !! j = Some y → (y <= m)%R)
    ∧ (∀ j y, (j < k)%nat → fitness !! j = Some y → (y < m)%R)
    ∧ particles s !! k = Some p
    ∧ update_best fitness s
      = Some (match best_fitness s with
              | NegInf => (Fitness m, Some p)
              | Fitness b =>
                  if Rlt_dec b m then (Fitness m, Some p)
                  else (Fitness b, global_best s)
              end).
Proof.
  intros Hne Hlen.
  destruct (update_best_spec_first_max fitness s Hne Hlen)
    as (m & k & p & _ & (Hk & Hub & Hfirst) & Hp & Hupd).
  exists m, k, p. do 4 (split; [done|]).
  rewrite Hupd. unfold exceeds.
  destruct (best_fitness s) as [|b]; [done|]. by destruct (Rlt_dec b m).
Qed.

Lemma update_best_takes_first_maximum_witness :
  ∃ m k p,
    [1; 3; 3]%R !! k = Some m
    ∧ (∀ j y, [1; 3; 3]%R !! j = Some y → (y <= m)%R)
    ∧ (∀ j y, (j < k)%nat → [1; 3; 3]%R !! j = Some y → (y < m)%R)
    ∧ [[(1, 1)]; [(1, 2)]; [(1, 3)]] !! k = Some p
    ∧ update_best [1; 3; 3]%R
        {| particles := [[(1, 1)]; [(1, 2)]; [(1, 3)]];
           velocity := [[(0, 0)%R]; [(0, 0)%R]; [(0, 0)%R]];
           global_best := None;
           best_fitness := NegInf;
           fitness_history := [] |}
      = Some (Fitness m, Some p).
Proof.
  apply (update_best_takes_first_maximum [1; 3; 3]%R
           {| particles := [[(1, 1)]; [(1, 2)]; [(1, 3)]];
              velocity := [[(0, 0)%R]; [(0, 0)%R]; [(0, 0)%R]];
              global_best := None;
              best_fitness := NegInf;
              fitness_history := [] |}).
  - done.
  - reflexivity.
Defined.

(** ** The incumbent and the Global Best along the run *)

Lemma fitness_lookup (ps : list (list coord)) (fitness : list R) k p f :
  mapM (λ p, compute_coverage p default_repulsion_weight
               default_critical_zone_weight) ps = Some fitness →
  ps !! k = Some p → fitness !! k = Some f → fitness_of p = Some f.
Proof.
  intros Hfit%mapM_Some_1 Hp Hf.
  by apply (Forall2_lookup_lr _ _ _ _ _ _ Hfit Hp Hf).
Qed.

Lemma fitness_lookup_inv (ps : list (list coord)) (fitness : list R) p f :
  mapM (λ p, compute_coverage p default_repulsion_weight
               default_critical_zone_weight) ps = Some fitness →
  p ∈ ps → fitness_of p = Some f → ∃ j, fitness !! j = Some f.
Proof.
  intros Hfit%mapM_Some_1 [j Hj]%list_elem_of_lookup Hf.
  destruct (Forall2_lookup_l _ _ _ _ _ Hfit Hj) as (f' & Hf' & Hpf).
  exists j. unfold fitness_of in Hf. rewrite Hf in Hpf. by injection Hpf as ->.
Qed.

(** One pass, from a state of the run. *)
Lemma pso_step_run_inv N K s0 t r1 r2 s :
  (1 <= N)%nat → global_best s0 = None →
  run_inv N K s0 t s →
  ∃ s', pso_step N K r1 r2 s = Some s' ∧ run_inv N K s0 (S t) s'
    ∧ particles s' =
        default [] (repair N K (particles s)
                      (round_positions (particles s) (velocity s')))
    ∧ ∀ p f, p ∈ particles s → fitness_of p = Some f →
        inc_le (Fitness f) (best_fitness s').
Proof.
  intros HN Hs0 (Hinv & Hzero & Hpos).
  destruct (pso_step_spec N K t r1 r2 s HN Hinv) as (s' & Hstep & Hinv' & _).
  exists s'. split; [done|].
  pose proof Hinv as (Hps & Hvel & Hvalid & Hnone & _).
  unfold pso_step in Hstep.
  destruct (mapM _ (particles s)) as [fitness|] eqn:Hfit; [|done].
  cbn [mbind option_bind] in Hstep.
  assert (length fitness = N) as Hlen.
  { apply length_mapM in Hfit. destruct Hps as [HlenN _]. lia. }
  destruct (update_best_spec_first_max fitness s)
    as (m & k & p & Hm & (Hk & Hub & _) & Hp & Hupd).
  { intros ->. simpl in Hlen. lia. }
  { destruct Hps as [HlenN _]. lia. }
  rewrite Hupd in Hstep.
  pose proof (fitness_lookup _ _ _ _ _ Hfit Hp Hk) as Hfp.
  (* the incumbent and the Global Best after the update *)
  assert (∃ g b, (if exceeds m (best_fitness s) then (Fitness m, Some p)
                  else (best_fitness s, global_best s)) = (Fitness b, Some g)
            ∧ fitness_of g = Some b ∧ length g = K
            ∧ Forall (λ c, c ∈ valid_set) g ∧ (m <= b)%R) as Hbest.
  { destruct (exceeds m (best_fitness s)) eqn:Hex.
    - exists p, m. split; [done|]. split; [done|].
      split; [|split; [|lra]].
      + destruct Hps as [_ Hrows]. by apply (Forall_lookup_1 _ _ _ _ Hrows Hp).
      + by apply (Forall_lookup_1 _ _ _ _ Hvalid Hp).
    - destruct (decide (t = 0%nat)) as [->|Ht].
      + rewrite (Hzero eq_refl) in Hnone, Hex. rewrite (Hnone Hs0) in Hex. done.
      + destruct Hpos as ((g & b & Hg & Hb & Hgb & HgK & Hgv) & _); [lia|].
        exists g, b. rewrite Hg, Hb. split; [done|]. split; [done|].
        split; [done|]. split; [done|].
        rewrite Hb in Hex. simpl in Hex. destruct (Rlt_dec b m); [done|lra]. }
  destruct Hbest as (g & b & Hpair & Hgb & HgK & Hgv & Hmb).
  rewrite Hpair in Hstep. cbn [mbind option_bind] in Hstep.
  destruct (repair N K (particles s) _) as [rep|] eqn:Hrep; [|done].
  injection Hstep as <-.
  cbn [particles velocity global_best best_fitness fitness_history] in *.
  assert (∀ q f, q ∈ particles s → fitness_of q = Some f →
            inc_le (Fitness f) (Fitness b)) as Hdom.
  { intros q f Hq Hf.
    destruct (fitness_lookup_inv _ _ _ _ Hfit Hq Hf) as [j Hj].
    specialize (Hub j f Hj). simpl. lra. }
  split; [|split; [by rewrite Hrep|done]].
  split; [done|]. split; [done|]. intros _.
  split; [by exists g, b|].
  cbn [particles velocity global_best best_fitness fitness_history].
  split; [by rewrite last_snoc|]. split.
  - apply Forall_app. split; [|repeat constructor; by exists b].
    destruct (decide (t = 0%nat)) as [->|Ht].
    + rewrite (Hzero eq_refl). destruct Hinv as (_ & _ & _ & _ & _ & Hh & _).
      rewrite (Hzero eq_refl) in Hh. by apply nil_length_inv in Hh as ->.
    + by destruct Hpos as (_ & _ & Hfin & _); [lia|].
  - intros q f Hq Hf. destruct (decide (t = 0%nat)) as [->|Ht].
    + apply (Hdom q f); [by rewrite (Hzero eq_refl)|done].
    + destruct Hpos as ((g0 & b0 & Hg0 & Hb0 & _) & _ & _ & Hold); [lia|].
      specialize (Hold q f Hq Hf). rewrite Hb0 in Hold.
      destruct Hinv' as (_ & _ & _ & _ & _ & _ & _ & Hbound).
      cbn [best_fitness fitness_history] in Hbound.
      (* the incumbent never decreases *)
      assert (inc_le (best_fitness s) (Fitness b)) as Hmono.
      { rewrite Hb0. destruct (exceeds m (best_fitness s)) eqn:Hex.
        - injection Hpair as <- _. apply exceeds_inc_le. by rewrite <- Hb0.
        - injection Hpair as Hbb _. rewrite Hb0 in Hbb. injection Hbb as <-.
          simpl. lra. }
      rewrite Hb0 in Hmono. by eapply inc_le_trans.
Qed.

Lemma pso_loop_run_inv N K T rand s0 :
  (1 <= N)%nat → global_best s0 = None → swarm_inv N K 0 s0 →
  ∃ s, pso_loop N K T rand s0 = Some s ∧ run_inv N K s0 T s.
Proof.
  intros HN Hs0 Hinv. unfold pso_loop.
  destruct (for_loop_prefix_invariant (λ pre s, run_inv N K s0 (length pre) s)
              (seq 0 T)
              (λ t s, pso_step N K (rand t).1 (rand t).2 s) s0)
    as (s & Hloop & Hrun).
  - split; [done|]. split; [done|]. simpl. lia.
  - intros pre t suf u _ Hu.
    destruct (pso_step_run_inv N K s0 (length pre) (rand t).1 (rand t).2 u
                HN Hs0 Hu) as (u' & Hu' & Hrun' & _).
    exists u'. split; [done|]. rewrite length_app. simpl.
    by rewrite Nat.add_1_r.
  - exists s. split; [done|]. by rewrite length_seq in Hrun.
Qed.

(** X10. After at least one pass the optimizer reports a consistent
    result: there is a Global Best, it is a placement of K FREE cells, the
    incumbent is exactly its fitness and is the last entry of the history,
    and no entry of the history is the initial [-np.inf]. *)
Theorem global_best_has_the_best_fitness N K T choice rand :
  (1 <= N)%nat → has_shape N K choice →
  all_cells (λ k, k < length valid_positions)%nat choice →
  ∃ s g f,
    optimize N K (S T) choice rand = Some s
    ∧ global_best s = Some g ∧ best_fitness s = Fitness f
    ∧ compute_coverage g default_repulsion_weight
        default_critical_zone_weight = Some f
    ∧ length g = K ∧ Forall (λ c, c ∈ valid_set) g
    ∧ last (fitness_history s) = Some (Fitness f)
    ∧ Forall (λ h, ∃ x, h = Fitness x) (fitness_history s).
Proof.
  intros HN Hshape Hidx. unfold optimize.
  destruct (init_swarm_spec N K choice Hshape Hidx)
    as (s0 & -> & Hinv0 & Hg0 & _).
  cbn [mbind option_bind].
  destruct (pso_loop_run_inv N K (S T) rand s0 HN Hg0 Hinv0)
    as (s & Hs & _ & _ & Hpos).
  destruct Hpos as ((g & f & Hg & Hf & Hgf & HgK & Hgv) & Hlast & Hfin & _);
    [lia|].
  exists s, g, f. do 6 (split; [done|]). split; [by rewrite Hlast, Hf|done].
Qed.

Lemma global_best_has_the_best_fitness_witness :
  ∃ s g f,
    script (replicate 80 (replicate 7 0%nat)) (λ _, (1 / 2, 1 / 4)%R) = Some s
    ∧ global_best s = Some g ∧ best_fitness s = Fitness f
    ∧ compute_coverage g default_repulsion_weight
        default_critical_zone_weight = Some f
    ∧ length g = 7%nat ∧ Forall (λ c, c ∈ valid_set) g
    ∧ last (fitness_history s) = Some (Fitness f)
    ∧ Forall (λ h, ∃ x, h = Fitness x) (fitness_history s).
Proof.
  apply (global_best_has_the_best_fitness 80 7 99
           (replicate 80 (replicate 7 0%nat)) (λ _, (1 / 2, 1 / 4)%R)).
  - lia.
  - split; [reflexivity|]. apply Forall_replicate. reflexivity.
  - apply Forall_replicate, Forall_replicate. vm_compute. lia.
Defined.

(** X11. The reported fitness is never below what the optimizer started
    from: after at least one pass the incumbent is at least the fitness of
    every particle of the initial swarm. *)
Theorem best_fitness_dominates_initial_swarm N K T choice rand :
  (1 <= N)%nat → has_shape N K choice →
  all_cells (λ k, k < length valid_positions)%nat choice →
  ∃ s0 s f,
    init_swarm choice = Some s0
    ∧ optimize N K (S T) choice rand = Some s
    ∧ best_fitness s = Fitness f
    ∧ ∀ p, p ∈ particles s0 →
        ∃ fp, compute_coverage p default_repulsion_weight
                default_critical_zone_weight = Some fp
              ∧ (fp <= f)%R.
Proof.
  intros HN Hshape Hidx. unfold optimize.
  destruct (init_swarm_spec N K choice Hshape Hidx)
    as (s0 & Hs0 & Hinv0 & Hg0 & _).
  rewrite Hs0. cbn [mbind option_bind].
  destruct (pso_loop_run_inv N K (S T) rand s0 HN Hg0 Hinv0)
    as (s & Hs & _ & _ & Hpos).
  destruct Hpos as ((g & f & _ & Hf & _) & _ & _ & Hdom); [lia|].
  exists s0, s, f. do 3 (split; [done|]).
  intros p Hp.
  destruct (compute_coverage_total p default_repulsion_weight
              default_critical_zone_weight) as [fp Hfp].
  exists fp. split; [done|].
  specialize (Hdom p fp Hp Hfp). by rewrite Hf in Hdom.
Qed.

Lemma best_fitness_dominates_initial_swarm_witness :
  ∃ s0 s f,
    init_swarm (replicate 80 (replicate 7 0%nat)) = Some s0
    ∧ script (replicate 80 (replicate 7 0%nat)) (λ _, (1 / 2, 1 / 4)%R)
      = Some s
    ∧ best_fitness s = Fitness f
    ∧ ∀ p, p ∈ particles s0 →
        ∃ fp, compute_coverage p default_repulsion_weight
                default_critical_zone_weight = Some fp
              ∧ (fp <= f)%R.
Proof.
  apply (best_fitness_dominates_initial_swarm 80 7 99
           (replicate 80 (replicate 7 0%nat)) (λ _, (1 / 2, 1 / 4)%R)).
  - lia.
  - split; [reflexivity|]. apply Forall_replicate. reflexivity.
  - apply Forall_replicate, Forall_replicate. vm_compute. lia.
Defined.

(** ** A swarm of one particle *)

Lemma np_round_IZR (z : Z) : np_round (IZR z + 0) = z.
Proof.
  unfold np_round. rewrite Rplus_0_r.
  assert (Int_part (IZR z) = z) as ->.
  { symmetry. apply Int_part_spec. lra. }
  destruct (Rlt_dec _ _) as [_|Hge]; [done|]. lra.
Qed.

Lemma velocity_component_at_rest r1 r2 (p : Z) :
  velocity_component r1 r2 0 p p = 0%R.
Proof. unfold velocity_component. rewrite Z.sub_diag. ring. Qed.

(** A particle at rest on the Global Best keeps a zero velocity. *)
Lemma update_velocity_at_rest r1 r2 (p : list coord) :
  update_velocity r1 r2 [(λ _ : coord, (0, 0)%R) <$> p] [p] p
  = [(λ _ : coord, (0, 0)%R) <$> p].
Proof.
  unfold update_velocity. cbn [zip_with]. f_equal.
  induction p as [|[px py] p IH]; [done|].
  rewrite fmap_cons. cbn [zip zip_with]. fold (zip p p).
  rewrite !velocity_component_at_rest. f_equal. apply IH.
Qed.

Lemma round_positions_at_rest (p : list coord) :
  round_positions [p] [(λ _ : coord, (0, 0)%R) <$> p] = [p].
Proof.
  unfold round_positions. cbn [zip_with]. f_equal.
  induction p as [|[px py] p IH]; [done|].
  rewrite fmap_cons. cbn [zip_with]. rewrite !np_round_IZR. f_equal. apply IH.
Qed.

(** Two arrays of one shape with the same cells are equal. *)
Lemma array_eq {A} h w (a b : list (list A)) :
  has_shape h w a → has_shape h w b →
  (∀ x y, 0 <= x < Z.of_nat h → 0 <= y < Z.of_nat w →
     np_get a x y = np_get b x y) →
  a = b.
Proof.
  intros [Ha Hra] [Hb Hrb] Hget. apply list_eq. intros i.
  destruct (a !! i) as [ra|] eqn:Hia.
  - pose proof (lookup_lt_Some _ _ _ Hia) as Hi.
    destruct (lookup_lt_is_Some_2 b i) as [rb Hib]; [lia|].
    rewrite Hib. f_equal. apply list_eq. intros j.
    pose proof (Forall_lookup_1 _ _ _ _ Hra Hia) as Hlra.
    pose proof (Forall_lookup_1 _ _ _ _ Hrb Hib) as Hlrb. simpl in Hlra, Hlrb.
    destruct (ra !! j) as [v|] eqn:Hja.
    + pose proof (lookup_lt_Some _ _ _ Hja) as Hj.
      destruct (lookup_lt_is_Some_2 rb j) as [u Hjb]; [lia|].
      rewrite Hjb.
      rewrite <- (np_get_lookup a i j ra v Hia Hja).
      rewrite <- (np_get_lookup b i j rb u Hib Hjb).
      apply Hget; lia.
    + symmetry. apply lookup_ge_None. apply lookup_ge_None in Hja. lia.
  - symmetry. apply lookup_ge_None. apply lookup_ge_None in Hia. lia.
Qed.

(** The repair of a swarm that has not moved changes nothing. *)
Lemma repair_unmoved N K (ps : list (list coord)) :
  has_shape N K ps → repair N K ps ps = Some ps.
Proof.
  intros Hps.
  destruct (repair_spec N K ps ps Hps Hps) as (np & -> & Hnp & Hcells).
  f_equal. apply (array_eq N K); [done..|].
  intros x y Hx Hy. rewrite Hcells by done. unfold repaired_cell.
  destruct (np_get ps x y) as [c|]; [simpl|done]. by case_bool_decide.
Qed.

Lemma pso_step_single_particle K r1 r2 (p : list coord) (f : R)
    (best : incumbent) (gbest : option (list coord)) (hist : list incumbent) :
  length p = K → fitness_of p = Some f →
  (best = NegInf ∨ best = Fitness f ∧ gbest = Some p) →
  pso_step 1 K r1 r2
    {| particles := [p];
       velocity := [(λ _ : coord, (0, 0)%R) <$> p];
       global_best := gbest;
       best_fitness := best;
       fitness_history := hist |}
  = Some {| particles := [p];
            velocity := [(λ _ : coord, (0, 0)%R) <$> p];
            global_best := Some p;
            best_fitness := Fitness f;
            fitness_history := hist ++ [Fitness f] |}.
Proof.
  intros HK Hf Hbest. unfold fitness_of in Hf. unfold pso_step.
  cbn [particles velocity global_best best_fitness fitness_history].
  cbn [mapM]. rewrite Hf. cbn [mbind option_bind mret option_ret].
  assert (update_best [f]
            {| particles := [p];
               velocity := [(λ _ : coord, (0, 0)%R) <$> p];
               global_best := gbest;
               best_fitness := best;
               fitness_history := hist |}
          = Some (Fitness f, Some p)) as ->.
  { unfold update_best. cbn.
    destruct Hbest as [->|[-> ->]]; [done|].
    cbn. destruct (Rlt_dec f f) as [Hlt|_]; [lra|done]. }
  cbn [mbind option_bind].
  rewrite update_velocity_at_rest, round_positions_at_rest.
  rewrite repair_unmoved; [done|].
  split; [done|]. by repeat constructor.
Qed.

(** X12. A swarm of a single particle never moves: the particle is its
    own Global Best, so its velocity stays zero, the rounded position is
    the position, and the repair changes nothing.  After any number of
    passes the Global Best is the initial placement and every entry of the
    history is its fitness. *)
Theorem single_particle_swarm_stays_put K T (row : list nat) rand :
  length row = K → Forall (λ k, k < length valid_positions)%nat row →
  ∃ p f,
    mapM (λ k, valid_positions !! k) row = Some p
    ∧ compute_coverage p default_repulsion_weight
        default_critical_zone_weight = Some f
    ∧ optimize 1 K (S T) [row] rand
      = Some {| particles := [p];
                velocity := [(λ _ : coord, (0, 0)%R) <$> p];
                global_best := Some p;
                best_fitness := Fitness f;
                fitness_history := replicate (S T) (Fitness f) |}.
Proof.
  intros HK Hidx.
  destruct (mapM_total (λ k, valid_positions !! k) (λ _, True) row)
    as (p & Hp & Hlen & _).
  { eapply Forall_impl; [exact Hidx|]. intros k Hk.
    destruct (lookup_lt_is_Some_2 valid_positions k Hk) as [c Hc]. by exists c. }
  destruct (compute_coverage_total p default_repulsion_weight
              default_critical_zone_weight) as [f Hf].
  exists p, f. split; [done|]. split; [done|].
  unfold optimize, init_swarm, init_particles. cbn [mapM]. rewrite Hp.
  cbn [mbind option_bind mret option_ret fmap list_fmap]. unfold pso_loop.
  assert (length p = K) as HpK by lia.
  (* the first pass, then the others *)
  assert (∀ n t (hist : list incumbent) best gbest,
            (best = NegInf ∨ best = Fitness f ∧ gbest = Some p) →
            for_loop (seq t (S n))
              (λ t s, pso_step 1 K (rand t).1 (rand t).2 s)
              {| particles := [p];
                 velocity := [(λ _ : coord, (0, 0)%R) <$> p];
                 global_best := gbest;
                 best_fitness := best;
                 fitness_history := hist |}
            = Some {| particles := [p];
                      velocity := [(λ _ : coord, (0, 0)%R) <$> p];
                      global_best := Some p;
                      best_fitness := Fitness f;
                      fitness_history := hist ++ replicate (S n) (Fitness f) |})
    as Hloop.
  { induction n as [|n IH]; intros t hist best gbest Hbest.
    - cbn [seq for_loop].
      rewrite (pso_step_single_particle K _ _ p f best gbest hist HpK Hf Hbest).
      done.
    - change (seq t (S (S n))) with (t :: seq (S t) (S n)). cbn [for_loop].
      rewrite (pso_step_single_particle K _ _ p f best gbest hist HpK Hf Hbest).
      cbn [mbind option_bind]. rewrite IH by (right; done).
      rewrite <- app_assoc. done. }
  rewrite (Hloop T 0%nat [] NegInf None) by by left. done.
Qed.

Lemma single_particle_swarm_stays_put_witness :
  ∃ p f,
    mapM (λ k, valid_positions !! k) (replicate 7 0%nat) = Some p
    ∧ compute_coverage p default_repulsion_weight
        default_critical_zone_weight = Some f
    ∧ optimize 1 7 (S 99) [replicate 7 0%nat] (λ _, (1 / 2, 1 / 4)%R)
      = Some {| particles := [p];
                velocity := [(λ _ : coord, (0, 0)%R) <$> p];
                global_best := Some p;
                best_fitness := Fitness f;
                fitness_history := replicate (S 99) (Fitness f) |}.
Proof.
  apply (single_particle_swarm_stays_put 7 99 (replicate 7 0%nat)
           (λ _, (1 / 2, 1 / 4)%R)).
  - reflexivity.
  - apply Forall_replicate. vm_compute. lia.
Defined.

(** ** The whole script *)

Lemma report_spec (K : nat) (s : swarm) :
  best_inv K s →
  ∃ g hm om,
    global_best s = Some g
    ∧ plot_coverage_heatmap warehouse_map g = Some hm
    ∧ plot_coverage_overlap warehouse_map g = Some om
    ∧ report s = Some (hm, om, fitness_history s)
    ∧ has_shape 6 10 hm ∧ has_shape 6 10 om.
Proof.
  intros (g & f & Hg & _).
  destruct (plot_coverage_heatmap_spec warehouse_map 6 10 g shape_warehouse_map)
    as (hm & Hhm & Hshm & _).
  destruct (plot_coverage_overlap_spec warehouse_map 6 10 g shape_warehouse_map)
    as (om & Hom & Hsom & _).
  exists g, hm, om. unfold report. rewrite Hg. cbn [mbind option_bind].
  rewrite Hhm. cbn [mbind option_bind]. rewrite Hom. done.
Qed.

(** X13. The script as a whole: with at least one particle and at least
    one pass it runs to its end without raising and hands to the plots a
    6x10 heatmap and a 6x10 overlap map of the Global Best and a history of
    one entry per pass; with no pass at all it raises at the first plot,
    the Global Best being still [None]. *)
Theorem script_runs_to_the_plots N K T choice rand :
  (1 <= N)%nat → has_shape N K choice →
  all_cells (λ k, k < length valid_positions)%nat choice →
  (∃ s g hm om,
     optimize N K (S T) choice rand = Some s
     ∧ global_best s = Some g
     ∧ plot_coverage_heatmap warehouse_map g = Some hm
     ∧ plot_coverage_overlap warehouse_map g = Some om
     ∧ optimize_and_report N K (S T) choice rand
       = Some (hm, om, fitness_history s)
     ∧ has_shape 6 10 hm ∧ has_shape 6 10 om
     ∧ length (fitness_history s) = S T)
  ∧ optimize_and_report N K 0 choice rand = None.
Proof.
  intros HN Hshape Hidx.
  destruct (init_swarm_spec N K choice Hshape Hidx)
    as (s0 & Hs0 & Hinv0 & Hg0 & _).
  split.
  - destruct (pso_loop_run_inv N K (S T) rand s0 HN Hg0 Hinv0)
      as (s & Hs & Hinv & _ & Hpos).
    destruct Hpos as (Hbest & _); [lia|].
    destruct (report_spec K s Hbest)
      as (g & hm & om & Hg & Hhm & Hom & Hrep & Hshm & Hsom).
    exists s, g, hm, om.
    assert (optimize N K (S T) choice rand = Some s) as Hopt.
    { unfold optimize. by rewrite Hs0. }
    split; [done|]. do 3 (split; [done|]). split.
    { unfold optimize_and_report. by rewrite Hopt. }
    do 2 (split; [done|]).
    by destruct Hinv as (_ & _ & _ & _ & _ & Hlen & _).
  - unfold optimize_and_report, optimize, pso_loop. rewrite Hs0.
    cbn [mbind option_bind seq for_loop]. unfold report. by rewrite Hg0.
Qed.

Lemma script_runs_to_the_plots_witness :
  (∃ s g hm om,
     optimize 80 7 (S 99) (replicate 80 (replicate 7 0%nat))
       (λ _, (1 / 2, 1 / 4)%R) = Some s
     ∧ global_best s = Some g
     ∧ plot_coverage_heatmap warehouse_map g = Some hm
     ∧ plot_coverage_overlap warehouse_map g = Some om
     ∧ optimize_and_report 80 7 (S 99) (replicate 80 (replicate 7 0%nat))
         (λ _, (1 / 2, 1 / 4)%R)
       = Some (hm, om, fitness_history s)
     ∧ has_shape 6 10 hm ∧ has_shape 6 10 om
     ∧ length (fitness_history s) = S 99)
  ∧ optimize_and_report 80 7 0 (replicate 80 (replicate 7 0%nat))
      (λ _, (1 / 2, 1 / 4)%R) = None.
Proof.
  apply (script_runs_to_the_plots 80 7 99
           (replicate 80 (replicate 7 0%nat)) (λ _, (1 / 2, 1 / 4)%R)).
  - lia.
  - split; [reflexivity|]. apply Forall_replicate. reflexivity.
  - apply Forall_replicate, Forall_replicate. vm_compute. lia.
Defined.

(** ** The heatmap and the map of the evaluator, cell by cell *)

Lemma total_le {A} (g h : A → R) (l : list A) :
  (∀ a, g a <= h a)%R → (total Rplus 0%R g l <= total Rplus 0%R h l)%R.
Proof.
  intros Hgh. induction l as [|a l IH]; [simpl; lra|].
  change (total Rplus 0%R ?f (a :: l)) with (f a + total Rplus 0%R f l)%R.
  specialize (Hgh a). lra.
Qed.

Lemma decay_below_heatmap (d : R) :
  (0 <= d)%R → (exp (- d / signalrange) <= exp (- d / 2))%R.
Proof.
  intros Hd. destruct (Req_dec d 0) as [->|Hne].
  - right. f_equal. unfold Rdiv. ring.
  - left. apply exp_increasing. unfold signalrange. lra.
Qed.

Lemma total_lt {A} (g h : A → R) (l : list A) :
  (∀ a, g a <= h a)%R → (∃ e, e ∈ l ∧ (g e < h e)%R) →
  (total Rplus 0%R g l < total Rplus 0%R h l)%R.
Proof.
  intros Hgh (e & He & Hlt). induction l as [|a l IH].
  - by apply elem_of_nil in He.
  - change (total Rplus 0%R ?f (a :: l)) with (f a + total Rplus 0%R f l)%R.
    pose proof (Hgh a). pose proof (total_le g h l Hgh).
    apply elem_of_cons in He as [->|He]; [lra|]. specialize (IH He). lra.
Qed.

(** X14. The heatmap that is plotted and the map that the fitness is
    computed from are ordered cell by cell, for every placement: on a FREE
    cell that is not critical the map of the evaluator is at most the
    heatmap; on a critical cell that some antenna reaches it is strictly
    above the heatmap, when the critical-zone weight is at least 1. *)
Theorem heatmap_above_evaluator_off_critical_cells (antennas : list coord)
    (czw : R) :
  ∃ cm hm,
    coverage_map antennas czw = Some cm
    ∧ plot_coverage_heatmap warehouse_map antennas = Some hm
    ∧ (∀ c, c ∈ valid_set → c ∉ critical_cells →
         (cell cm c <= cell hm c)%R)
    ∧ ((1 <= czw)%R → ∀ c, c ∈ critical_cells →
         (∃ e, e ∈ antennas ∧ reaches e c = true) →
         (cell hm c < cell cm c)%R).
Proof.
  destruct (coverage_map_spec antennas czw) as (cm & Hcm & _ & Hcell).
  destruct (plot_coverage_heatmap_spec warehouse_map 6 10 antennas
              shape_warehouse_map) as (hm & Hhm & _ & _ & Hheat).
  exists cm, hm. do 2 (split; [done|]).
  assert (∀ c, c ∈ valid_set → free_cell warehouse_map c) as Hfree.
  { by intros c Hc%valid_set_free. }
  split.
  - intros c Hc Hcrit. rewrite Hcell, Hheat by auto.
    apply total_le. intros e. unfold emitter_gain, heatmap_gain.
    destruct (reaches e c); [|lra].
    rewrite bool_decide_eq_false_2 by done. rewrite Rplus_0_r.
    apply decay_below_heatmap, euclidean_nonneg.
  - intros Hczw c Hcrit (e & He & Hreach).
    assert (c ∈ valid_set) as Hc.
    { assert (Forall (λ c, c ∈ valid_set) critical_cells) as Hall
        by (apply (bool_decide_unpack _); by vm_compute).
      rewrite Forall_forall in Hall. by apply Hall. }
    rewrite Hcell, Hheat by auto.
    assert (∀ a, heatmap_gain c a <= emitter_gain czw c a
                 ∧ (reaches a c = true →
                    heatmap_gain c a < emitter_gain czw c a))%R as Hgain.
    { intros a. unfold emitter_gain, heatmap_gain.
      destruct (reaches a c); [|split; [lra|done]].
      rewrite bool_decide_eq_true_2 by done.
      pose proof (exp_pos (- euclidean c a / signalrange)).
      assert (exp (- euclidean c a / 2) <= 1)%R
        by (apply exp_neg_le_1; [apply euclidean_nonneg|lra]).
      split; [lra|intros _; lra]. }
    apply total_lt; [intros a; apply Hgain|].
    exists e. split; [done|]. by apply Hgain.
Qed.

(** ** A run in which the repair reverts a coordinate *)

Lemma valid_positions_eq :
  valid_positions
  = [(1, 1); (1, 2); (1, 3); (1, 5); (1, 6); (1, 7); (1, 8);
     (2, 1); (2, 3); (2, 5); (2, 8);
     (3, 1); (3, 2); (3, 3); (3, 4); (3, 5); (3, 6); (3, 7); (3, 8);
     (4, 1); (4, 2); (4, 3); (4, 5); (4, 6); (4, 7); (4, 8)].
Proof. vm_compute. reflexivity. Qed.

Lemma np_sum_fmap_le {A} (f g : A → R) (l : list A) :
  (∀ a, a ∈ l → (f a <= g a)%R) → (np_sum (f <$> l) <= np_sum (g <$> l))%R.
Proof.
  unfold np_sum. induction l as [|a l IH]; intros Hfg; [simpl; lra|].
  rewrite !fmap_cons. cbn [foldr].
  assert (f a <= g a)%R by (apply Hfg; by left).
  assert (foldr Rplus 0 (f <$> l) <= foldr Rplus 0 (g <$> l))%R
    by (apply IH; intros b Hb; apply Hfg; by right).
  lra.
Qed.

(** Away from the emitter the decay is below a third. *)
Lemma decay_far (c e : coord) :
  c ≠ e → (exp (- euclidean c e / signalrange) <= 1 / 3)%R.
Proof.
  intros Hne.
  assert (0 <= euclidean c e)%R as Hd by apply sqrt_pos.
  pose proof (euclidean_sqr c e) as Hsq.
  assert (1 <= (c.1 - e.1) * (c.1 - e.1) + (c.2 - e.2) * (c.2 - e.2)) as Hn.
  { destruct c as [cx cy], e as [ex ey]. cbn [fst snd].
    clear Hd Hsq.
    pose proof (Z.square_nonneg (cx - ex)).
    pose proof (Z.square_nonneg (cy - ey)).
    destruct (decide (cx = ex)) as [->|Hx].
    - destruct (decide (cy = ey)) as [->|Hy]; [done|].
      assert (1 <= (cy - ey) * (cy - ey)) by nia. lia.
    - assert (1 <= (cx - ex) * (cx - ex)) by nia. lia. }
  apply IZR_le in Hn. rewrite <- Hsq in Hn.
  assert (1 <= euclidean c e)%R as Hone by nra.
  set (x := (euclidean c e / signalrange)%R).
  assert (2 < x)%R as Hx.
  { unfold x, signalrange.
    apply (Rmult_lt_reg_r (46 / 100)); [lra|].
    replace (euclidean c e / (46 / 100) * (46 / 100))%R with (euclidean c e)
      by (field; lra).
    lra. }
  replace (- euclidean c e / signalrange)%R with (- x)%R
    by (unfold x, Rdiv; ring).
  assert (1 + x < exp x)%R by (apply exp_ineq1; lra).
  assert (exp (- x) * exp x = 1)%R as Hinv.
  { rewrite <- exp_plus. replace (- x + x)%R with 0%R by ring. apply exp_0. }
  pose proof (exp_pos (- x)). nra.
Qed.

Lemma emitter_gain_between (czw : R) (c e : coord) :
  (gain_bound 0 czw c e <= emitter_gain czw c e
   <= gain_bound (1 / 3) czw c e)%R.
Proof.
  unfold gain_bound, emitter_gain. destruct (reaches e c); [|lra].
  pose proof (exp_pos (- euclidean c e / signalrange)) as Hpos.
  case_bool_decide as Hce.
  - subst e. rewrite euclidean_self.
    replace (- 0 / signalrange)%R with 0%R by (unfold Rdiv; ring).
    rewrite exp_0. lra.
  - pose proof (decay_far c e Hce). lra.
Qed.

Lemma coverage_score_between (p : list coord) (czw : R) cm :
  coverage_map p czw = Some cm →
  (np_sum ((λ c, total Rplus 0 (gain_bound 0 czw c) p) <$> valid_positions)
   <= 26 * coverage_score cm
   <= np_sum ((λ c, total Rplus 0 (gain_bound (1 / 3) czw c) p)
                <$> valid_positions))%R.
Proof.
  intros Hcm.
  destruct (coverage_map_spec p czw) as (cm' & Hcm' & Hsh & Hval).
  rewrite Hcm in Hcm'. injection Hcm' as <-.
  rewrite coverage_score_valid_positions by done.
  replace (INR (length valid_positions)) with 26%R
    by (vm_compute length; rewrite INR_IZR_INZ; reflexivity).
  replace (26 * (np_sum (cell cm <$> valid_positions) / 26))%R
    with (np_sum (cell cm <$> valid_positions)) by (field; lra).
  split; apply np_sum_fmap_le; intros c [k Hc]%list_elem_of_lookup;
    rewrite Hval by (by apply (elem_of_valid_positions_set k));
    apply total_le; intros e; apply emitter_gain_between.
Qed.

Lemma repulsion_score_pair (a b : coord) :
  repulsion_score [a; b] = (2 * exp (- euclidean a b / 3))%R.
Proof.
  rewrite repulsion_score_ordered_pairs.
  unfold ordered_pairs_sum, np_sum, pair_term. cbn.
  rewrite (euclidean_sym b a). repeat case_decide; try done. lra.
Qed.

(** Two emitters four cells apart are fitter than two emitters stacked on
    one cell. *)
Lemma fitness_spread_above_stacked :
  ∃ fa fb, fitness_of [(3, 1); (3, 5)] = Some fa
    ∧ fitness_of [(3, 3); (3, 3)] = Some fb ∧ (fb < fa)%R.
Proof.
  unfold fitness_of, compute_coverage.
  destruct (coverage_map_spec [(3, 1); (3, 5)] default_critical_zone_weight)
    as (cma & Hcma & _).
  destruct (coverage_map_spec [(3, 3); (3, 3)] default_critical_zone_weight)
    as (cmb & Hcmb & _).
  pose proof (coverage_score_between _ _ _ Hcma) as [Hlow _].
  pose proof (coverage_score_between _ _ _ Hcmb) as [_ Hhigh].
  rewrite Hcma, Hcmb. cbn [mbind option_bind].
  eexists _, _. split; [done|]. split; [done|].
  (* the repulsion of the two placements *)
  rewrite !repulsion_score_pair, euclidean_self.
  replace (- 0 / 3)%R with 0%R by lra. rewrite exp_0.
  assert (Rle (exp (- euclidean (3, 1) (3, 5) / 3)) (3 / 7)) as Hrep.
  { assert (euclidean (3, 1) (3, 5) = 4%R) as ->.
    { assert (Rle 0 (euclidean (3, 1) (3, 5))) as Hd by apply sqrt_pos.
      pose proof (euclidean_sqr (3, 1) (3, 5)) as Hsq.
      change (IZR _) with (IZR 16) in Hsq. nra. }
    replace (exp _) with (exp (- (4 / 3))) by (f_equal; lra).
    assert (1 + 4 / 3 < exp (4 / 3))%R by (apply exp_ineq1; lra).
    assert (exp (- (4 / 3)) * exp (4 / 3) = 1)%R as Hinv.
    { rewrite <- exp_plus. replace (- (4 / 3) + 4 / 3)%R with 0%R by lra.
      apply exp_0. }
    pose proof (exp_pos (- (4 / 3))). nra. }
  (* the coverage of the two placements *)
  unfold default_critical_zone_weight, default_repulsion_weight in *.
  rewrite valid_positions_eq in Hlow, Hhigh.
  cbv -[Rplus Rmult Rdiv Rminus Ropp Rinv IZR Rle coverage_score]
    in Hlow, Hhigh.
  lra.
Qed.

(** With both draws equal to 1/2 a particle at rest whose coordinate is an
    even number of cells from the Global Best has an integer candidate. *)
Lemma np_round_half_step (p g k : Z) :
  p - g = 2 * k →
  np_round (IZR p + velocity_component (1 / 2) (1 / 2) 0 p g) = p + 3 * k.
Proof.
  intros Hk. unfold velocity_component, w, c1, c2. rewrite Hk.
  replace (IZR p + _)%R with (IZR (p + 3 * k) + 0)%R.
  - apply np_round_IZR.
  - rewrite plus_IZR, !mult_IZR. lra.
Qed.

(** The run of one pass of two particles of two emitters, drawn at
    (3,1), (3,5) and at (3,3), (3,3), with both draws of the pass equal to
    1/2.  The first particle is the Global Best.  The candidates of the
    second are (3,6), a FREE cell, which the repair accepts, and (3,0), a
    wall, which the repair reverts to (3,3). *)
Lemma pass_with_a_reverted_coordinate :
  init_particles [[11; 15]; [13; 13]]%nat
  = Some [[(3, 1); (3, 5)]; [(3, 3); (3, 3)]]
  ∧ ∃ s, optimize 2 2 1 [[11; 15]; [13; 13]]%nat (λ _, (1 / 2, 1 / 2)%R)
         = Some s
      ∧ global_best s = Some [(3, 1); (3, 5)]
      ∧ round_positions [[(3, 1); (3, 5)]; [(3, 3); (3, 3)]] (velocity s)
        = [[(3, 1); (3, 5)]; [(3, 6); (3, 0)]]
      ∧ ((3, 6) ∈ valid_set) ∧ ((3, 0) ∉ valid_set)
      ∧ particles s = [[(3, 1); (3, 5)]; [(3, 6); (3, 3)]].
Proof.
  assert (init_particles [[11; 15]; [13; 13]]%nat
          = Some [[(3, 1); (3, 5)]; [(3, 3); (3, 3)]]) as Hinit
    by (vm_compute; reflexivity).
  split; [done|].
  destruct fitness_spread_above_stacked as (fa & fb & Hfa & Hfb & Hlt).
  unfold fitness_of in Hfa, Hfb.
  unfold optimize, init_swarm. rewrite Hinit.
  cbn [mbind option_bind fmap list_fmap].
  unfold pso_loop. cbn [seq for_loop fst snd]. unfold pso_step.
  cbn [particles velocity global_best best_fitness fitness_history mapM].
  rewrite Hfa, Hfb. cbn [mbind option_bind mret option_ret].
  unfold update_best.
  cbn [np_max foldl exceeds best_fitness mbind option_bind np_argmax
       argmax_from particles].
  destruct (Rlt_dec fa fb) as [Hgt|_]; [lra|].
  cbn [lookup list_lookup mbind option_bind].
  set (vel := update_velocity _ _ _ _ _).
  assert (round_positions [[(3, 1); (3, 5)]; [(3, 3); (3, 3)]] vel
          = [[(3, 1); (3, 5)]; [(3, 6); (3, 0)]]) as Hround.
  { unfold vel, update_velocity, round_positions. cbn [zip_with zip].
    rewrite (np_round_half_step 3 3 0), (np_round_half_step 1 1 0),
      (np_round_half_step 5 5 0), (np_round_half_step 3 1 1),
      (np_round_half_step 3 5 (-1)) by done.
    reflexivity. }
  rewrite Hround.
  assert (repair 2 2 [[(3, 1); (3, 5)]; [(3, 3); (3, 3)]]
            [[(3, 1); (3, 5)]; [(3, 6); (3, 0)]]
          = Some [[(3, 1); (3, 5)]; [(3, 6); (3, 3)]]) as ->
    by (vm_compute; reflexivity).
  cbn [mbind option_bind]. eexists. split; [done|].
  cbn [particles velocity global_best].
  split; [done|]. split; [done|].
  split; [by vm_compute|]. split; [by vm_compute|done].
Qed.

(** The theorem of C4 on that run, together with what the run does. *)
Lemma repair_keeps_particles_valid_witness :
  ((∃ s, optimize 2 2 1 [[11; 15]; [13; 13]]%nat (λ _, (1 / 2, 1 / 2)%R)
         = Some s
      ∧ has_shape 2 2 (particles s)
      ∧ all_cells (λ c, c ∈ valid_set) (particles s))
   ∧ (∃ s0, init_swarm [[11; 15]; [13; 13]]%nat = Some s0
        ∧ swarm_inv 2 2 0 s0)
   ∧ (∀ t r1 r2 s, swarm_inv 2 2 t s →
        ∃ s' g, pso_step 2 2 r1 r2 s = Some s'
          ∧ swarm_inv 2 2 (S t) s'
          ∧ global_best s' = Some g
          ∧ velocity s' = update_velocity r1 r2 (velocity s) (particles s) g
          ∧ repair 2 2 (particles s)
              (round_positions (particles s) (velocity s'))
            = Some (particles s'))
   ∧ (∀ t s, swarm_inv 2 2 t s →
        has_shape 2 2 (particles s)
        ∧ all_cells (λ c, c ∈ valid_set) (particles s))
   ∧ (∀ old new, has_shape 2 2 old → has_shape 2 2 new →
        ∃ np, repair 2 2 old new = Some np ∧ has_shape 2 2 np
          ∧ ∀ x y, 0 <= x < Z.of_nat 2 → 0 <= y < Z.of_nat 2 →
              np_get np x y = repaired_cell old new x y)
   ∧ (∀ c, c ∈ valid_set ↔
           0 <= c.1 < 6 ∧ 0 <= c.2 < 10
           ∧ np_get warehouse_map c.1 c.2 = Some 0))
  ∧ (init_particles [[11; 15]; [13; 13]]%nat
     = Some [[(3, 1); (3, 5)]; [(3, 3); (3, 3)]]
     ∧ ∃ s, optimize 2 2 1 [[11; 15]; [13; 13]]%nat (λ _, (1 / 2, 1 / 2)%R)
            = Some s
         ∧ global_best s = Some [(3, 1); (3, 5)]
         ∧ round_positions [[(3, 1); (3, 5)]; [(3, 3); (3, 3)]] (velocity s)
           = [[(3, 1); (3, 5)]; [(3, 6); (3, 0)]]
         ∧ ((3, 6) ∈ valid_set) ∧ ((3, 0) ∉ valid_set)
         ∧ particles s = [[(3, 1); (3, 5)]; [(3, 6); (3, 3)]]).
Proof.
  split; [|exact pass_with_a_reverted_coordinate].
  apply (repair_keeps_particles_valid 2 2 1 [[11; 15]; [13; 13]]%nat
           (λ _, (1 / 2, 1 / 2)%R)).
  - lia.
  - split; [reflexivity|]. repeat constructor.
  - repeat constructor; vm_compute; lia.
Defined.
